(** * Thread reconstruction and request gateway of the tweet viewer

    A shallow embedding of [src/utils/api.ts]: the text heuristics
    ([detectTruncatedText], the cleaning done by [processTweet]), the failure
    cache of the request gateway ([hasRecentlyFailed], [recordFailedRequest],
    [makeApiRequest]), the ordering done at the end of [fetchAllReplies], the
    error boundary of [fetchUserTweets] and the grouping engine
    [groupThreads], followed by the properties the specification states
    about them. *)

From Stdlib Require Import ZArith Lia List Ascii String Permutation Sorted.
From stdpp Require Import gmap strings list pretty.

Local Open Scope Z_scope.

(** ** JavaScript strings

    The text fields of a tweet are inspected through [length], [endsWith],
    regular expressions over code-point ranges and the like, all of which
    work on UTF-16 code units.  Such a string is a list of code units.
    Identifiers, keys and urls are only ever compared for equality and are
    kept as [string]. *)

Module JS.

Abbreviation jsstring := (list Z).

(** The code units of an ASCII literal. *)
Fixpoint utf16 (s : string) : jsstring :=
  match s with
  | EmptyString => []
  | String a s' => Z.of_N (N_of_ascii a) :: utf16 s'
  end.

(** U+2026 HORIZONTAL ELLIPSIS. *)
Definition ellipsis : Z := 8230.

(** WhiteSpace and LineTerminator of ECMAScript: what [trim] strips and
    what [\s] matches. *)
Definition isWhiteSpace (c : Z) : bool :=
  (9 <=? c) && (c <=? 13) || (c =? 32) || (c =? 160) || (c =? 5760)
  || (8192 <=? c) && (c <=? 8202) || (c =? 8232) || (c =? 8233)
  || (c =? 8239) || (c =? 8287) || (c =? 12288) || (c =? 65279).

(** [\w] of a regular expression without the [u] and [i] flags. *)
Definition isWordChar (c : Z) : bool :=
  (48 <=? c) && (c <=? 57) || (65 <=? c) && (c <=? 90) || (c =? 95)
  || (97 <=? c) && (c <=? 122).

Fixpoint dropWhile {A} (p : A -> bool) (l : list A) : list A :=
  match l with
  | [] => []
  | x :: l' => if p x then dropWhile p l' else l
  end.

Fixpoint takeWhile {A} (p : A -> bool) (l : list A) : list A :=
  match l with
  | [] => []
  | x :: l' => if p x then x :: takeWhile p l' else []
  end.

Definition trimStart (s : jsstring) : jsstring := dropWhile isWhiteSpace s.
Definition trimEnd (s : jsstring) : jsstring :=
  rev (dropWhile isWhiteSpace (rev s)).
Definition trim (s : jsstring) : jsstring := trimEnd (trimStart s).

Fixpoint startsWith (s prefix : jsstring) {struct prefix} : bool :=
  match prefix, s with
  | [], _ => true
  | p :: prefix', c :: s' => (c =? p) && startsWith s' prefix'
  | _ :: _, [] => false
  end.

Definition endsWith (s suffix : jsstring) : bool :=
  startsWith (rev s) (rev suffix).

Fixpoint includes (s needle : jsstring) : bool :=
  startsWith s needle
  || match s with
     | [] => false
     | _ :: s' => includes s' needle
     end.

(** [s.split(/\s+/)]: the pieces between maximal runs of white space.  The
    flag tells whether the previous code unit was part of a separator. *)
Fixpoint split_ws_from (in_sep : bool) (s : jsstring) : list jsstring :=
  match s with
  | [] => [[]]
  | c :: s' =>
      if isWhiteSpace c then
        if in_sep then split_ws_from true s' else [] :: split_ws_from true s'
      else
        match split_ws_from false s' with
        | piece :: pieces => (c :: piece) :: pieces
        | [] => [[c]]
        end
  end.

Definition split_ws (s : jsstring) : list jsstring := split_ws_from false s.

(** [a.slice(-n)]: the last [n] elements. *)
Definition slice_last {A} (n : nat) (a : list A) : list A :=
  skipn (length a - n) a.

(** [toLowerCase], code unit by code unit.  The ASCII capitals and U+212A
    KELVIN SIGN are the only code units whose lower case is an ASCII
    letter; every other code unit is left as it is, which agrees with
    JavaScript on whether the result equals a word written in ASCII
    letters, the only use made of it here. *)
Definition lowerUnit (c : Z) : Z :=
  if (65 <=? c) && (c <=? 90) then c + 32
  else if c =? 8490 then 107
  else c.

Definition toLowerCase (s : jsstring) : jsstring := map lowerUnit s.

Fixpoint jsstring_eqb (a b : jsstring) : bool :=
  match a, b with
  | [], [] => true
  | x :: a', y :: b' => (x =? y) && jsstring_eqb a' b'
  | _, _ => false
  end.

(** [words.includes(w)] on an array of strings. *)
Definition array_includes (words : list jsstring) (w : jsstring) : bool :=
  existsb (jsstring_eqb w) words.

(** A comparator's result: a number, or [None] for NaN. *)
Abbreviation number := (option Z).

(** [Array.prototype.sort] with a comparator.  The sort is stable; a
    comparator result that is positive moves the left element after the
    right one, and NaN counts as zero (SortCompare).  Insertion from the
    right keeps equal elements in their original order. *)
Definition cmp_gt {A} (cmp : A -> A -> number) (a b : A) : bool :=
  match cmp a b with
  | Some v => 0 <? v
  | None => false
  end.

Fixpoint sort_insert {A} (cmp : A -> A -> number) (x : A) (l : list A)
  : list A :=
  match l with
  | [] => [x]
  | y :: l' => if cmp_gt cmp x y then y :: sort_insert cmp x l' else x :: l
  end.

Fixpoint sort {A} (cmp : A -> A -> number) (l : list A) : list A :=
  match l with
  | [] => []
  | x :: l' => sort_insert cmp x (sort cmp l')
  end.

(** Truthiness of an optional string: [undefined] and the empty string are
    falsy. *)
Definition truthy (o : option string) : bool :=
  match o with
  | Some s => negb (String.eqb s "")
  | None => false
  end.

(** [a || b] on optional strings. *)
Definition or_else (a b : option string) : option string :=
  if truthy a then a else b.

(** The string an optional string holds, where the code has checked it to
    be truthy. *)
Definition the_string (o : option string) : string :=
  match o with
  | Some s => s
  | None => ""
  end.

(** [Map<string, V>]: the entries in insertion order.  Setting a key that
    is there replaces its value in place; a new key goes to the end. *)
Fixpoint map_get {V} (k : string) (m : list (string * V)) : option V :=
  match m with
  | [] => None
  | (k', v) :: m' => if String.eqb k k' then Some v else map_get k m'
  end.

Definition map_has {V} (k : string) (m : list (string * V)) : bool :=
  match map_get k m with
  | Some _ => true
  | None => false
  end.

Fixpoint map_set {V} (k : string) (v : V) (m : list (string * V))
  : list (string * V) :=
  match m with
  | [] => [(k, v)]
  | (k', v') :: m' =>
      if String.eqb k k' then (k, v) :: m' else (k', v') :: map_set k v m'
  end.

(** [Set<string>.add] on a set kept in insertion order. *)
Definition set_add (x : string) (s : list string) : list string :=
  if existsb (String.eqb x) s then s else s ++ [x].

End JS.

Import JS.

(** ** Text normalizer *)

Module Text.

Definition commonTruncationEnders : list jsstring :=
  map utf16
    ["the"; "a"; "an"; "to"; "in"; "on"; "at"; "by"; "for"; "with";
     "about"; "like"; "of"; "all"]%string.

(** The character class of the non-Latin scripts: Devanagari, Arabic,
    Hebrew, Thai, Hiragana and Katakana, CJK extension A, CJK unified. *)
Definition isNonLatinUnit (c : Z) : bool :=
  (2304 <=? c) && (c <=? 2431) || (1536 <=? c) && (c <=? 1791)
  || (1424 <=? c) && (c <=? 1535) || (3584 <=? c) && (c <=? 3711)
  || (12352 <=? c) && (c <=? 12543) || (13312 <=? c) && (c <=? 19903)
  || (19968 <=? c) && (c <=? 40959).

(** The Devanagari block, the first range of the class. *)
Definition isDevanagari (c : Z) : bool := (2304 <=? c) && (c <=? 2431).

Definition hasNonLatinScript (text : jsstring) : bool :=
  existsb isNonLatinUnit text.

(** Full stop, exclamation mark, question mark, double quote. *)
Definition isTerminalPunctuation (c : Z) : bool :=
  (c =? 46) || (c =? 33) || (c =? 63) || (c =? 34).

(** The test of the regular expression that anchors one of the four marks
    at the end of the string. *)
Definition endsInTerminalPunctuation (s : jsstring) : bool :=
  match rev s with
  | c :: _ => isTerminalPunctuation c
  | [] => false
  end.

(** The last element of [lastWords], when there is one. *)
Definition lastWord (lastWords : list jsstring) : option jsstring :=
  last lastWords.

Definition detectTruncatedText (text : jsstring) : bool :=
  if (length text =? 0)%nat || (length (trim text) =? 0)%nat then false
  else if endsWith text [ellipsis] || endsWith text (utf16 "...") then true
  else if includes text (ellipsis :: utf16 " https://")
          || includes text (utf16 "... https://") then true
  else
    let lastWords := slice_last 2 (split_ws (trim text)) in
    if match lastWord lastWords with
       | Some w => array_includes commonTruncationEnders (toLowerCase w)
       | None => false
       end
    then true
    else
      let thresholdLength : nat :=
        if hasNonLatinScript text then 180%nat else 240%nat in
      if (thresholdLength <=? length text)%nat
         && negb (endsInTerminalPunctuation (trim text))
      then true
      else false.

End Text.

Import Text.

(** ** Post normalizer *)

(** The raw record of the upstream API, with the fields [processTweet]
    reads for the linkage, the text and the truncation flag.  A field that
    may be missing is an [option]; [creation_date] stands for the instant
    [new Date(creation_date).getTime()] reads from it, [None] when that is
    NaN. *)
Module Raw.

Record User := {
  user_id : option string;
  username : option string;
}.

Record Tweet := {
  tweet_id : string;
  text : option jsstring;
  extended_text : option jsstring;
  extended_tweet_full_text : option jsstring;
  full_text : option jsstring;
  creation_date : option Z;
  user : option User;
  reply_count : option Z;
  conversation_id : option string;
  thread_id : option string;
  in_reply_to_status_id : option string;
  in_reply_to_tweet_id : option string;
  in_reply_to_user_id : option string;
}.

End Raw.

Module Author.

Record User := {
  id : option string;
  username : option string;
}.

End Author.

(** The tweet of [types.ts], with the fields the functions below read or
    write.  [created_at] is kept as the instant the date parser reads from
    the string, [None] for an unparseable one. *)
Record Tweet := {
  id : string;
  text : jsstring;
  full_text : option jsstring;
  created_at : option Z;
  author : Author.User;
  reply_count : Z;
  conversation_id : option string;
  in_reply_to_user_id : option string;
  in_reply_to_tweet_id : option string;
  is_long : bool;
  thread_id : option string;
  is_self_thread : bool;
  thread_position : option Z;
  thread_index : option Z;
}.

Module Normalizer.

(** Truthiness of an optional text: [undefined] and the empty string are
    falsy. *)
Definition nonEmpty (o : option jsstring) : bool :=
  match o with
  | Some (_ :: _) => true
  | _ => false
  end.

Definition text_or (a b : option jsstring) : option jsstring :=
  if nonEmpty a then a else b.

(** [extended_text || extended_tweet?.full_text || full_text || text || ''] *)
Definition textContent (tweet : Raw.Tweet) : jsstring :=
  match text_or (Raw.extended_text tweet)
          (text_or (Raw.extended_tweet_full_text tweet)
             (text_or (Raw.full_text tweet) (Raw.text tweet))) with
  | Some s => s
  | None => []
  end.

(** First replacement: a trailing short link, with the white space before
    it.  The word characters of the link are the longest run of word
    characters at the end of the string, since the slash before them is
    not one. *)
Definition stripTrailingLink (s : jsstring) : jsstring :=
  let r := rev s in
  let word := takeWhile isWordChar r in
  let rest := dropWhile isWordChar r in
  if negb (length word =? 0)%nat && startsWith rest (rev (utf16 "https://t.co/"))
  then rev (dropWhile isWhiteSpace (skipn 13 rest))
  else s.

Definition isDot (c : Z) : bool := (c =? ellipsis) || (c =? 46).

(** Second replacement: a trailing run of three or more ellipsis or full
    stop characters, with the white space before it. *)
Definition stripTrailingDots (s : jsstring) : jsstring :=
  let r := rev s in
  let dots := takeWhile isDot r in
  if (3 <=? length dots)%nat
  then rev (dropWhile isWhiteSpace (dropWhile isDot r))
  else s.

(** Third replacement: three or more line feeds in a row become two.
    [seen] counts the line feeds immediately before the current position. *)
Fixpoint collapseNewlines (seen : nat) (s : jsstring) : jsstring :=
  match s with
  | [] => []
  | c :: s' =>
      if c =? 10 then
        if (2 <=? seen)%nat then collapseNewlines (S seen) s'
        else c :: collapseNewlines (S seen) s'
      else c :: collapseNewlines 0 s'
  end.

Definition cleanText (textContent : jsstring) : jsstring :=
  collapseNewlines 0 (stripTrailingDots (stripTrailingLink textContent)).

Definition opt_eqb (a b : option string) : bool :=
  match a, b with
  | Some x, Some y => String.eqb x y
  | None, None => true
  | _, _ => false
  end.

Definition processTweet (tweet : Raw.Tweet) : Tweet :=
  let textContent := textContent tweet in
  let isLikelyTruncated := detectTruncatedText textContent in
  let cleanedText := cleanText textContent in
  let conversation_id :=
    or_else (Raw.conversation_id tweet)
      (or_else (Raw.in_reply_to_status_id tweet) (Some (Raw.tweet_id tweet))) in
  let thread_id := or_else (Raw.thread_id tweet) conversation_id in
  let in_reply_to_tweet_id :=
    or_else (Raw.in_reply_to_tweet_id tweet) (Raw.in_reply_to_status_id tweet) in
  let user_id := match Raw.user tweet with
                 | Some u => Raw.user_id u
                 | None => None
                 end in
  let isSelfThread :=
    truthy (Raw.in_reply_to_user_id tweet) && truthy user_id
    && opt_eqb (Raw.in_reply_to_user_id tweet) user_id in
  {| id := Raw.tweet_id tweet;
     text := match Raw.text tweet with
             | Some s => s
             | None => []
             end;
     full_text := Some cleanedText;
     created_at := Raw.creation_date tweet;
     author := {| Author.id := user_id;
                  Author.username := match Raw.user tweet with
                              | Some u => Raw.username u
                              | None => None
                              end |};
     reply_count := match Raw.reply_count tweet with
                    | Some n => n
                    | None => 0
                    end;
     conversation_id := conversation_id;
     in_reply_to_user_id := Raw.in_reply_to_user_id tweet;
     in_reply_to_tweet_id := in_reply_to_tweet_id;
     is_long := (280 <? length textContent)%nat || isLikelyTruncated;
     thread_id := thread_id;
     is_self_thread := isSelfThread;
     thread_position := None;
     thread_index := None |}.

End Normalizer.

Import Normalizer.

(** ** Exceptions

    A call either returns a value or throws; an awaited promise either
    resolves or rejects.  Both are an [Outcome]. *)

Inductive Error :=
| SkippedRecentFailure (url : string)
| ParseError
| ApiError (status : Z)
| UserNotFound (username : string)
| TypeError.

Inductive Outcome (A : Type) :=
| Returned (a : A)
| Thrown (e : Error).

Arguments Returned {A} a.
Arguments Thrown {A} e.

#[global] Instance Outcome_ret : MRet Outcome := fun A a => Returned a.
#[global] Instance Outcome_bind : MBind Outcome :=
  fun A B f m =>
    match m with
    | Returned a => f a
    | Thrown e => Thrown e
    end.

(** A loop whose body may throw. *)
Fixpoint foldM {A S : Type} (body : S -> A -> Outcome S) (l : list A) (s : S)
  : Outcome S :=
  match l with
  | [] => Returned s
  | x :: l' => s' ← body s x; foldM body l' s'
  end.

(** [o!.m(...)]: using a value that may be undefined throws when it is. *)
Definition unwrap {A : Type} (o : option A) : Outcome A :=
  match o with
  | Some a => Returned a
  | None => Thrown TypeError
  end.

(** ** Rate-limited request gateway *)

Module Gateway.

Definition MIN_API_CALL_INTERVAL : Z := 2000.
Definition MAX_RETRIES : nat := 2.
Definition RETRY_DELAY : Z := 3000.
Definition FAILED_REQUEST_EXPIRY : Z := 10 * 60 * 1000.

Record FailedRequest := {
  timestamp : Z;
  errorCode : Z;
  retryAfter : option Z;
}.

(** The module state of the gateway, together with the clock [Date.now()]
    reads and the list of requests that were put on the wire, oldest
    first.  One call of a synchronous function reads one instant. *)
Record State := {
  failedRequests : gmap string FailedRequest;
  lastApiCallTime : Z;
  clock : Z;
  sent : list string;
}.

(** Waiting on a timer: the clock moves on while nothing else runs. *)
Definition sleep (ms : Z) (st : State) : State :=
  {| failedRequests := failedRequests st;
     lastApiCallTime := lastApiCallTime st;
     clock := clock st + Z.max 0 ms;
     sent := sent st |}.

Definition set_failedRequests (m : gmap string FailedRequest) (st : State)
  : State :=
  {| failedRequests := m;
     lastApiCallTime := lastApiCallTime st;
     clock := clock st;
     sent := sent st |}.

Definition rateLimit (st : State) : State :=
  let now := clock st in
  let timeSinceLastCall := now - lastApiCallTime st in
  let st :=
    if timeSinceLastCall <? MIN_API_CALL_INTERVAL
    then sleep (MIN_API_CALL_INTERVAL - timeSinceLastCall) st
    else st in
  {| failedRequests := failedRequests st;
     lastApiCallTime := clock st;
     clock := clock st;
     sent := sent st |}.

(** [failedRequest.retryAfter && now > failedRequest.retryAfter]: a missing
    deadline and the number zero are falsy. *)
Definition deadlinePassed (now : Z) (retryAfter : option Z) : bool :=
  match retryAfter with
  | Some deadline => negb (deadline =? 0) && (deadline <? now)
  | None => false
  end.

Definition hasRecentlyFailed (url : string) (st : State) : bool * State :=
  match failedRequests st !! url with
  | None => (false, st)
  | Some failedRequest =>
      let now := clock st in
      if FAILED_REQUEST_EXPIRY <? now - timestamp failedRequest then
        (false, set_failedRequests (delete url (failedRequests st)) st)
      else if deadlinePassed now (retryAfter failedRequest) then
        (false, set_failedRequests (delete url (failedRequests st)) st)
      else (true, st)
  end.

Definition recordFailedRequest (url : string) (errorCode : Z)
    (retryAfter : option Z) (st : State) : State :=
  let now := clock st in
  let record :=
    {| timestamp := now;
       errorCode := errorCode;
       retryAfter := match retryAfter with
                     | Some ms => if ms =? 0 then None else Some (now + ms)
                     | None => None
                     end |} in
  let inserted := <[url := record]> (failedRequests st) in
  set_failedRequests
    (filter (fun kv => now - timestamp kv.2 <= FAILED_REQUEST_EXPIRY) inserted)
    st.

Section Requests.

(** What the upstream answers: the status of the response, how long it
    took, and what [JSON.parse] makes of its text ([None] when it throws).
    The server is any function of the number of requests it has seen and
    of the url. *)
Context {JSON : Type}.

Record Response := {
  status : Z;
  latency : Z;
  parsed : option JSON;
}.

Variable server : nat -> string -> Response.

(** [xhr.send]: the request goes on the wire and the handler runs when the
    response is there. *)
Definition send (url : string) (st : State) : Response * State :=
  let xhr := server (length (sent st)) url in
  (xhr,
   {| failedRequests := failedRequests st;
      lastApiCallTime := lastApiCallTime st;
      clock := clock st + Z.max 0 (latency xhr);
      sent := sent st ++ [url] |}).

(** The last branch of the handler: record the failure and reject. *)
Definition giveUp (url : string) (status : Z) (st : State)
  : Outcome JSON * State :=
  (Thrown (ApiError status),
   if status =? 429 then recordFailedRequest url status (Some 60000) st
   else recordFailedRequest url status None st).

(** [makeApiRequest] calls itself with [retryCount + 1] while
    [retryCount < MAX_RETRIES]; [fuel] bounds the calls that are left.  One
    caller at a time is modelled: the queue then runs the request at once,
    and the throttle the queue worker awaits after a request, which runs
    beside the caller, is left out. *)
Fixpoint makeApiRequest_fuel (fuel : nat) (url : string) (retryCount : nat)
    (st : State) : Outcome JSON * State :=
  let '(failed, st) := hasRecentlyFailed url st in
  if failed then (Thrown (SkippedRecentFailure url), st)
  else
    let st := rateLimit st in
    let '(xhr, st) := send url st in
    if (200 <=? status xhr) && (status xhr <? 300) then
      match parsed xhr with
      | Some json => (Returned json, st)
      | None => (Thrown ParseError, st)
      end
    else if (status xhr =? 429) && (retryCount <? MAX_RETRIES)%nat then
      let delay := RETRY_DELAY * 2 ^ Z.of_nat retryCount in
      match fuel with
      | S fuel' => makeApiRequest_fuel fuel' url (S retryCount) (sleep delay st)
      | O => giveUp url (status xhr) st
      end
    else giveUp url (status xhr) st.

Definition makeApiRequest (url : string) (retryCount : nat) (st : State)
  : Outcome JSON * State :=
  makeApiRequest_fuel (MAX_RETRIES - retryCount) url retryCount st.

End Requests.

Arguments Response : clear implicits.

(** The failure-cache check as the specification words it: a record
    exists, and less than ten minutes have passed since it was written or,
    for a 429, its deadline has not passed. *)
Definition skip_per_spec (url : string) (st : State) : Prop :=
  exists failedRequest,
    failedRequests st !! url = Some failedRequest
    /\ (clock st - timestamp failedRequest < FAILED_REQUEST_EXPIRY
        \/ (errorCode failedRequest = 429
            /\ exists deadline, retryAfter failedRequest = Some deadline
                                /\ clock st <= deadline)).

(** The check as the code makes it: a record exists, no more than ten
    minutes have passed since it was written, and its deadline, if it has
    one, has not passed. *)
Definition blocked (url : string) (st : State) : Prop :=
  exists failedRequest,
    failedRequests st !! url = Some failedRequest
    /\ clock st - timestamp failedRequest <= FAILED_REQUEST_EXPIRY
    /\ deadlinePassed (clock st) (retryAfter failedRequest) = false.

End Gateway.

(** ** Shapes shared by the fetchers *)

(** The user-configurable options. *)
Record TwitterConfig := {
  fetchLimit : nat;
  maxTweets : nat;
  threadsToProcess : nat;
  maxContinuations : nat;
  replyMaxPages : nat;
}.

Definition defaultConfig : TwitterConfig :=
  {| fetchLimit := 50; maxTweets := 200; threadsToProcess := 10;
     maxContinuations := 3; replyMaxPages := 4 |}.

(** A parsed response body, with the fields the fetchers read. *)
Record ApiResponse := {
  response_user_id : option string;
  results : option (list Raw.Tweet);
  replies : option (list Raw.Tweet);
  continuation_token : option string;
}.

(** [toLowerCase] on a user name, which is made of ASCII letters, digits
    and underscores. *)
Definition lowerChar (a : ascii) : ascii :=
  let n := nat_of_ascii a in
  if (65 <=? n)%nat && (n <=? 90)%nat then ascii_of_nat (n + 32) else a.

Fixpoint lowerName (s : string) : string :=
  match s with
  | EmptyString => EmptyString
  | String a s' => String (lowerChar a) (lowerName s')
  end.

(** [tweetText.match(/^@[a-zA-Z0-9_]+/) && !tweetText.startsWith(`@${username}`)] *)
Definition mentionsAnotherUser (tweetText : jsstring) (username : string)
  : bool :=
  match tweetText with
  | 64 :: c :: _ =>
      isWordChar c && negb (startsWith tweetText (64 :: utf16 username))
  | _ => false
  end.

(** [t.full_text || t.text || ''] *)
Definition tweetText (t : Tweet) : jsstring :=
  match text_or (full_text t) (Some (text t)) with
  | Some s => s
  | None => []
  end.

(** The comparator every chronological sort uses.  Constructing a date
    and reading its time never throws: an unparseable string reads NaN, so
    the handler that would compare the ids instead is never entered. *)
Definition compareCreatedAt (a b : Tweet) : number :=
  match created_at a, created_at b with
  | Some ta, Some tb => Some (ta - tb)
  | _, _ => None
  end.

(** Chronological order on tweets whose dates parse. *)
Definition notLater (a b : Tweet) : Prop :=
  match created_at a, created_at b with
  | Some ta, Some tb => ta <= tb
  | _, _ => False
  end.

Definition set_position (index : nat) (t : Tweet) : Tweet :=
  {| id := id t; text := text t; full_text := full_text t;
     created_at := created_at t; author := author t;
     reply_count := reply_count t; conversation_id := conversation_id t;
     in_reply_to_user_id := in_reply_to_user_id t;
     in_reply_to_tweet_id := in_reply_to_tweet_id t; is_long := is_long t;
     thread_id := thread_id t; is_self_thread := is_self_thread t;
     thread_position := Some (Z.of_nat index);
     thread_index := Some (Z.of_nat index) |}.

(** ** Reply-chain fetcher *)

Module Replies.

Import Gateway.

Section Fetch.

Variable config : TwitterConfig.
Variable server : nat -> string -> Response ApiResponse.
Variable encodeURIComponent : string -> string.

Definition REPLY_MAX_ATTEMPTS : nat := 3.

(** The callback of [filter], run over the normalized replies of one page.
    It adds the ids it accepts to [uniqueReplyIds] as it goes, and throws
    on a reply whose author has no user name; what was added before the
    throw stays added. *)
Fixpoint filterReplies (username : string) (uniqueReplyIds : gset string)
    (page : list Tweet) : Outcome (list Tweet) * gset string :=
  match page with
  | [] => (Returned [], uniqueReplyIds)
  | t :: page' =>
      match Author.username (author t) with
      | None => (Thrown TypeError, uniqueReplyIds)
      | Some name =>
          if negb (String.eqb (lowerName name) (lowerName username)) then
            filterReplies username uniqueReplyIds page'
          else if bool_decide (id t ∈ uniqueReplyIds) then
            filterReplies username uniqueReplyIds page'
          else if mentionsAnotherUser (tweetText t) username then
            filterReplies username uniqueReplyIds page'
          else
            let '(rest, ids) :=
              filterReplies username ({[id t]} ∪ uniqueReplyIds) page' in
            (match rest with
             | Returned kept => Returned (t :: kept)
             | Thrown e => Thrown e
             end, ids)
      end
  end.

Record Loop := {
  allReplies : list Tweet;
  continuationToken : option string;
  attempts : nat;
  uniqueReplyIds : gset string;
  pageCount : nat;
}.

Definition repliesUrl (tweetId : string) (continuationToken : option string)
  : string :=
  match continuationToken with
  | Some token =>
      if truthy continuationToken then
        ("https://twitter154.p.rapidapi.com/tweet/replies/continuation?tweet_id="
           +:+ tweetId +:+ "&continuation_token=" +:+ encodeURIComponent token)%string
      else
        ("https://twitter154.p.rapidapi.com/tweet/replies?tweet_id=" +:+ tweetId)%string
  | None =>
      ("https://twitter154.p.rapidapi.com/tweet/replies?tweet_id=" +:+ tweetId)%string
  end.

(** What one pass through the body of the loop leaves behind: the loop
    variables, the gateway, and whether a [break] was taken. *)
Definition catchPage (l : Loop) (ids : gset string) (st : State)
  : Loop * State * bool :=
  let attempts := S (attempts l) in
  ({| allReplies := allReplies l;
      continuationToken := continuationToken l;
      attempts := attempts;
      uniqueReplyIds := ids;
      pageCount := pageCount l |},
   sleep 2000 st,
   (REPLY_MAX_ATTEMPTS <=? attempts)%nat).

Definition pageDone (l : Loop) (found : list Tweet)
    (token : option string) (ids : gset string) (st : State)
  : Loop * State * bool :=
  ({| allReplies := allReplies l ++ found;
      continuationToken := token;
      attempts := 0;
      uniqueReplyIds := ids;
      pageCount := S (pageCount l) |},
   sleep 1000 st,
   false).

Definition fetchPage (tweetId username : string) (l : Loop) (st : State)
  : Loop * State * bool :=
  if (replyMaxPages config <=? pageCount l)%nat then (l, st, true)
  else
    let url := repliesUrl tweetId (continuationToken l) in
    match makeApiRequest server url 0 st with
    | (Thrown _, st) => catchPage l (uniqueReplyIds l) st
    | (Returned response, st) =>
        match replies response with
        | Some (first :: others) =>
            let raw := first :: others in
            match filterReplies username (uniqueReplyIds l)
                    (map processTweet raw) with
            | (Thrown _, ids) => catchPage l ids st
            | (Returned filteredReplies, ids) =>
                match filteredReplies with
                | _ :: _ =>
                    pageDone l filteredReplies
                      (if truthy (continuation_token response)
                       then continuation_token response
                       else continuationToken l)
                      ids st
                | [] =>
                    pageDone l []
                      (if (10 <=? length raw)%nat
                          && truthy (continuation_token response)
                       then continuation_token response
                       else None)
                      ids st
                end
            end
        | _ => pageDone l [] None (uniqueReplyIds l) st
        end
    end.

(** The [do ... while] loop.  Every pass either counts a page or counts an
    attempt, so [fuel] passes are enough when [fuel] covers three attempts
    for each page that is left. *)
Fixpoint fetchPages (fuel : nat) (tweetId username : string) (l : Loop)
    (st : State) : Loop * State :=
  match fuel with
  | O => (l, st)
  | S fuel' =>
      let '(l, st, stop) := fetchPage tweetId username l st in
      if stop then (l, st)
      else if truthy (continuationToken l)
              && (attempts l <? REPLY_MAX_ATTEMPTS)%nat
              && (pageCount l <? replyMaxPages config)%nat
      then fetchPages fuel' tweetId username l st
      else (l, st)
  end.

(** The processing after the loop: with more than one reply, sort by
    creation time and number the replies. *)
Definition orderReplies (allReplies : list Tweet) : list Tweet :=
  if (1 <? length allReplies)%nat
  then imap set_position (sort compareCreatedAt allReplies)
  else allReplies.

Definition fetchAllReplies (tweetId username : string) (st : State)
  : list Tweet * State :=
  let start :=
    {| allReplies := []; continuationToken := None; attempts := 0;
       uniqueReplyIds := ∅; pageCount := 0 |} in
  let '(l, st) :=
    fetchPages (3 * S (replyMaxPages config)) tweetId username start st in
  (orderReplies (allReplies l), st).

End Fetch.

End Replies.

(** ** Timeline fetch orchestrator *)

Module Timeline.

Import Gateway Replies.

(** The gateway, the cache of whole timelines, and the number of error
    notices shown to the user. *)
Record World := {
  gateway : State;
  userTweets : gmap string (list Tweet);
  toasts : nat;
}.

Definition with_gateway (w : World) (st : State) : World :=
  {| gateway := st; userTweets := userTweets w; toasts := toasts w |}.

Record Options := {
  initialFetch : option nat;
  maxTweetsOption : option nat;
}.

(** [options?.field || fallback]: a missing number and zero are falsy. *)
Definition option_or (o : option nat) (fallback : nat) : nat :=
  match o with
  | Some (S n) => S n
  | _ => fallback
  end.

Section Fetch.

Variable config : TwitterConfig.
Variable server : nat -> string -> Response ApiResponse.
Variable encodeURIComponent : string -> string.

Definition processTweets (response : ApiResponse) : list Tweet :=
  match results response with
  | Some raw => map processTweet raw
  | None => []
  end.

(** The filter of the initial fetch. *)
Fixpoint filterInitial (username : string) (tweets : list Tweet)
  : Outcome (list Tweet) :=
  match tweets with
  | [] => Returned []
  | tweet :: tweets' =>
      match Author.username (author tweet) with
      | None => Thrown TypeError
      | Some name =>
          let keep :=
            String.eqb (lowerName name) (lowerName username)
            && negb (mentionsAnotherUser (tweetText tweet) username) in
          match filterInitial username tweets' with
          | Returned kept => Returned (if keep then tweet :: kept else kept)
          | Thrown e => Thrown e
          end
      end
  end.

(** The filter of a continuation page, which also records the ids it
    accepts. *)
Fixpoint filterContinuation (username : string) (uniqueTweetIds : gset string)
    (tweets : list Tweet) : Outcome (list Tweet) * gset string :=
  match tweets with
  | [] => (Returned [], uniqueTweetIds)
  | tweet :: tweets' =>
      match Author.username (author tweet) with
      | None => (Thrown TypeError, uniqueTweetIds)
      | Some name =>
          let isAuthor := String.eqb (lowerName name) (lowerName username) in
          let isUnique := negb (bool_decide (id tweet ∈ uniqueTweetIds)) in
          if negb isAuthor || negb isUnique then
            filterContinuation username uniqueTweetIds tweets'
          else if mentionsAnotherUser (tweetText tweet) username then
            filterContinuation username uniqueTweetIds tweets'
          else
            let '(rest, ids) :=
              filterContinuation username ({[id tweet]} ∪ uniqueTweetIds)
                tweets' in
            (match rest with
             | Returned kept => Returned (tweet :: kept)
             | Thrown e => Thrown e
             end, ids)
      end
  end.

(** [replies.filter(reply => ...)]: keep the replies not seen so far. *)
Fixpoint filterNew (uniqueTweetIds : gset string) (replies : list Tweet)
  : list Tweet * gset string :=
  match replies with
  | [] => ([], uniqueTweetIds)
  | reply :: replies' =>
      if bool_decide (id reply ∈ uniqueTweetIds) then
        filterNew uniqueTweetIds replies'
      else
        let '(kept, ids) := filterNew ({[id reply]} ∪ uniqueTweetIds) replies' in
        (reply :: kept, ids)
  end.

Definition byReplyCountDescending (a b : Tweet) : number :=
  Some (reply_count b - reply_count a).

(** The [for ... of] loop that fetches the replies of the chosen tweets.
    [fetchAllReplies] handles its own failures, so the handler around it
    is never entered. *)
Fixpoint fetchThreads (username : string) (threads : list Tweet)
    (allTweets : list Tweet) (uniqueTweetIds : gset string) (st : State)
  : list Tweet * gset string * State :=
  match threads with
  | [] => (allTweets, uniqueTweetIds, st)
  | tweet :: threads' =>
      let '(replies, st) :=
        fetchAllReplies config server encodeURIComponent (id tweet) username st in
      let '(newReplies, ids) := filterNew uniqueTweetIds replies in
      fetchThreads username threads' (allTweets ++ newReplies) ids
        (sleep 1000 st)
  end.

Definition continuationUrl (username token userId : string) : string :=
  ("https://twitter154.p.rapidapi.com/user/tweets/continuation?username="
     +:+ username +:+ "&continuation_token=" +:+ token
     +:+ "&user_id=" +:+ userId)%string.

(** The [while] loop over the continuation pages; [fuel] bounds the pages
    that are left, of which there are at most [maxContinuations]. *)
Fixpoint continuationLoop (fuel : nat) (username userId : string)
    (maxTweets : nat) (continuationToken : option string)
    (continuationCount : nat) (allTweets : list Tweet)
    (uniqueTweetIds : gset string) (st : State) : list Tweet * State :=
  if truthy continuationToken
     && (length allTweets <? maxTweets)%nat
     && (continuationCount <? maxContinuations config)%nat
  then
    match fuel with
    | O => (allTweets, st)
    | S fuel' =>
        let url :=
          continuationUrl username (the_string continuationToken) userId in
        match makeApiRequest server url 0 st with
        | (Thrown _, st) => (allTweets, st)
        | (Returned continuationData, st) =>
            match filterContinuation username uniqueTweetIds
                    (processTweets continuationData) with
            | (Thrown _, _) => (allTweets, st)
            | (Returned additionalTweets, ids) =>
                let allTweets := allTweets ++ additionalTweets in
                let newThreadsToProcess :=
                  firstn 5
                    (sort byReplyCountDescending
                       (List.filter (fun tweet => 2 <? reply_count tweet)
                          additionalTweets)) in
                let '(allTweets, ids, st) :=
                  fetchThreads username newThreadsToProcess allTweets ids st in
                continuationLoop fuel' username userId maxTweets
                  (continuation_token continuationData)
                  (S continuationCount) allTweets ids (sleep 1500 st)
            end
        end
    end
  else (allTweets, st).

Definition userDetailsUrl (username : string) : string :=
  ("https://twitter154.p.rapidapi.com/user/details?username=" +:+ username)%string.

Definition userTweetsUrl (username : string) (limit : nat) (userId : string)
  : string :=
  ("https://twitter154.p.rapidapi.com/user/tweets?username=" +:+ username
     +:+ "&limit=" +:+ pretty limit +:+ "&user_id=" +:+ userId
     +:+ "&include_replies=false&include_pinned=false&includeFulltext=true")%string.

(** The body of the [try] block. *)
Definition fetchUserTweets_try (username : string) (options : option Options)
    (w : World) : Outcome (list Tweet) * World :=
  let initialFetchLimit :=
    option_or (options ≫= initialFetch) (fetchLimit config) in
  let maxTweets := option_or (options ≫= maxTweetsOption) (maxTweets config) in
  let cacheKey := lowerName username in
  match userTweets w !! cacheKey with
  | Some cached => (Returned cached, w)
  | None =>
      match makeApiRequest server (userDetailsUrl username) 0 (gateway w) with
      | (Thrown e, st) => (Thrown e, with_gateway w st)
      | (Returned userData, st) =>
          if negb (truthy (response_user_id userData)) then
            (Thrown (UserNotFound username), with_gateway w st)
          else
            let userId := the_string (response_user_id userData) in
            match makeApiRequest server
                    (userTweetsUrl username initialFetchLimit userId) 0 st with
            | (Thrown e, st) => (Thrown e, with_gateway w st)
            | (Returned initialData, st) =>
                match filterInitial username (processTweets initialData) with
                | Thrown e => (Thrown e, with_gateway w st)
                | Returned allTweets =>
                    let uniqueTweetIds : gset string :=
                      list_to_set (map id allTweets) in
                    let threadsToProcess :=
                      firstn (threadsToProcess config)
                        (sort byReplyCountDescending
                           (List.filter (fun tweet => 0 <? reply_count tweet)
                              allTweets)) in
                    let '(allTweets, ids, st) :=
                      fetchThreads username threadsToProcess allTweets
                        uniqueTweetIds st in
                    let '(allTweets, st) :=
                      continuationLoop (maxContinuations config) username
                        userId maxTweets (continuation_token initialData) 0
                        allTweets ids st in
                    (Returned allTweets,
                     {| gateway := st;
                        userTweets := <[cacheKey := allTweets]> (userTweets w);
                        toasts := toasts w |})
                end
            end
      end
  end.

(** The whole function: the [try] block and its handler, which shows a
    notice and returns the empty list. *)
Definition fetchUserTweets (username : string) (options : option Options)
    (w : World) : Outcome (list Tweet) * World :=
  match fetchUserTweets_try username options w with
  | (Returned tweets, w) => (Returned tweets, w)
  | (Thrown _, w) =>
      (Returned [],
       {| gateway := gateway w; userTweets := userTweets w;
          toasts := S (toasts w) |})
  end.

End Fetch.

End Timeline.

(** ** Thread grouping engine *)

Module Thread.

Record Thread := {
  id : string;
  tweets : list Tweet;
  author : Author.User;
  created_at : option Z;
}.

End Thread.

Inductive Item :=
| TweetItem (tweet : Tweet)
| ThreadItem (thread : Thread.Thread).

Module Grouping.

(** [groupThreads] writes [thread_position] and [thread_index] into the
    tweet objects it was given, and the same object can sit in several
    arrays.  An object is its address, which is its index in the input
    array, together with the fields it had on entry; the two fields that
    are written live in a store keyed by address, and both always receive
    the same number. *)
Abbreviation Ref := (nat * Tweet)%type.

Record Maps := {
  threadMap : list (string * list Ref);
  processedIds : gset string;
  positions : gmap nat nat;
}.

Definition current_position (positions : gmap nat nat) (r : Ref) : option Z :=
  match positions !! r.1 with
  | Some idx => Some (Z.of_nat idx)
  | None => thread_position r.2
  end.

Definition current_index (positions : gmap nat nat) (r : Ref) : option Z :=
  match positions !! r.1 with
  | Some idx => Some (Z.of_nat idx)
  | None => thread_index r.2
  end.

(** The tweet an object holds at the end. *)
Definition read (positions : gmap nat nat) (r : Ref) : Tweet :=
  match positions !! r.1 with
  | Some idx => set_position idx r.2
  | None => r.2
  end.

(** [tweets.forEach(tweet => tweetMap.set(tweet.id, tweet))] *)
Definition buildTweetMap (objects : list Ref) : gmap string Ref :=
  foldl (fun tweetMap r => <[id r.2 := r]> tweetMap) ∅ objects.

(** [if (!m.has(k)) m.set(k, empty)] *)
Definition ensure {V} (k : string) (m : list (string * list V))
  : list (string * list V) :=
  if map_has k m then m else map_set k [] m.

(** [selfThreads.get(k)!.add(x)] *)
Definition addToSet (k x : string) (selfThreads : list (string * list string))
  : Outcome (list (string * list string)) :=
  ids ← unwrap (map_get k selfThreads);
  Returned (map_set k (set_add x ids) selfThreads).

(** [m.get(k)!.push(x)] *)
Definition pushTo (k : string) (x : Ref) (m : list (string * list Ref))
  : Outcome (list (string * list Ref)) :=
  array ← unwrap (map_get k m);
  Returned (map_set k (array ++ [x]) m).

(** The body of the loop that collects the explicit self-threads. *)
Definition collectSelfThread (tweetMap : gmap string Ref)
    (selfThreads : list (string * list string)) (tweet : Tweet)
  : Outcome (list (string * list string)) :=
  if is_self_thread tweet && truthy (conversation_id tweet) then
    let key := the_string (conversation_id tweet) in
    selfThreads ← addToSet key (id tweet) (ensure key selfThreads);
    if truthy (in_reply_to_tweet_id tweet)
       && bool_decide (is_Some (tweetMap !! the_string (in_reply_to_tweet_id tweet)))
    then addToSet key (the_string (in_reply_to_tweet_id tweet)) selfThreads
    else Returned selfThreads
  else if truthy (in_reply_to_tweet_id tweet)
          && truthy (in_reply_to_user_id tweet) then
    match tweetMap !! the_string (in_reply_to_tweet_id tweet) with
    | Some replyToTweet =>
        if opt_eqb (Author.id (author replyToTweet.2)) (Author.id (author tweet))
        then
          let threadId :=
            the_string
              (or_else (conversation_id tweet)
                 (or_else (thread_id tweet) (in_reply_to_tweet_id tweet))) in
          selfThreads ← addToSet threadId (id tweet) (ensure threadId selfThreads);
          addToSet threadId (the_string (in_reply_to_tweet_id tweet)) selfThreads
        else Returned selfThreads
    | None => Returned selfThreads
    end
  else Returned selfThreads.

(** The comparator of the self-thread pass. *)
Definition compareInThread (positions : gmap nat nat) (a b : Ref) : number :=
  match current_position positions a, current_position positions b with
  | Some pa, Some pb => Some (pa - pb)
  | _, _ =>
      match current_index positions a, current_index positions b with
      | Some ia, Some ib => Some (ia - ib)
      | _, _ => compareCreatedAt a.2 b.2
      end
  end.

Definition compareRefs (a b : Ref) : number := compareCreatedAt a.2 b.2.

(** [thread.forEach((t, i) => { t.thread_position = i; t.thread_index = i })] *)
Definition assignPositions (thread : list Ref) (positions : gmap nat nat)
  : gmap nat nat :=
  foldl (fun positions ir => <[ir.2.1 := ir.1]> positions) positions
    (imap pair thread).

Definition markProcessed (thread : list Ref) (processedIds : gset string)
  : gset string :=
  foldl (fun processedIds r => {[id r.2]} ∪ processedIds) processedIds thread.

(** The body of the loop over [selfThreads]. *)
Definition buildSelfThread (tweetMap : gmap string Ref) (m : Maps)
    (entry : string * list string) : Maps :=
  let '(threadId, tweetIds) := entry in
  if (1 <? length tweetIds)%nat then
    let threadTweets :=
      sort (compareInThread (positions m))
        (omap (fun tweetId => tweetMap !! tweetId) tweetIds) in
    if (1 <? length threadTweets)%nat then
      {| threadMap := map_set threadId threadTweets (threadMap m);
         processedIds := markProcessed threadTweets (processedIds m);
         positions := assignPositions threadTweets (positions m) |}
    else m
  else m.

(** The predicate of [tweets.filter] that gathers the members of a
    residual group. *)
Definition isThreadMember (tweetMap : gmap string Ref)
    (processedIds : gset string) (threadId : string) (tweet : Tweet) (t : Ref)
  : bool :=
  negb (bool_decide (id t.2 ∈ processedIds))
  && ((truthy (conversation_id t.2)
       && String.eqb (the_string (conversation_id t.2)) threadId)
      || (truthy (thread_id t.2)
          && String.eqb (the_string (thread_id t.2)) threadId)
      || (truthy (in_reply_to_tweet_id t.2)
          && bool_decide (is_Some (tweetMap !! the_string (in_reply_to_tweet_id t.2)))
          && opt_eqb (Author.id (author t.2)) (Author.id (author tweet)))).

(** [threadMembers.forEach(t => ...)]: the replies of each tweet. *)
Definition buildReplyMap (threadMembers : list Ref)
  : Outcome (list (string * list Ref)) :=
  foldM (fun replyMap t =>
           if truthy (in_reply_to_tweet_id t.2) then
             let key := the_string (in_reply_to_tweet_id t.2) in
             pushTo key t (ensure key replyMap)
           else Returned replyMap)
    threadMembers [].

Definition isRoot (threadMembers : list Ref) (t : Ref) : bool :=
  negb (truthy (in_reply_to_tweet_id t.2))
  || negb (existsb
             (fun other =>
                String.eqb (id other.2) (the_string (in_reply_to_tweet_id t.2)))
             threadMembers).

(** [findReplies(tweetId, depth)], with [levels = 11 - depth]: the call
    returns at once when [depth > 10].  Sorting the array of replies in
    place is not seen by anyone: an id is marked before its replies are
    looked up, so no array is looked up twice. *)
Fixpoint findReplies (levels : nat) (replyMap : list (string * list Ref))
    (tweetId : string) (processedIds : gset string)
  : Outcome (list Ref * gset string) :=
  match levels with
  | O => Returned ([], processedIds)
  | S levels' =>
      if negb (map_has tweetId replyMap) then Returned ([], processedIds)
      else
        replies ← unwrap (map_get tweetId replyMap);
        foldM (fun acc reply =>
                 if bool_decide (id reply.2 ∈ acc.2) then Returned acc
                 else
                   found ← findReplies levels' replyMap (id reply.2)
                             ({[id reply.2]} ∪ acc.2);
                   Returned (acc.1 ++ [reply] ++ found.1, found.2))
          (sort compareRefs replies) ([], processedIds)
  end.

(** [threadMap.get('standalone')!.push(tweet)], after making sure the
    entry is there. *)
Definition pushStandalone (tweet : Ref) (threadMap : list (string * list Ref))
  : Outcome (list (string * list Ref)) :=
  pushTo "standalone" tweet (ensure "standalone" threadMap).

(** The end of the body of the residual pass: a thread of several tweets
    is numbered and stored under its key, a single tweet goes to the
    standalone tweets. *)
Definition storeThread (threadId : string) (thread : list Ref)
    (processedIds : gset string) (m : Maps) : Outcome Maps :=
  if (1 <? length thread)%nat then
    Returned {| threadMap := map_set threadId thread (threadMap m);
                processedIds := processedIds;
                positions := assignPositions thread (positions m) |}
  else
    match thread with
    | [single] =>
        threadMap ← pushStandalone single (threadMap m);
        Returned {| threadMap := threadMap;
                    processedIds := processedIds;
                    positions := positions m |}
    | _ =>
        Returned {| threadMap := threadMap m;
                    processedIds := processedIds;
                    positions := positions m |}
    end.

(** The body of the residual pass. *)
Definition groupRemaining (tweetMap : gmap string Ref) (objects : list Ref)
    (m : Maps) (tweet : Ref) : Outcome Maps :=
  if bool_decide (id tweet.2 ∈ processedIds m) then Returned m
  else
    let threadId :=
      the_string
        (or_else (conversation_id tweet.2)
           (or_else (thread_id tweet.2) (Some (id tweet.2)))) in
    let threadMembers :=
      List.filter (isThreadMember tweetMap (processedIds m) threadId tweet.2)
        objects in
    if (length threadMembers <=? 1)%nat then
      threadMap ← pushStandalone tweet (threadMap m);
      Returned {| threadMap := threadMap;
                  processedIds := {[id tweet.2]} ∪ processedIds m;
                  positions := positions m |}
    else
      replyMap ← buildReplyMap threadMembers;
      let found := List.find (isRoot threadMembers) threadMembers in
      let threadMembers :=
        match found with
        | Some _ => threadMembers
        | None => sort compareRefs threadMembers
        end in
      let rootTweet :=
        match found with
        | Some _ => found
        | None => head threadMembers
        end in
      match rootTweet with
      | Some rootTweet =>
          replies ← findReplies 11 replyMap (id rootTweet.2)
                      ({[id rootTweet.2]} ∪ processedIds m);
          storeThread threadId (rootTweet :: replies.1) replies.2 m
      | None =>
          let sorted := sort compareRefs threadMembers in
          storeThread threadId sorted (markProcessed sorted (processedIds m)) m
      end.

(** The body of the last pass over the tweets. *)
Definition sweepUnprocessed (m : Maps) (tweet : Ref) : Outcome Maps :=
  if bool_decide (id tweet.2 ∈ processedIds m) then Returned m
  else
    threadMap ← pushStandalone tweet (threadMap m);
    Returned {| threadMap := threadMap;
                processedIds := {[id tweet.2]} ∪ processedIds m;
                positions := positions m |}.

(** The body of the loop that builds the result from [threadMap]. *)
Definition emit (positions : gmap nat nat) (result : list Item)
    (entry : string * list Ref) : Outcome (list Item) :=
  let '(key, refs) := entry in
  let tweets := map (read positions) refs in
  if String.eqb key "standalone" then Returned (result ++ map TweetItem tweets)
  else if (1 <? length tweets)%nat then
    first ← unwrap (head tweets);
    Returned (result ++ [ThreadItem {| Thread.id := key;
                                       Thread.tweets := tweets;
                                       Thread.author := author first;
                                       Thread.created_at := created_at first |}])
  else Returned result.

(** The instant the final sort reads from an item.  A thread of the result
    has more than one tweet, so its first tweet is there. *)
Definition itemDate (item : Item) : option Z :=
  match item with
  | TweetItem tweet => created_at tweet
  | ThreadItem thread =>
      match Thread.tweets thread with
      | first :: _ => created_at first
      | [] => None
      end
  end.

Definition newestFirst (a b : Item) : number :=
  match itemDate a, itemDate b with
  | Some dateA, Some dateB => Some (dateB - dateA)
  | _, _ => None
  end.

(** The three passes, up to the point where the result is built. *)
Definition groupMaps (tweets : list Tweet) : Outcome Maps :=
  let objects := imap pair tweets in
  let tweetMap := buildTweetMap objects in
  selfThreads ← foldM (collectSelfThread tweetMap) tweets [];
  let m :=
    foldl (buildSelfThread tweetMap)
      {| threadMap := []; processedIds := ∅; positions := ∅ |} selfThreads in
  m ← foldM (groupRemaining tweetMap objects) objects m;
  foldM sweepUnprocessed objects m.

Definition groupThreads (tweets : list Tweet) : Outcome (list Item) :=
  m ← groupMaps tweets;
  result ← foldM (emit (positions m)) (threadMap m) [];
  Returned (sort newestFirst result).

(** Every thread of a result under construction has two tweets or more. *)
Definition threads_have_two (result : list Item) : Prop :=
  forall thread,
    ThreadItem thread ∈ result -> (2 <= length (Thread.tweets thread))%nat.

End Grouping.

(** ** Single-tweet fetchers *)

Module Details.

Import Gateway.

(** The gateway and the cache of single tweets. *)
Record World := {
  gateway : State;
  tweetDetails : gmap string Tweet;
}.

Definition with_gateway (w : World) (st : State) : World :=
  {| gateway := st; tweetDetails := tweetDetails w |}.

Section Fetch.

(** The parsed body of a response is a tweet object or a falsy value such
    as [null], which is [None]. *)
Variable server : nat -> string -> Response (option Raw.Tweet).

Definition detailsUrl (tweetId : string) : string :=
  ("https://twitter154.p.rapidapi.com/tweet/details?tweet_id=" +:+ tweetId)%string.

Definition continuationUrl (tweetId : string) : string :=
  ("https://twitter154.p.rapidapi.com/tweet/continuation?tweet_id="
     +:+ tweetId)%string.

(** A cached tweet is an object, hence truthy: [get(tweetId) || null] is
    the tweet.  Whatever the request throws, the handler returns [null]. *)
Definition fetchTweetDetails (tweetId : string) (w : World)
  : option Tweet * World :=
  if String.eqb tweetId "" then (None, w)
  else
    match tweetDetails w !! tweetId with
    | Some cached => (Some cached, w)
    | None =>
        let url := detailsUrl tweetId in
        let '(failed, st) := hasRecentlyFailed url (gateway w) in
        if failed then (None, with_gateway w st)
        else
          match makeApiRequest server url 0 st with
          | (Returned (Some data), st) =>
              let processedTweet := processTweet data in
              (Some processedTweet,
               {| gateway := st;
                  tweetDetails :=
                    <[tweetId := processedTweet]> (tweetDetails w) |})
          | (_, st) => (None, with_gateway w st)
          end
    end.

Definition fetchTweetContinuation (tweetId : string) (st : State)
  : option Tweet * State :=
  if String.eqb tweetId "" then (None, st)
  else
    let url := continuationUrl tweetId in
    let '(failed, st) := hasRecentlyFailed url st in
    if failed then (None, st)
    else
      match makeApiRequest server url 0 st with
      | (Returned (Some data), st) => (Some (processTweet data), st)
      | (_, st) => (None, st)
      end.

End Fetch.

End Details.

(** ** Saving the selected tweets *)

Module Saving.

(** A tweet of the payload: the tweet and the instant it was stamped
    with. *)
Record SavedTweet := {
  tweet : Tweet;
  savedAt : Z;
}.

(** The body of the POST; its options are constants. *)
Record Request := {
  tweets : list SavedTweet;
  username : string;
}.

(** What [response.json()] makes of the answer: it rejects, or reads
    [null], or reads a value whose [skippedCount] is truthy or not. *)
Inductive Body :=
| NotJson
| JsonNull
| JsonValue (skippedCount : bool).

Record Reply := {
  ok : bool;
  body : Body;
}.

Inductive Toast :=
| NoTweetsToSave
| TweetsSaved (duplicatesSkipped : bool)
| SaveError.

(** What a call leaves behind: its result, the requests it posted and the
    notices it showed. *)
Record Result := {
  saved : bool;
  posted : list Request;
  toasts : list Toast;
}.

Definition byDateDescending (a b : Tweet) : number := compareCreatedAt b a.

(** [tweet.thread_id || tweet.conversation_id] as a condition, and as the
    key it yields. *)
Definition threaded (tweet : Tweet) : bool :=
  truthy (thread_id tweet) || truthy (conversation_id tweet).

Definition threadIdOf (tweet : Tweet) : string :=
  the_string (or_else (thread_id tweet) (conversation_id tweet)).

(** The body of the loop that groups the sorted tweets. *)
Definition groupByThread (threadMap : list (string * list Tweet))
    (tweet : Tweet) : Outcome (list (string * list Tweet)) :=
  if threaded tweet then
    let threadId := threadIdOf tweet in
    let threadMap := Grouping.ensure threadId threadMap in
    array ← unwrap (map_get threadId threadMap);
    Returned (map_set threadId (array ++ [tweet]) threadMap)
  else Returned threadMap.

(** The comparator inside a thread: the positions when both tweets have
    one, the dates otherwise. *)
Definition byThreadPosition (a b : Tweet) : number :=
  match thread_position a, thread_position b with
  | Some pa, Some pb => Some (pa - pb)
  | _, _ => compareCreatedAt a b
  end.

Definition sortThread (entry : string * list Tweet) : string * list Tweet :=
  (entry.1,
   if (1 <? length entry.2)%nat then sort byThreadPosition entry.2
   else entry.2).

(** The list that is sent: the standalone tweets, then the threads in the
    order in which the map met them. *)
Definition orderTweets (tweets : list Tweet) : Outcome (list Tweet) :=
  let sortedTweets := sort byDateDescending tweets in
  threadMap ← foldM groupByThread sortedTweets [];
  let threadMap := map sortThread threadMap in
  Returned
    (List.filter
       (fun tweet =>
          negb (truthy (thread_id tweet))
          && negb (truthy (conversation_id tweet)))
       sortedTweets
     ++ concat (map snd threadMap)).

Section Save.

(** [now i] is the instant the stamp of the tweet at index [i] reads;
    [backend] is what the backend answers, [None] when the request itself
    fails. *)
Variable now : nat -> Z.
Variable backend : Request -> option Reply.

(** The handler: a notice, and [false]. *)
Definition failed (posted : list Request) : Result :=
  {| saved := false; posted := posted; toasts := [SaveError] |}.

Definition saveSelectedTweets (tweets : list Tweet)
    (username : option string) : Result :=
  let username := default "anonymous" username in
  if (length tweets =? 0)%nat then
    {| saved := false; posted := []; toasts := [NoTweetsToSave] |}
  else
    match orderTweets tweets with
    | Thrown _ => failed []
    | Returned orderedTweets =>
        let processedTweets :=
          imap (fun i tweet => {| tweet := tweet; savedAt := now i |})
            orderedTweets in
        let request :=
          {| tweets := processedTweets; username := username |} in
        match backend request with
        | None => failed [request]
        | Some response =>
            if negb (ok response) then failed [request]
            else
              match body response with
              | JsonValue skippedCount =>
                  {| saved := true; posted := [request];
                     toasts := [TweetsSaved skippedCount] |}
              | _ => failed [request]
              end
        end
    end.

End Save.

End Saving.

(** ** Items *)

(** The ids of the tweets of a list of items. *)
Definition itemIds (items : list Item) : list string :=
  flat_map
    (fun item =>
       match item with
       | ThreadItem thread => map id (Thread.tweets thread)
       | TweetItem tweet => [id tweet]
       end)
    items.

(** The tweets of a list of items, in the order of the display. *)
Definition itemTweets (items : list Item) : list Tweet :=
  flat_map
    (fun item =>
       match item with
       | ThreadItem thread => Thread.tweets thread
       | TweetItem tweet => [tweet]
       end)
    items.

(** ** Pagination control *)

Module Pager.

(** An entry of the row of page links. *)
Inductive PageEntry :=
| Page (number : Z)
| Ellipsis.

(** [Math.ceil(totalItems / itemsPerPage)], for whole numbers and at least
    one item per page. *)
Definition totalPages (totalItems itemsPerPage : Z) : Z :=
  (totalItems + itemsPerPage - 1) / itemsPerPage.

(** [for (let i = first; i <= last; i++) pages.push(i)] *)
Definition pagesFromTo (first last : Z) : list PageEntry :=
  map Page (seqZ first (last - first + 1)).

Definition getPageNumbers (currentPage totalPages : Z) : list PageEntry :=
  if totalPages <=? 7 then pagesFromTo 1 totalPages
  else
    let startPage := Z.max 2 (currentPage - 1) in
    let endPage := Z.min (totalPages - 1) (currentPage + 1) in
    [Page 1]
    ++ (if 3 <? currentPage then [Ellipsis] else [])
    ++ pagesFromTo startPage endPage
    ++ (if currentPage <? totalPages - 2 then [Ellipsis] else [])
    ++ [Page totalPages].

(** What the control renders: nothing when there is one page at most,
    else the link to the previous page, the row, the link to the next
    page. *)
Record Rendered := {
  previous : option Z;
  pageNumbers : list PageEntry;
  next : option Z;
}.

Definition TweetPagination (currentPage totalItems itemsPerPage : Z)
  : option Rendered :=
  let totalPages := totalPages totalItems itemsPerPage in
  if totalPages <=? 1 then None
  else
    Some {| previous := if 1 <? currentPage then Some (currentPage - 1)
                        else None;
            pageNumbers := getPageNumbers currentPage totalPages;
            next := if currentPage <? totalPages then Some (currentPage + 1)
                    else None |}.

End Pager.

(** ** The page: categories, pages, selection *)

Module Index.

Inductive TweetCategory :=
| CategoryAll
| CategoryNormal
| CategoryThread
| CategoryLong.

Definition category_eqb (a b : TweetCategory) : bool :=
  match a, b with
  | CategoryAll, CategoryAll
  | CategoryNormal, CategoryNormal
  | CategoryThread, CategoryThread
  | CategoryLong, CategoryLong => true
  | _, _ => false
  end.

(** ['tweets' in item], and [item.is_long], which a thread does not
    have. *)
Definition isThread (item : Item) : bool :=
  match item with
  | ThreadItem _ => true
  | TweetItem _ => false
  end.

Definition isLong (item : Item) : bool :=
  match item with
  | ThreadItem _ => false
  | TweetItem tweet => is_long tweet
  end.

Definition filteredItems (allItems : list Item)
    (selectedCategory : TweetCategory) : list Item :=
  if category_eqb selectedCategory CategoryAll then allItems
  else
    List.filter
      (fun item =>
         if category_eqb selectedCategory CategoryThread && isThread item
         then true
         else if category_eqb selectedCategory CategoryNormal
                 && negb (isThread item) && negb (isLong item)
         then true
         else if category_eqb selectedCategory CategoryLong
                 && negb (isThread item) && isLong item
         then true
         else false)
      allItems.

Record Counts := {
  countAll : nat;
  countNormal : nat;
  countThread : nat;
  countLong : nat;
}.

Definition categoryTweetCounts (allItems : list Item) : Counts :=
  foldl
    (fun counts item =>
       if isThread item then
         {| countAll := countAll counts; countNormal := countNormal counts;
            countThread := S (countThread counts);
            countLong := countLong counts |}
       else if isLong item then
         {| countAll := countAll counts; countNormal := countNormal counts;
            countThread := countThread counts;
            countLong := S (countLong counts) |}
       else
         {| countAll := countAll counts;
            countNormal := S (countNormal counts);
            countThread := countThread counts;
            countLong := countLong counts |})
    {| countAll := length allItems; countNormal := 0; countThread := 0;
       countLong := 0 |}
    allItems.

(** [counts[category]], as the row of categories shows it. *)
Definition countOf (counts : Counts) (category : TweetCategory) : nat :=
  match category with
  | CategoryAll => countAll counts
  | CategoryNormal => countNormal counts
  | CategoryThread => countThread counts
  | CategoryLong => countLong counts
  end.

(** [Array.prototype.slice(start, end)]: a negative index counts from the
    end of the array. *)
Definition slice {A} (l : list A) (start finish : Z) : list A :=
  let len := Z.of_nat (length l) in
  let from := if start <? 0 then Z.max (len + start) 0 else Z.min start len in
  let to := if finish <? 0 then Z.max (len + finish) 0 else Z.min finish len in
  firstn (Z.to_nat (to - from)) (skipn (Z.to_nat from) l).

Record PaginationState := {
  currentPage : Z;
  totalItems : Z;
  itemsPerPage : Z;
}.

(** The part of the state the display effect reads and writes. *)
Record Display := {
  pagination : PaginationState;
  displayedItems : list Item;
}.

(** One run of the effect that updates the displayed items. *)
Definition displayEffect (filteredItems : list Item) (d : Display) : Display :=
  let p := pagination d in
  if (length filteredItems =? 0)%nat then
    {| pagination := p; displayedItems := [] |}
  else
    let startIndex := (currentPage p - 1) * itemsPerPage p in
    let endIndex := startIndex + itemsPerPage p in
    let itemsToDisplay := slice filteredItems startIndex endIndex in
    if (length itemsToDisplay =? 0)%nat && (0 <? length filteredItems)%nat
       && (1 <? currentPage p)
    then
      {| pagination := {| currentPage := 1; totalItems := totalItems p;
                          itemsPerPage := itemsPerPage p |};
         displayedItems := displayedItems d |}
    else
      {| pagination := {| currentPage := currentPage p;
                          totalItems := Z.of_nat (length filteredItems);
                          itemsPerPage := itemsPerPage p |};
         displayedItems := itemsToDisplay |}.

(** [Showing first-last of n items]. *)
Definition showingFirst (p : PaginationState) : Z :=
  (currentPage p - 1) * itemsPerPage p + 1.

Definition showingLast (p : PaginationState) (filteredItems : list Item) : Z :=
  Z.min (currentPage p * itemsPerPage p) (Z.of_nat (length filteredItems)).

(** The selection is a set of ids; the page asks it for membership and
    size only. *)
Definition handleTweetSelect (tweet : Tweet) (prev : gset string)
  : gset string :=
  if bool_decide (id tweet ∈ prev) then prev ∖ {[id tweet]}
  else {[id tweet]} ∪ prev.

Definition handleThreadSelect (thread : Thread.Thread) (select : bool)
    (prev : gset string) : gset string :=
  foldl
    (fun newSet tweet =>
       if select then {[id tweet]} ∪ newSet else newSet ∖ {[id tweet]})
    prev (Thread.tweets thread).

Definition itemSelected (selected : gset string) (item : Item) : bool :=
  match item with
  | ThreadItem thread =>
      forallb (fun tweet => bool_decide (id tweet ∈ selected))
        (Thread.tweets thread)
  | TweetItem tweet => bool_decide (id tweet ∈ selected)
  end.

Definition deselectItem (newSet : gset string) (item : Item) : gset string :=
  match item with
  | ThreadItem thread =>
      foldl (fun newSet tweet => newSet ∖ {[id tweet]}) newSet
        (Thread.tweets thread)
  | TweetItem tweet => newSet ∖ {[id tweet]}
  end.

Definition selectItem (newSet : gset string) (item : Item) : gset string :=
  match item with
  | ThreadItem thread =>
      foldl (fun newSet tweet => {[id tweet]} ∪ newSet) newSet
        (Thread.tweets thread)
  | TweetItem tweet => {[id tweet]} ∪ newSet
  end.

Definition handleSelectAll (displayedItems : list Item) (prev : gset string)
  : gset string :=
  let allSelected := forallb (itemSelected prev) displayedItems in
  if allSelected then foldl deselectItem prev displayedItems
  else foldl selectItem prev displayedItems.

(** The flag that labels the button: [Deselect All] when it is set,
    [Select All] otherwise. *)
Definition allSelected (displayedItems : list Item) (selected : gset string)
  : bool :=
  (0 <? length displayedItems)%nat
  && forallb (itemSelected selected) displayedItems.

(** The tweets [handleConfirmSave] hands to the saver. *)
Definition tweetsToSave (allItems : list Item) (selected : gset string)
  : list Tweet :=
  flat_map
    (fun item =>
       match item with
       | ThreadItem thread =>
           List.filter (fun tweet => bool_decide (id tweet ∈ selected))
             (Thread.tweets thread)
       | TweetItem tweet =>
           if bool_decide (id tweet ∈ selected) then [tweet] else []
       end)
    allItems.

Inductive Notice :=
| FromSaver (toast : Saving.Toast)
| Success (count : nat)
| Failure.

(** What confirming the dialog leaves behind. *)
Record Confirmed := {
  selectedTweets : gset string;
  posted : list Saving.Request;
  notices : list Notice;
  navigatedTo : option string;
}.

(** The saver handles its own failures and returns, so the handler of
    [handleConfirmSave] is never entered. *)
Definition handleConfirmSave (now : nat -> Z)
    (backend : Saving.Request -> option Saving.Reply) (allItems : list Item)
    (selected : gset string) (saveUsername : string) : Confirmed :=
  let tweetsToSave := tweetsToSave allItems selected in
  let result :=
    Saving.saveSelectedTweets now backend tweetsToSave (Some saveUsername) in
  {| selectedTweets := ∅;
     posted := Saving.posted result;
     notices := map FromSaver (Saving.toasts result)
                ++ [Success (length tweetsToSave)];
     navigatedTo := Some ("/saved/user/" +:+ saveUsername)%string |}.

(** The notices of the handlers that fetch. *)
Inductive PageNotice :=
| NoTweetsFound
| TweetsLoaded (count : nat)
| SearchError.

(** The part of the state the handlers that fetch read and write, with
    the world of the fetcher. *)
Record Page := {
  allItems : list Item;
  currentUser : option string;
  fetchedTweetCount : nat;
  pageNotices : list PageNotice;
  world : Timeline.World;
}.

(** [groupThreads] writes the positions into the tweet objects it is
    given; this is what the objects of the array hold afterwards. *)
Definition afterGrouping (tweets : list Tweet) : list Tweet :=
  match Grouping.groupMaps tweets with
  | Returned m =>
      imap (fun i tweet => Grouping.read (Grouping.positions m) (i, tweet))
        tweets
  | Thrown _ => tweets
  end.

(** How far [handleFetchMore] gets before it regroups: no user, nothing
    new, or the list it hands to [groupThreads]. *)
Inductive FetchMore :=
| NoUserSelected
| NoNewTweets (w : Timeline.World)
| Regroup (combinedTweets : list Tweet) (w : Timeline.World)
| FetchMoreError (w : Timeline.World).

Section Fetching.

Variable config : TwitterConfig.
Variable server : nat -> string -> Gateway.Response ApiResponse.
Variable encodeURIComponent : string -> string.

(** A fetch that returns tweets returns the array the cache holds under
    the name of the user, a fetch that fails returns a fresh empty array:
    the tweets the grouping writes into are those of the cache.  The
    fetcher handles its own failures, so the handler here is entered only
    if the grouping throws. *)
Definition handleSearch (username : string) (page : Page) : Page :=
  let '(result, w) :=
    Timeline.fetchUserTweets config server encodeURIComponent username None
      (world page) in
  match result with
  | Thrown _ =>
      {| allItems := []; currentUser := Some username; fetchedTweetCount := 0;
         pageNotices := pageNotices page ++ [SearchError]; world := w |}
  | Returned tweets =>
      if (length tweets =? 0)%nat then
        {| allItems := []; currentUser := Some username;
           fetchedTweetCount := 0;
           pageNotices := pageNotices page ++ [NoTweetsFound]; world := w |}
      else
        let w :=
          {| Timeline.gateway := Timeline.gateway w;
             Timeline.userTweets :=
               <[lowerName username := afterGrouping tweets]>
                 (Timeline.userTweets w);
             Timeline.toasts := Timeline.toasts w |} in
        match Grouping.groupThreads tweets with
        | Returned groupedItems =>
            {| allItems := groupedItems; currentUser := Some username;
               fetchedTweetCount := length tweets;
               pageNotices := pageNotices page ++ [TweetsLoaded (length tweets)];
               world := w |}
        | Thrown _ =>
            {| allItems := []; currentUser := Some username;
               fetchedTweetCount := length tweets;
               pageNotices := pageNotices page ++ [SearchError]; world := w |}
        end
  end.

Definition handleFetchMore (count : nat) (page : Page) : FetchMore :=
  if negb (truthy (currentUser page)) then NoUserSelected
  else
    let existingTweets := itemTweets (allItems page) in
    let '(result, w) :=
      Timeline.fetchUserTweets config server encodeURIComponent
        (the_string (currentUser page))
        (Some {| Timeline.initialFetch := Some count;
                 Timeline.maxTweetsOption :=
                   Some (fetchedTweetCount page + count)%nat |})
        (world page) in
    match result with
    | Thrown _ => FetchMoreError w
    | Returned additionalTweets =>
        let existingIds : gset string := list_to_set (map id existingTweets) in
        let newTweets :=
          List.filter (fun tweet => negb (bool_decide (id tweet ∈ existingIds)))
            additionalTweets in
        if (length newTweets =? 0)%nat then NoNewTweets w
        else Regroup (existingTweets ++ newTweets) w
    end.

End Fetching.

End Index.

(** ** Tweet card and thread view *)

Module Card.

Import Text.

(** The character class of the components' copy of the heuristic: the
    class of the fetcher without the Thai block. *)
Definition isNonLatinUnit (c : Z) : bool :=
  (2304 <=? c) && (c <=? 2431) || (1536 <=? c) && (c <=? 1791)
  || (1424 <=? c) && (c <=? 1535)
  || (12352 <=? c) && (c <=? 12543) || (13312 <=? c) && (c <=? 19903)
  || (19968 <=? c) && (c <=? 40959).

Definition hasNonLatinScript (text : jsstring) : bool :=
  existsb isNonLatinUnit text.

(** [detectTruncatedText] of [TweetCard] and of [TweetThread], which are
    the same function. *)
Definition detectTruncatedText (text : jsstring) : bool :=
  if (length text =? 0)%nat then false
  else if endsWith text [ellipsis] || endsWith text (utf16 "...") then true
  else if includes text (ellipsis :: utf16 " https://")
          || includes text (utf16 "... https://") then true
  else
    let thresholdLength : nat :=
      if hasNonLatinScript text then 180%nat else 240%nat in
    if (thresholdLength <=? length text)%nat then true else false.

(** [detectTruncatedText(tweet.full_text || tweet.text || '')
     || tweet.is_long === true] *)
Definition isTruncated (tweet : Tweet) : bool :=
  detectTruncatedText (tweetText tweet) || is_long tweet.

End Card.

(** ** Media of a tweet *)

Module Media.

Inductive MediaType :=
| Photo
| Video
| AnimatedGif.

(** An entry of [extended_entities.media] or of [entities.media], with the
    two fields that are read: [media_url_https] and
    [video_info?.variants?.[0]?.url]. *)
Record RawMedia := {
  media_url_https : option jsstring;
  first_variant_url : option jsstring;
}.

(** The fields of the raw record the media are read from; a missing field
    or a missing link of a chain is [None]. *)
Record RawFields := {
  tweet_id : string;
  media_urls : option (list (option jsstring));
  extended_media : option (list RawMedia);
  entities_media : option (list RawMedia);
}.

Record Media := {
  media_key : string;
  type : MediaType;
  url : jsstring;
  preview_image_url : jsstring;
}.

(** [m.media_url_https || m.video_info?.variants?.[0]?.url] *)
Definition mediaUrl (m : RawMedia) : option jsstring :=
  text_or (media_url_https m) (first_variant_url m).

(** The three sources one after the other, before [filter(Boolean)]. *)
Definition gatheredUrls (tweet : RawFields) : list (option jsstring) :=
  default [] (media_urls tweet)
  ++ default [] (map mediaUrl <$> extended_media tweet)
  ++ default [] (map mediaUrl <$> entities_media tweet).

(** [filter(Boolean)]: a missing url and the empty string go. *)
Definition mediaUrls (tweet : RawFields) : list jsstring :=
  omap (fun o => if nonEmpty o then o else None) (gatheredUrls tweet).

Definition mediaType (url : jsstring) : MediaType :=
  if includes url (utf16 ".mp4") || includes url (utf16 "/video/") then Video
  else if includes url (utf16 ".gif") then AnimatedGif
  else Photo.

(** [tweet.extended_entities?.media?.[0]?.media_url_https || url] *)
Definition previewImageUrl (tweet : RawFields) (url : jsstring) : jsstring :=
  let first :=
    match extended_media tweet with
    | Some (first :: _) => media_url_https first
    | _ => None
    end in
  match text_or first (Some url) with
  | Some preview => preview
  | None => []
  end.

Definition processedMedia (tweet : RawFields) : list Media :=
  imap
    (fun i url =>
       {| media_key := ("media-" +:+ tweet_id tweet +:+ "-" +:+ pretty i)%string;
          type := mediaType url;
          url := url;
          preview_image_url := previewImageUrl tweet url |})
    (mediaUrls tweet).

End Media.

(** ** Sample inputs *)

Module Samples.

(** A raw record that carries nothing but a text. *)
Definition rawText (text : jsstring) : Raw.Tweet :=
  {| Raw.tweet_id := "1"; Raw.text := Some text; Raw.extended_text := None;
     Raw.extended_tweet_full_text := None; Raw.full_text := None;
     Raw.creation_date := Some 1000; Raw.user := None;
     Raw.reply_count := None; Raw.conversation_id := None;
     Raw.thread_id := None; Raw.in_reply_to_status_id := None;
     Raw.in_reply_to_tweet_id := None; Raw.in_reply_to_user_id := None |}.

(** 249 letters and a full stop. *)
Definition longSentence : jsstring := repeat 97 249 ++ [46].

(** 250 letters; 190 and 189 times the Devanagari letter KA. *)
Definition latin250 : jsstring := repeat 97 250.
Definition devanagari190 : jsstring := repeat 2325 190.
Definition devanagari189 : jsstring := repeat 2325 189.

(** A gateway just started, at some instant after the epoch. *)
Definition freshGateway : Gateway.State :=
  {| Gateway.failedRequests := ∅; Gateway.lastApiCallTime := 0;
     Gateway.clock := 1000000; Gateway.sent := [] |}.

(** The gateway two minutes after a request to [u] was given up on a 429,
    and eleven minutes after. *)
Definition twoMinutesAfter429 : Gateway.State :=
  Gateway.sleep 120000
    (Gateway.recordFailedRequest "u" 429 (Some 60000) freshGateway).

Definition elevenMinutesAfter429 : Gateway.State :=
  Gateway.sleep 660000
    (Gateway.recordFailedRequest "u" 429 (Some 60000) freshGateway).

(** The gateway thirty seconds after such a failure. *)
Definition halfAMinuteAfter429 : Gateway.State :=
  Gateway.sleep 30000
    (Gateway.recordFailedRequest "u" 429 (Some 60000) freshGateway).

(** A server that is always rate limiting, one that always fails, and one
    that answers every request with an empty body. *)
Definition busyServer (n : nat) (url : string) : Gateway.Response unit :=
  {| Gateway.status := 429; Gateway.latency := 100; Gateway.parsed := None |}.

Definition brokenServer (n : nat) (url : string) : Gateway.Response unit :=
  {| Gateway.status := 500; Gateway.latency := 100; Gateway.parsed := None |}.


(** A reply by [alice] to the tweet 1, and a server that answers every
    request for replies with that one reply and no continuation token. *)
Definition aliceReply : Raw.Tweet :=
  {| Raw.tweet_id := "2"; Raw.text := Some (utf16 "second part");
     Raw.extended_text := None; Raw.extended_tweet_full_text := None;
     Raw.full_text := None; Raw.creation_date := Some 2000;
     Raw.user := Some {| Raw.user_id := Some "7";
                         Raw.username := Some "alice" |};
     Raw.reply_count := None; Raw.conversation_id := Some "1";
     Raw.thread_id := None; Raw.in_reply_to_status_id := Some "1";
     Raw.in_reply_to_tweet_id := None; Raw.in_reply_to_user_id := Some "7" |}.

Definition aliceLaterReply : Raw.Tweet :=
  {| Raw.tweet_id := "3"; Raw.text := Some (utf16 "third part");
     Raw.extended_text := None; Raw.extended_tweet_full_text := None;
     Raw.full_text := None; Raw.creation_date := Some 3000;
     Raw.user := Some {| Raw.user_id := Some "7";
                         Raw.username := Some "alice" |};
     Raw.reply_count := None; Raw.conversation_id := Some "1";
     Raw.thread_id := None; Raw.in_reply_to_status_id := Some "2";
     Raw.in_reply_to_tweet_id := None; Raw.in_reply_to_user_id := Some "7" |}.

Definition repliesServer (page : list Raw.Tweet) (n : nat) (url : string)
  : Gateway.Response ApiResponse :=
  {| Gateway.status := 200; Gateway.latency := 100;
     Gateway.parsed :=
       Some {| response_user_id := None; results := None;
               replies := Some page; continuation_token := None |} |}.

(** A server on which every request fails. *)
Definition downServer (n : nat) (url : string)
  : Gateway.Response ApiResponse :=
  {| Gateway.status := 500; Gateway.latency := 100; Gateway.parsed := None |}.

Definition freshWorld : Timeline.World :=
  {| Timeline.gateway := freshGateway; Timeline.userTweets := ∅;
     Timeline.toasts := 0 |}.

(** A raw record by [alice] with the given id and creation time, replying
    to the given tweet; the upstream sent neither a conversation id nor a
    thread id. *)
Definition alicePost (tweet_id : string) (time : Z)
    (conversation_id in_reply_to_status_id in_reply_to_user_id : option string)
  : Raw.Tweet :=
  {| Raw.tweet_id := tweet_id; Raw.text := Some (utf16 "part");
     Raw.extended_text := None; Raw.extended_tweet_full_text := None;
     Raw.full_text := None; Raw.creation_date := Some time;
     Raw.user := Some {| Raw.user_id := Some "7";
                         Raw.username := Some "alice" |};
     Raw.reply_count := None; Raw.conversation_id := conversation_id;
     Raw.thread_id := None;
     Raw.in_reply_to_status_id := in_reply_to_status_id;
     Raw.in_reply_to_tweet_id := None;
     Raw.in_reply_to_user_id := in_reply_to_user_id |}.

(** A chain of three tweets by one author, each replying to the one
    before, as the normalizer makes them when the upstream sends no
    conversation id: the conversation of a reply is then the tweet it
    replies to. *)
Definition replyChain : list Tweet :=
  map processTweet
    [alicePost "1" 1000 None None None;
     alicePost "2" 2000 None (Some "1") (Some "7");
     alicePost "3" 3000 None (Some "2") (Some "7")].

(** Four tweets of one conversation, with distinct ids: a tweet and a
    reply to it, and a reply to a tweet that was not fetched with a reply
    to that one.  The upstream did not say whose tweets the replies answer. *)
Definition twoChains : list Tweet :=
  map processTweet
    [alicePost "1" 1000 (Some "c1") None None;
     alicePost "2" 2000 (Some "c1") (Some "1") None;
     alicePost "3" 3000 (Some "c1") (Some "9") None;
     alicePost "4" 4000 (Some "c1") (Some "3") None].

(** A tweet by one fixed author, given by the fields the grouping reads. *)
Definition post (id : string) (time : Z)
    (conversation_id in_reply_to_tweet_id in_reply_to_user_id : option string)
    (is_self_thread : bool) : Tweet :=
  {| id := id; text := utf16 "part"; full_text := None;
     created_at := Some time;
     author := {| Author.id := Some "A"; Author.username := Some "a" |};
     reply_count := 0; conversation_id := conversation_id;
     in_reply_to_user_id := in_reply_to_user_id;
     in_reply_to_tweet_id := in_reply_to_tweet_id; is_long := false;
     thread_id := None; is_self_thread := is_self_thread;
     thread_position := None; thread_index := None |}.

(** The scenario of the specification: a tweet, a flagged reply to it in
    the conversation [c1], and the first tweet once more, now carrying the
    conversation id. *)
Definition scenario : list Tweet :=
  [post "1" 1000 None None None false;
   post "2" 2000 (Some "c1") (Some "1") (Some "A") true;
   post "1" 1000 (Some "c1") None None false].

End Samples.

(** ** Notions used to state further properties *)

(** The text opens with [@] and a word character: the match of
    [/^@[a-zA-Z0-9_]+/]. *)
Definition opensWithMention (text : jsstring) : bool :=
  match text with
  | 64 :: c :: _ => isWordChar c
  | _ => false
  end.

(** What the filters of the fetchers let through, said without the code:
    the author of the tweet carries the user name, letter case aside, and
    a text that opens with a mention starts with [@username].  The second
    part is a test of the first characters only: for the user [alice] a
    text that opens with [@alice_2] or [@alicesmith], the mention of
    somebody else, is let through. *)
Definition letThrough (username : string) (t : Tweet) : Prop :=
  (exists name,
      Author.username (author t) = Some name
      /\ lowerName name = lowerName username)
  /\ (opensWithMention (tweetText t) = true ->
      startsWith (tweetText t) (64 :: utf16 username) = true).

(** The test of the filters as the code makes it: the comparison of the
    user names and the test [mentionsAnotherUser], which looks at the
    first characters of the text only. *)
Definition passesAuthorFilter (username : string) (t : Tweet) : bool :=
  match Author.username (author t) with
  | Some name =>
      String.eqb (lowerName name) (lowerName username)
      && negb (mentionsAnotherUser (tweetText t) username)
  | None => false
  end.

(** What the loop of the reply fetcher keeps true of the replies gathered
    so far: their ids do not repeat and are all recorded as seen, and they
    pass the test of the filter. *)
Definition gathered (username : string) (l : Replies.Loop) : Prop :=
  NoDup (map id (Replies.allReplies l))
  /\ Forall (fun t => passesAuthorFilter username t = true
                      /\ id t ∈ Replies.uniqueReplyIds l)
       (Replies.allReplies l).

(** What the orchestrator keeps true of the tweets accumulated so far and
    of the ids it has recorded: the ids of the tweets do not repeat and are
    all recorded. *)
Definition deduplicated (allTweets : list Tweet) (ids : gset string) : Prop :=
  NoDup (map id allTweets) /\ Forall (fun t => id t ∈ ids) allTweets.

(** An object of the grouping engine comes from the input when the input
    array holds its tweet at its address. *)
Definition fromInput (tweets : list Tweet) (r : Grouping.Ref) : Prop :=
  tweets !! r.1 = Some r.2.

Definition refId (r : Grouping.Ref) : string := id r.2.

(** An entry of [threadMap] is sound when its objects come from the input
    and, unless it is the entry of the standalone tweets, their ids do not
    repeat. *)
Definition soundEntry (tweets : list Tweet)
    (entry : string * list Grouping.Ref) : Prop :=
  Forall (fromInput tweets) entry.2
  /\ (entry.1 <> "standalone" -> NoDup (map refId entry.2)).

(** A tweet of the result is a tweet of the input, changed at most by a
    position written into it. *)
Definition emitted (tweets : list Tweet) (t : Tweet) : Prop :=
  exists i original,
    tweets !! i = Some original
    /\ (t = original \/ exists index, t = set_position index original).

Definition soundItem (tweets : list Tweet) (item : Item) : Prop :=
  match item with
  | TweetItem t => emitted tweets t
  | ThreadItem thread =>
      Forall (emitted tweets) (Thread.tweets thread)
      /\ NoDup (map id (Thread.tweets thread))
  end.

(** The tweets the saver files under the thread [k]. *)
Definition filedUnder (k : string) (t : Tweet) : bool :=
  Saving.threaded t && String.eqb (Saving.threadIdOf t) k.

(** Order by thread position, on tweets that have one. *)
Definition positionNotAfter (a b : Tweet) : Prop :=
  match thread_position a, thread_position b with
  | Some pa, Some pb => pa <= pb
  | _, _ => False
  end.

(** An entry of the saver's map is right for the tweets seen so far when
    it holds the tweets filed under its key, in the order in which they
    were seen, and at least one. *)
Definition filed (seen : list Tweet) (entry : string * list Tweet) : Prop :=
  entry.2 = List.filter (filedUnder entry.1) seen /\ entry.2 <> [].

(** What the grouping loop of the saver keeps true of its map and of the
    tweets seen so far. *)
Definition grouped (threadMap : list (string * list Tweet))
    (seen : list Tweet) : Prop :=
  NoDup (map fst threadMap)
  /\ Forall (filed seen) threadMap
  /\ Forall (fun t => Saving.threaded t = true ->
                      map_has (Saving.threadIdOf t) threadMap = true) seen
  /\ Permutation (concat (map snd threadMap))
       (List.filter Saving.threaded seen).

(** What a thread of the payload is, for the tweets that were selected:
    all the selected tweets filed under its key and at least one, by
    position when every one of them has a position. *)
Definition savedThread (tweets : list Tweet) (entry : string * list Tweet)
  : Prop :=
  entry.2 <> []
  /\ Permutation entry.2 (List.filter (filedUnder entry.1) tweets)
  /\ (Forall (fun t => is_Some (thread_position t)) entry.2 ->
      StronglySorted positionNotAfter entry.2).

(** What the page shows when [page] is the current page: the items the
    display effect puts on display, starting from nothing. *)
Definition shown (filteredItems : list Item) (itemsPerPage page : Z)
  : Index.Display :=
  Index.displayEffect filteredItems
    {| Index.pagination :=
         {| Index.currentPage := page; Index.totalItems := 0;
            Index.itemsPerPage := itemsPerPage |};
       Index.displayedItems := [] |}.

(** The entries continue a row of page links whose last number is [prev]:
    the next number is the next page, unless an ellipsis stands in
    between, and then pages are left out. *)
Fixpoint rowFrom (prev : Z) (entries : list Pager.PageEntry) : Prop :=
  match entries with
  | [] => True
  | Pager.Page b :: rest => b = prev + 1 /\ rowFrom b rest
  | Pager.Ellipsis :: Pager.Page b :: rest => prev + 1 < b /\ rowFrom b rest
  | Pager.Ellipsis :: _ => False
  end.

(** The last word of the trimmed text is one of the words a sentence
    does not end with, the test of the fetcher's heuristic. *)
Definition endsWithFunctionWord (text : jsstring) : bool :=
  match Text.lastWord (slice_last 2 (split_ws (trim text))) with
  | Some w => array_includes Text.commonTruncationEnders (toLowerCase w)
  | None => false
  end.

(** A code unit of the Thai block. *)
Definition isThaiUnit (c : Z) : bool := (3584 <=? c) && (c <=? 3711).

(** [a] is not older than [b], for items whose dates parse. *)
Definition notOlder (a b : Item) : Prop :=
  match Grouping.itemDate a, Grouping.itemDate b with
  | Some dateA, Some dateB => dateB <= dateA
  | _, _ => False
  end.

(** ** More sample inputs *)

Module MoreSamples.

(** An upstream that knows the user 7 and answers every request with one
    tweet by [alice], no replies and no continuation token. *)
Definition timelineServer (n : nat) (url : string)
  : Gateway.Response ApiResponse :=
  {| Gateway.status := 200; Gateway.latency := 100;
     Gateway.parsed :=
       Some {| response_user_id := Some "7";
               results := Some [Samples.alicePost "1" 1000 None None None];
               replies := None; continuation_token := None |} |}.


(** An upstream that answers every request for a single tweet with the
    reply of [alice], and one that is down. *)
Definition detailsServer (n : nat) (url : string)
  : Gateway.Response (option Raw.Tweet) :=
  {| Gateway.status := 200; Gateway.latency := 100;
     Gateway.parsed := Some (Some Samples.aliceReply) |}.

Definition detailsDown (n : nat) (url : string)
  : Gateway.Response (option Raw.Tweet) :=
  {| Gateway.status := 500; Gateway.latency := 100; Gateway.parsed := None |}.

Definition freshDetails : Details.World :=
  {| Details.gateway := Samples.freshGateway; Details.tweetDetails := ∅ |}.


(** The page before the first search. *)
Definition freshPage : Index.Page :=
  {| Index.allItems := []; Index.currentUser := None;
     Index.fetchedTweetCount := 0; Index.pageNotices := [];
     Index.world := Samples.freshWorld |}.


(** Three tweets of the conversation [standalone]: one that nothing
    answers, and a second one with a reply to it. *)
Definition standaloneClash : list Tweet :=
  [Samples.post "1" 1000 (Some "standalone") None None false;
   Samples.post "2" 2000 (Some "standalone") None None false;
   Samples.post "3" 3000 (Some "standalone") (Some "2") None false].

(** A reply by [alice] that opens with a mention of [alice_2], as the
    upstream sends it and as the normalizer makes it. *)
Definition aliceMentioningRaw : Raw.Tweet :=
    {| Raw.tweet_id := "8"; Raw.text := Some (utf16 "@alice_2 thanks");
       Raw.extended_text := None; Raw.extended_tweet_full_text := None;
       Raw.full_text := None; Raw.creation_date := Some 8000;
       Raw.user := Some {| Raw.user_id := Some "7";
                           Raw.username := Some "alice" |};
       Raw.reply_count := None; Raw.conversation_id := None;
       Raw.thread_id := None; Raw.in_reply_to_status_id := None;
       Raw.in_reply_to_tweet_id := None; Raw.in_reply_to_user_id := None |}.

Definition aliceMentioning : Tweet := processTweet aliceMentioningRaw.

End MoreSamples.

(** * Properties *)

(** ** Lists, strings and sorting *)

Section ListFacts.

Context {A : Type}.
Implicit Types (p : A -> bool) (l : list A).

Lemma dropWhile_all p l :
  Forall (fun x => p x = true) l -> dropWhile p l = [].
Proof.
  induction 1 as [|x l Hx _ IH]; simpl; [reflexivity|].
  now rewrite Hx.
Qed.

Lemma dropWhile_app_stop p l x r :
  p x = false -> dropWhile p (l ++ x :: r) = dropWhile p l ++ x :: r.
Proof.
  intros Hx. induction l as [|y l IH]; simpl.
  - now rewrite Hx.
  - destruct (p y); [exact IH | reflexivity].
Qed.

Lemma dropWhile_app_all p l r :
  Forall (fun x => p x = true) l -> dropWhile p (l ++ r) = dropWhile p r.
Proof.
  induction 1 as [|x l Hx _ IH]; simpl; [reflexivity|].
  now rewrite Hx.
Qed.

Lemma dropWhile_suffix p l : exists front, l = front ++ dropWhile p l.
Proof.
  induction l as [|x l [front IH]]; simpl.
  - now exists [].
  - destruct (p x).
    + exists (x :: front). simpl. now f_equal.
    + now exists [].
Qed.

Lemma last_skipn (k : nat) l :
  (k < length l)%nat -> last (skipn k l) = last l.
Proof.
  revert k. induction l as [|x l IH]; intros k Hk; simpl in Hk; [lia|].
  destruct k as [|k]; [reflexivity|].
  simpl skipn. rewrite IH by lia.
  destruct l; [simpl in Hk; lia | reflexivity].
Qed.

Lemma sort_insert_Permutation (cmp : A -> A -> number) x l :
  Permutation (sort_insert cmp x l) (x :: l).
Proof.
  induction l as [|y l IH]; simpl; [reflexivity|].
  destruct (cmp_gt cmp x y); [|reflexivity].
  rewrite IH. apply perm_swap.
Qed.

Lemma sort_Permutation (cmp : A -> A -> number) l :
  Permutation (sort cmp l) l.
Proof.
  induction l as [|x l IH]; simpl; [reflexivity|].
  rewrite sort_insert_Permutation. now constructor.
Qed.

Lemma sort_length (cmp : A -> A -> number) l :
  length (sort cmp l) = length l.
Proof. apply Permutation_length, sort_Permutation. Qed.

Lemma sort_elem_of (cmp : A -> A -> number) l x :
  x ∈ sort cmp l <-> x ∈ l.
Proof. now rewrite (sort_Permutation cmp l). Qed.

End ListFacts.

Section StringFacts.

Implicit Types (s w : jsstring) (c : Z).

Lemma jsstring_eqb_eq s w : jsstring_eqb s w = true -> s = w.
Proof.
  revert w. induction s as [|x s IH]; intros [|y w]; simpl; try discriminate.
  - reflexivity.
  - intros H. apply andb_true_iff in H as [Hxy Hsw].
    apply Z.eqb_eq in Hxy. subst. f_equal. now apply IH.
Qed.

Lemma split_ws_from_not_nil b s : split_ws_from b s <> [].
Proof.
  revert b. induction s as [|c s IH]; intros b; simpl; [discriminate|].
  destruct (isWhiteSpace c).
  - destruct b; [apply IH | discriminate].
  - destruct (split_ws_from false s); discriminate.
Qed.

(** A string without white space is a single piece. *)
Lemma split_ws_from_word b w :
  Forall (fun c => isWhiteSpace c = false) w -> split_ws_from b w = [w].
Proof.
  intros Hw. revert b. induction Hw as [|c w Hc _ IH]; intros b; simpl.
  - reflexivity.
  - rewrite Hc, (IH false). reflexivity.
Qed.

(** After a white space, a last word without white space is the last
    piece. *)
Lemma split_ws_from_last_word b s c w :
  isWhiteSpace c = true ->
  Forall (fun c => isWhiteSpace c = false) w ->
  exists front,
    split_ws_from b (s ++ c :: w) = front ++ [w]
    /\ (b = false -> front <> []).
Proof.
  intros Hc Hw. revert b. induction s as [|x s IH]; intros b; simpl.
  - rewrite Hc, (split_ws_from_word true w Hw).
    destruct b; [exists [] | exists [[]]]; split; try reflexivity; congruence.
  - destruct (isWhiteSpace x).
    + destruct (IH true) as (front & -> & _).
      destruct b; [exists front | exists ([] :: front)];
        split; try reflexivity; congruence.
    + destruct (IH false) as (front & -> & Hfront).
      destruct front as [|piece pieces]; [now destruct Hfront|].
      exists ((x :: piece) :: pieces). split; [reflexivity | discriminate].
Qed.

(** The last piece of a string that ends in a visible character ends in
    that character. *)
Lemma split_ws_from_last_unit b s c :
  isWhiteSpace c = false ->
  exists w, last (split_ws_from b (s ++ [c])) = Some (w ++ [c]).
Proof.
  intros Hc. revert b. induction s as [|x s IH]; intros b; simpl.
  - rewrite Hc. now exists [].
  - destruct (isWhiteSpace x).
    + destruct (IH true) as [w Hw].
      destruct b; [now exists w|].
      exists w. rewrite <- Hw.
      pose proof (split_ws_from_not_nil true (s ++ [c])).
      now destruct (split_ws_from true (s ++ [c])).
    + destruct (IH false) as [w Hw].
      destruct (split_ws_from false (s ++ [c])) as [|piece pieces];
        [discriminate|].
      destruct pieces as [|piece' pieces].
      * simpl in Hw. injection Hw as ->. now exists (x :: w).
      * now exists w.
Qed.

Lemma trim_visible_end s c :
  isWhiteSpace c = false ->
  trim (s ++ [c]) = dropWhile isWhiteSpace s ++ [c].
Proof.
  intros Hc. unfold trim, trimStart, trimEnd.
  rewrite dropWhile_app_stop by exact Hc.
  rewrite rev_app_distr. simpl. rewrite Hc.
  change (rev (c :: rev (dropWhile isWhiteSpace s)))
    with (rev (rev (dropWhile isWhiteSpace s)) ++ [c]).
  now rewrite rev_involutive.
Qed.

Lemma trim_blank s :
  Forall (fun c => isWhiteSpace c = true) s -> trim s = [].
Proof.
  intros H. unfold trim, trimStart. now rewrite dropWhile_all.
Qed.

(** A string with a visible character does not trim to nothing. *)
Lemma trim_visible s :
  Exists (fun c => isWhiteSpace c = false) s -> trim s <> [].
Proof.
  intros H. apply Exists_exists in H as (c & Hin & Hc).
  apply list_elem_of_In in Hin.
  assert (Hkeep : forall l, In c l -> In c (dropWhile isWhiteSpace l)).
  { induction l as [|x l IH]; simpl; [tauto|].
    intros [->|Hl]; [rewrite Hc; now left|].
    destruct (isWhiteSpace x); [now apply IH | now right]. }
  unfold trim, trimStart, trimEnd. intros Hnil.
  apply Hkeep in Hin. apply (proj1 (in_rev _ _)) in Hin.
  apply Hkeep in Hin. apply (proj1 (in_rev _ _)) in Hin.
  rewrite Hnil in Hin. exact Hin.
Qed.

End StringFacts.

(** ** Text normalizer *)

Section TextFacts.

Implicit Types (s w text : jsstring) (c : Z).

Lemma startsWith_In s needle c :
  startsWith s needle = true -> In c needle -> In c s.
Proof.
  revert s. induction needle as [|n needle IH]; intros s H Hin; [easy|].
  destruct s as [|x s]; simpl in H; [discriminate|].
  apply andb_true_iff in H as [Hx Hs]. apply Z.eqb_eq in Hx. subst x.
  destruct Hin as [->|Hin]; [now left | right; now apply IH].
Qed.

Lemma includes_In s needle c :
  includes s needle = true -> In c needle -> In c s.
Proof.
  induction s as [|x s IH]; intros H Hin.
  - destruct needle; [contradiction | discriminate].
  - change (startsWith (x :: s) needle || includes s needle = true) in H.
    apply orb_true_iff in H as [H|H].
    + exact (startsWith_In _ _ _ H Hin).
    + right. now apply IH.
Qed.

Lemma trim_last_word pre w post :
  w <> [] ->
  Forall (fun c => isWhiteSpace c = false) w ->
  Forall (fun c => isWhiteSpace c = true) post ->
  trim (pre ++ w ++ post) = dropWhile isWhiteSpace pre ++ w.
Proof.
  intros Hne Hw Hpost. unfold trim, trimStart, trimEnd.
  destruct w as [|x w']; [congruence|].
  assert (Hx : isWhiteSpace x = false) by (inversion Hw; assumption).
  simpl app. rewrite (dropWhile_app_stop _ _ _ _ Hx).
  change (x :: w' ++ post) with ((x :: w') ++ post).
  rewrite !rev_app_distr, <- app_assoc.
  rewrite (dropWhile_app_all _ (rev post)) by apply Forall_rev, Hpost.
  destruct (exists_last (l := x :: w') ltac:(discriminate)) as (w0 & d & Hd).
  rewrite Hd, rev_app_distr. simpl.
  assert (Hvis : isWhiteSpace d = false).
  { rewrite Hd in Hw. apply Forall_app in Hw as [_ Hw]. now inversion Hw. }
  rewrite Hvis.
  change (d :: rev w0 ++ rev (dropWhile isWhiteSpace pre))
    with (rev [d] ++ rev w0 ++ rev (dropWhile isWhiteSpace pre)).
  now rewrite <- !rev_app_distr, rev_involutive, <- app_assoc.
Qed.

(** The word the heuristic looks at is the last word of the text. *)
Lemma lastWord_of_text pre w post :
  w <> [] ->
  Forall (fun c => isWhiteSpace c = false) w ->
  Forall (fun c => isWhiteSpace c = true) post ->
  (pre = [] \/ exists front c, pre = front ++ [c] /\ isWhiteSpace c = true) ->
  lastWord (slice_last 2 (split_ws (trim (pre ++ w ++ post)))) = Some w.
Proof.
  intros Hne Hw Hpost Hpre.
  rewrite trim_last_word by assumption.
  assert (Hsplit : exists front,
             split_ws (dropWhile isWhiteSpace pre ++ w) = front ++ [w]).
  { destruct (dropWhile_suffix isWhiteSpace pre) as [skipped Hskip].
    destruct (dropWhile isWhiteSpace pre) as [|y rest] eqn:Hdrop.
    - exists []. apply split_ws_from_word, Hw.
    - destruct Hpre as [->|(front & c & -> & Hc)]; [discriminate|].
      destruct (exists_last (l := y :: rest) ltac:(discriminate))
        as (init & d & Hd).
      rewrite Hd in Hskip |- *. rewrite app_assoc in Hskip.
      apply app_inj_tail in Hskip as [_ <-].
      rewrite <- app_assoc. simpl.
      destruct (split_ws_from_last_word false init c w Hc Hw) as (f & Hf & _).
      now exists f. }
  destruct Hsplit as [front ->].
  unfold lastWord, slice_last. rewrite last_skipn.
  - apply last_snoc.
  - rewrite length_app. simpl. lia.
Qed.

Lemma terminal_not_space c :
  isTerminalPunctuation c = true -> isWhiteSpace c = false.
Proof.
  unfold isTerminalPunctuation, isWhiteSpace. intros H.
  repeat (apply orb_true_iff in H as [H|H]); apply Z.eqb_eq in H; now subst.
Qed.

Lemma terminal_lowerUnit c :
  isTerminalPunctuation c = true -> lowerUnit c = c.
Proof.
  unfold isTerminalPunctuation. intros H.
  repeat (apply orb_true_iff in H as [H|H]); apply Z.eqb_eq in H; now subst.
Qed.

(** No function word ends in a punctuation mark. *)
Lemma enders_no_terminal w c :
  isTerminalPunctuation c = true ->
  array_includes commonTruncationEnders (w ++ [c]) = false.
Proof.
  intros Hc. destruct (array_includes _ _) eqn:H; [|reflexivity].
  unfold array_includes in H. apply existsb_exists in H as (e & He & Heq).
  apply jsstring_eqb_eq in Heq. subst e.
  assert (Hall : forallb (fun e => match rev e with
                                   | d :: _ => negb (isTerminalPunctuation d)
                                   | [] => true
                                   end) commonTruncationEnders = true)
    by reflexivity.
  rewrite forallb_forall in Hall. specialize (Hall _ He).
  rewrite rev_app_distr in Hall. simpl in Hall. now rewrite Hc in Hall.
Qed.

Lemma endsInTerminalPunctuation_snoc s c :
  endsInTerminalPunctuation (s ++ [c]) = isTerminalPunctuation c.
Proof. unfold endsInTerminalPunctuation. now rewrite rev_app_distr. Qed.

(** A text that is not blank and is as long as the threshold is flagged
    unless it ends in a punctuation mark. *)
Lemma detect_long text :
  trim text <> [] ->
  ((if hasNonLatinScript text then 180 else 240) <= length text)%nat ->
  endsInTerminalPunctuation (trim text) = false ->
  detectTruncatedText text = true.
Proof.
  intros Hvisible Hlong Hend. unfold detectTruncatedText. cbv zeta.
  assert (Hlen : (length text =? 0)%nat || (length (trim text) =? 0)%nat = false).
  { apply orb_false_iff. split; apply Nat.eqb_neq.
    - destruct (hasNonLatinScript text); lia.
    - destruct (trim text); [congruence | simpl; lia]. }
  rewrite Hlen, Hend.
  apply Nat.leb_le in Hlong. rewrite Hlong. simpl.
  repeat match goal with
         | |- (if ?b then true else _) = true => destruct b; [reflexivity|]
         end.
  reflexivity.
Qed.

End TextFacts.

(** C4. The truncation heuristic on the cases the specification lists:
    a text ending in an ellipsis is flagged and a short complete sentence
    is not; every text of 250 code units that is not blank and does not end
    in one of the four punctuation marks is flagged, whatever its script;
    every text of 190 code units with a Devanagari letter that does not end
    in such a mark is flagged; a text of 190 code units made of Devanagari
    letters and white space followed by such a mark is not flagged; a blank
    text, and the empty one, is never flagged. *)
Theorem detectTruncatedText_cases :
  detectTruncatedText (utf16 "Check this out" ++ [ellipsis]) = true
  /\ detectTruncatedText (utf16 "A complete sentence.") = false
  /\ (forall text,
        length text = 250%nat ->
        Exists (fun c => isWhiteSpace c = false) text ->
        endsInTerminalPunctuation (trim text) = false ->
        detectTruncatedText text = true)
  /\ (forall text,
        length text = 190%nat ->
        Exists (fun c => isDevanagari c = true) text ->
        endsInTerminalPunctuation (trim text) = false ->
        detectTruncatedText text = true)
  /\ (forall body mark,
        length body = 189%nat ->
        Forall (fun c => isDevanagari c = true \/ isWhiteSpace c = true) body ->
        isTerminalPunctuation mark = true ->
        detectTruncatedText (body ++ [mark]) = false)
  /\ (forall text,
        Forall (fun c => isWhiteSpace c = true) text ->
        detectTruncatedText text = false).
Proof.
  split; [reflexivity|]. split; [reflexivity|].
  split; [|split; [|split]].
  - intros text Hlen Hvis Hend. apply detect_long.
    + now apply trim_visible.
    + rewrite Hlen. destruct (hasNonLatinScript text); lia.
    + exact Hend.
  - intros text Hlen Hdev Hend.
    assert (Hscript : hasNonLatinScript text = true).
    { apply Exists_exists in Hdev as (c & Hin & Hc).
      apply existsb_exists. exists c. split; [now apply list_elem_of_In|].
      unfold isNonLatinUnit. unfold isDevanagari in Hc. now rewrite Hc. }
    apply detect_long.
    + apply trim_visible. apply Exists_exists in Hdev as (c & Hin & Hc).
      apply Exists_exists. exists c. split; [exact Hin|].
      unfold isDevanagari in Hc. unfold isWhiteSpace.
      apply andb_true_iff in Hc as [Hlo Hhi].
      apply Z.leb_le in Hlo, Hhi.
      repeat (apply orb_false_iff; split);
        try apply andb_false_iff; try apply Z.eqb_neq; try lia;
        first [left; apply Z.leb_gt; lia | right; apply Z.leb_gt; lia].
    + rewrite Hscript, Hlen. lia.
    + exact Hend.
  - intros body mark Hlen Hbody Hmark.
    pose proof (terminal_not_space _ Hmark) as Hvis.
    assert (Hplain : forall c, In c body ->
              c <> ellipsis /\ c <> 46 /\ c <> 104).
    { intros c Hc. rewrite Forall_forall in Hbody.
      apply list_elem_of_In, Hbody in Hc as [Hc|Hc].
      - unfold isDevanagari in Hc. apply andb_true_iff in Hc as [Hlo Hhi].
        apply Z.leb_le in Hlo, Hhi. unfold ellipsis. lia.
      - repeat split; intros ->; discriminate. }
    assert (Hmark' : mark <> ellipsis /\ mark <> 104).
    { split; intros ->; discriminate. }
    unfold detectTruncatedText. cbv zeta.
    rewrite trim_visible_end by exact Hvis.
    replace ((length (body ++ [mark]) =? 0)%nat
             || (length (dropWhile isWhiteSpace body ++ [mark]) =? 0)%nat)
      with false by (rewrite !length_app; simpl;
                     symmetry; apply orb_false_iff; split;
                     apply Nat.eqb_neq; lia).
    replace (endsWith (body ++ [mark]) [ellipsis]
             || endsWith (body ++ [mark]) (utf16 "..."))
      with false.
    2:{ symmetry. apply orb_false_iff. unfold endsWith.
        rewrite rev_app_distr.
        change (rev [mark]) with [mark].
        change (rev [ellipsis]) with [ellipsis].
        change (rev (utf16 "...")) with [46; 46; 46].
        split.
        - cbn [app startsWith]. rewrite andb_true_r.
          apply Z.eqb_neq, Hmark'.
        - destruct (rev body) as [|x rest] eqn:Hrev.
          + apply (f_equal (@length Z)) in Hrev.
            rewrite length_rev, Hlen in Hrev. discriminate.
          + assert (Hx : In x body)
              by (apply in_rev; rewrite Hrev; now left).
            apply Hplain in Hx as (_ & Hx & _).
            apply Z.eqb_neq in Hx. cbn [app startsWith]. rewrite Hx.
            now rewrite andb_false_r. }
    replace (includes (body ++ [mark]) (ellipsis :: utf16 " https://")
             || includes (body ++ [mark]) (utf16 "... https://"))
      with false.
    2:{ symmetry. apply orb_false_iff.
        split; apply not_true_is_false; intros Hinc.
        - apply (includes_In _ _ ellipsis) in Hinc; [|now left].
          apply in_app_or in Hinc as [Hin|[Heq|[]]].
          + now apply Hplain in Hin.
          + now destruct Hmark'.
        - apply (includes_In _ _ 104) in Hinc;
            [|simpl; right; right; right; right; now left].
          apply in_app_or in Hinc as [Hin|[Heq|[]]].
          + now apply Hplain in Hin.
          + now destruct Hmark'. }
    destruct (split_ws_from_last_unit false (dropWhile isWhiteSpace body)
                mark Hvis) as [w Hw].
    unfold lastWord, slice_last, split_ws.
    rewrite last_skipn.
    2:{ pose proof (split_ws_from_not_nil false
                      (dropWhile isWhiteSpace body ++ [mark])).
        destruct (split_ws_from _ _); [congruence | simpl; lia]. }
    rewrite Hw. unfold toLowerCase. rewrite map_app.
    change (map lowerUnit [mark]) with [lowerUnit mark].
    rewrite (terminal_lowerUnit _ Hmark), (enders_no_terminal _ _ Hmark).
    rewrite endsInTerminalPunctuation_snoc, Hmark.
    now rewrite andb_false_r.
  - intros text Hblank. unfold detectTruncatedText.
    rewrite (trim_blank _ Hblank). simpl. now rewrite orb_true_r.
Qed.

Lemma detectTruncatedText_cases_witness :
  detectTruncatedText Samples.latin250 = true
  /\ detectTruncatedText Samples.devanagari190 = true
  /\ detectTruncatedText (Samples.devanagari189 ++ [46]) = false
  /\ detectTruncatedText [32; 9; 10] = false.
Proof.
  destruct detectTruncatedText_cases as (_ & _ & Hlatin & Hdev & Hend & Hblank).
  split; [|split; [|split]].
  - apply Hlatin;
      [reflexivity | apply Exists_cons_hd; reflexivity | reflexivity].
  - apply Hdev;
      [reflexivity | apply Exists_cons_hd; reflexivity | reflexivity].
  - apply Hend; [reflexivity | | reflexivity].
    apply Forall_forall. intros c Hc.
    apply list_elem_of_In, repeat_spec in Hc. subst c. now left.
  - apply Hblank. repeat constructor.
Defined.

(** C5, as the specification words it, fails: in [the cat] one of the
    last two words is a function word, and the text is not flagged. *)
Lemma function_word_before_last_not_flagged :
  utf16 "the cat" <> []
  /\ (exists w,
        In w (slice_last 2 (split_ws (trim (utf16 "the cat"))))
        /\ array_includes commonTruncationEnders (toLowerCase w) = true)
  /\ detectTruncatedText (utf16 "the cat") = false.
Proof.
  split; [discriminate|]. split; [|reflexivity].
  exists (utf16 "the"). split; [now left | reflexivity].
Qed.

(** C5, amended.  A text whose last word is one of the function words,
    in any letter case, is flagged: the word is not empty and holds no
    white space, what precedes it is empty or ends in white space, and
    only white space follows it. *)
Theorem detectTruncatedText_last_word pre w post :
  w <> [] ->
  Forall (fun c => isWhiteSpace c = false) w ->
  Forall (fun c => isWhiteSpace c = true) post ->
  (pre = [] \/ exists front c, pre = front ++ [c] /\ isWhiteSpace c = true) ->
  array_includes commonTruncationEnders (toLowerCase w) = true ->
  detectTruncatedText (pre ++ w ++ post) = true.
Proof.
  intros Hne Hw Hpost Hpre Hword. unfold detectTruncatedText. cbv zeta.
  rewrite (lastWord_of_text pre w post Hne Hw Hpost Hpre), Hword.
  assert (Hlen : (length (pre ++ w ++ post) =? 0)%nat
                 || (length (trim (pre ++ w ++ post)) =? 0)%nat = false).
  { rewrite trim_last_word by assumption. rewrite !length_app.
    apply orb_false_iff. split; apply Nat.eqb_neq;
      destruct w; simpl; congruence || lia. }
  rewrite Hlen.
  repeat match goal with
         | |- (if ?b then true else _) = true => destruct b; [reflexivity|]
         end.
  reflexivity.
Qed.

Lemma detectTruncatedText_last_word_witness :
  detectTruncatedText (utf16 "cat " ++ utf16 "The" ++ utf16 " ") = true.
Proof.
  apply detectTruncatedText_last_word.
  - discriminate.
  - repeat constructor.
  - repeat constructor.
  - right. exists (utf16 "cat"), 32. split; reflexivity.
  - reflexivity.
Defined.

(** ** Post normalizer *)

(** C3, as the specification words it, fails: a text of 250 code units
    that ends in a full stop is longer than 240, and is not long for
    [processTweet]. *)
Lemma is_long_threshold_is_280 :
  (240 < length (textContent (Samples.rawText Samples.longSentence)))%nat
  /\ is_long (processTweet (Samples.rawText Samples.longSentence)) = false.
Proof. split; [vm_compute; lia | reflexivity]. Qed.

(** C3, amended.  The tweet is long exactly when the text chosen from the
    raw record is longer than 280 code units or the truncation heuristic
    flags that same text, as it is before cleaning. *)
Theorem processTweet_is_long tweet :
  is_long (processTweet tweet) = true
  <-> (280 < length (textContent tweet))%nat
      \/ detectTruncatedText (textContent tweet) = true.
Proof.
  unfold processTweet. simpl.
  rewrite orb_true_iff, Nat.ltb_lt. reflexivity.
Qed.

(** ** Request gateway *)

Section GatewayFacts.

Import Gateway.

Context {JSON : Type}.
Variable server : nat -> string -> Response JSON.

Lemma makeApiRequest_fuel_eq fuel url retryCount st :
  makeApiRequest_fuel server fuel url retryCount st =
  let '(failed, st) := hasRecentlyFailed url st in
  if failed then (Thrown (SkippedRecentFailure url), st)
  else
    let st := rateLimit st in
    let '(xhr, st) := send server url st in
    if (200 <=? status xhr) && (status xhr <? 300) then
      match parsed xhr with
      | Some json => (Returned json, st)
      | None => (Thrown ParseError, st)
      end
    else if (status xhr =? 429) && (retryCount <? MAX_RETRIES)%nat then
      let delay := RETRY_DELAY * 2 ^ Z.of_nat retryCount in
      match fuel with
      | S fuel' =>
          makeApiRequest_fuel server fuel' url (S retryCount) (sleep delay st)
      | O => giveUp url (status xhr) st
      end
    else giveUp url (status xhr) st.
Proof. destruct fuel; reflexivity. Qed.

Lemma hasRecentlyFailed_sent url st :
  sent (hasRecentlyFailed url st).2 = sent st.
Proof.
  unfold hasRecentlyFailed.
  destruct (failedRequests st !! url); [|reflexivity].
  repeat match goal with |- context [if ?b then _ else _] => destruct b end;
    reflexivity.
Qed.

Lemma rateLimit_sent st : sent (rateLimit st) = sent st.
Proof.
  unfold rateLimit.
  now destruct (clock st - lastApiCallTime st <? MIN_API_CALL_INTERVAL).
Qed.

Lemma rateLimit_failedRequests st :
  failedRequests (rateLimit st) = failedRequests st.
Proof.
  unfold rateLimit.
  now destruct (clock st - lastApiCallTime st <? MIN_API_CALL_INTERVAL).
Qed.

Lemma send_sent url st : sent (send server url st).2 = sent st ++ [url].
Proof. reflexivity. Qed.

Lemma giveUp_sent url status st :
  sent (giveUp (JSON := JSON) url status st).2 = sent st.
Proof. unfold giveUp. simpl. now destruct (status =? 429). Qed.

(** Whatever a request does, the requests already on the wire stay. *)
Lemma makeApiRequest_fuel_sent fuel url retryCount st :
  sent st `prefix_of` sent (makeApiRequest_fuel server fuel url retryCount st).2.
Proof.
  revert retryCount st.
  induction fuel as [|fuel IH]; intros retryCount st;
    rewrite makeApiRequest_fuel_eq;
    pose proof (hasRecentlyFailed_sent url st) as Hsent;
    destruct (hasRecentlyFailed url st) as [[] st1]; simpl in Hsent;
    try (simpl; now rewrite Hsent);
    cbv zeta;
    pose proof (send_sent url (rateLimit st1)) as Hsend;
    rewrite rateLimit_sent, Hsent in Hsend;
    destruct (send server url (rateLimit st1)) as [xhr st2];
    change (sent st2 = sent st ++ [url]) in Hsend;
    repeat match goal with
           | |- context [if ?b then _ else _] => destruct b
           | |- context [match parsed ?x with _ => _ end] => destruct (parsed x)
           end;
    rewrite ?giveUp_sent;
    try (cbn [snd]; rewrite Hsend; now apply prefix_app_r).
  etransitivity; [|apply IH].
  change (sent (sleep _ st2)) with (sent st2). rewrite Hsend.
  now apply prefix_app_r.
Qed.

Lemma hasRecentlyFailed_true url st :
  (hasRecentlyFailed url st).1 = true <-> blocked url st.
Proof.
  unfold hasRecentlyFailed, blocked.
  destruct (failedRequests st !! url) as [failedRequest|].
  - destruct (FAILED_REQUEST_EXPIRY <? clock st - timestamp failedRequest)
      eqn:Hexp;
      [apply Z.ltb_lt in Hexp | apply Z.ltb_ge in Hexp].
    + split; [discriminate|]. intros (fr & [= <-] & Hle & _). lia.
    + destruct (deadlinePassed (clock st) (retryAfter failedRequest)) eqn:Hd.
      * split; [discriminate|]. intros (fr & [= <-] & _ & Hd'). congruence.
      * split; [|reflexivity]. intros _. now exists failedRequest.
  - split; [discriminate|]. now intros (fr & [=] & _).
Qed.

Lemma hasRecentlyFailed_false url st :
  (hasRecentlyFailed url st).1 = false ->
  failedRequests (hasRecentlyFailed url st).2 = delete url (failedRequests st).
Proof.
  unfold hasRecentlyFailed.
  destruct (failedRequests st !! url) as [failedRequest|] eqn:Hlook.
  - repeat match goal with |- context [if ?b then _ else _] => destruct b end;
      simpl; intros; congruence.
  - intros _. simpl. symmetry. now apply delete_id.
Qed.

Lemma recordFailedRequest_lookup url code retryAfter st :
  failedRequests (recordFailedRequest url code retryAfter st) !! url
  = Some {| timestamp := clock st;
            errorCode := code;
            retryAfter := match retryAfter with
                          | Some ms => if ms =? 0 then None
                                       else Some (clock st + ms)
                          | None => None
                          end |}.
Proof.
  unfold recordFailedRequest. simpl.
  apply map_lookup_filter_Some. split.
  - apply lookup_insert_eq.
  - simpl. unfold FAILED_REQUEST_EXPIRY. lia.
Qed.

Lemma hasRecentlyFailed_true_state url st :
  (hasRecentlyFailed url st).1 = true -> (hasRecentlyFailed url st).2 = st.
Proof.
  unfold hasRecentlyFailed.
  destruct (failedRequests st !! url); [|discriminate].
  repeat match goal with |- context [if ?b then _ else _] => destruct b end;
    simpl; congruence.
Qed.

(** A request that passes the check of the failure cache goes on the
    wire. *)
Lemma makeApiRequest_fuel_wire fuel url retryCount st :
  (hasRecentlyFailed url st).1 = false ->
  sent st ++ [url]
    `prefix_of` sent (makeApiRequest_fuel server fuel url retryCount st).2.
Proof.
  intros Hpass. rewrite makeApiRequest_fuel_eq.
  pose proof (hasRecentlyFailed_sent url st) as Hsent.
  destruct (hasRecentlyFailed url st) as [failed st1].
  simpl in Hpass, Hsent. subst failed. cbv zeta.
  pose proof (send_sent url (rateLimit st1)) as Hsend.
  rewrite rateLimit_sent, Hsent in Hsend.
  destruct (send server url (rateLimit st1)) as [xhr st2].
  change (sent st2 = sent st ++ [url]) in Hsend. rewrite <- Hsend.
  repeat match goal with
         | |- context [if ?b then _ else _] => destruct b
         | |- context [match parsed ?x with _ => _ end] => destruct (parsed x)
         | |- context [match fuel with _ => _ end] => destruct fuel
         end;
    rewrite ?giveUp_sent; try reflexivity.
  apply (makeApiRequest_fuel_sent _ url (S retryCount) (sleep _ st2)).
Qed.

(** The calls that are left never run out: more fuel than the retries that
    remain changes nothing. *)
Lemma makeApiRequest_fuel_enough fuel extra url retryCount st :
  (MAX_RETRIES - retryCount <= fuel)%nat ->
  makeApiRequest_fuel server (fuel + extra) url retryCount st
  = makeApiRequest_fuel server fuel url retryCount st.
Proof.
  revert retryCount st.
  induction fuel as [|fuel IH]; intros retryCount st Hfuel;
    rewrite !(makeApiRequest_fuel_eq _ url retryCount st);
    destruct (hasRecentlyFailed url st) as [[] st1]; try reflexivity;
    cbv zeta;
    destruct (send server url (rateLimit st1)) as [xhr st2];
    destruct ((200 <=? status xhr) && (status xhr <? 300)); try reflexivity;
    destruct (status xhr =? 429); try reflexivity;
    destruct (retryCount <? MAX_RETRIES)%nat eqn:Hretry; try reflexivity;
    apply Nat.ltb_lt in Hretry; [lia|].
  simpl. apply IH. lia.
Qed.

End GatewayFacts.

(** C6, as the specification words it, fails: two minutes after a request
    was given up on a 429, less than ten minutes have passed since the
    record was written, and the check lets the request through. *)
Lemma retry_deadline_ends_the_skip :
  Gateway.skip_per_spec "u" Samples.twoMinutesAfter429
  /\ (Gateway.hasRecentlyFailed "u" Samples.twoMinutesAfter429).1 = false.
Proof.
  split; [|reflexivity].
  eexists. split; [vm_compute; reflexivity|].
  left. vm_compute. reflexivity.
Qed.

(** C6, amended.  The check of the failure cache stops a request, before
    any network call and leaving the gateway as it was, exactly when a
    record for the url exists, no more than ten minutes have passed since
    it was written, and the deadline of the record, if it has one, has not
    passed.  In every other case a record for the url is removed and the
    request is put on the wire. *)
Theorem failure_cache_check {JSON : Type}
    (server : nat -> string -> Gateway.Response JSON)
    (url : string) (retryCount : nat) (st : Gateway.State) :
  ((Gateway.hasRecentlyFailed url st).1 = true <-> Gateway.blocked url st)
  /\ (Gateway.blocked url st ->
      Gateway.makeApiRequest server url retryCount st
      = (Thrown (SkippedRecentFailure url), st))
  /\ (~ Gateway.blocked url st ->
      Gateway.failedRequests (Gateway.hasRecentlyFailed url st).2
      = delete url (Gateway.failedRequests st)
      /\ Gateway.sent st ++ [url]
           `prefix_of`
           Gateway.sent (Gateway.makeApiRequest server url retryCount st).2).
Proof.
  split; [apply hasRecentlyFailed_true|]. split.
  - intros Hblocked. apply hasRecentlyFailed_true in Hblocked.
    pose proof (hasRecentlyFailed_true_state url st Hblocked) as Hst.
    unfold Gateway.makeApiRequest. rewrite makeApiRequest_fuel_eq.
    destruct (Gateway.hasRecentlyFailed url st) as [failed st1].
    simpl in Hblocked, Hst. now subst.
  - intros Hfree.
    assert (Hpass : (Gateway.hasRecentlyFailed url st).1 = false).
    { apply not_true_is_false. intros H. now apply Hfree, hasRecentlyFailed_true. }
    split; [now apply hasRecentlyFailed_false|].
    now apply makeApiRequest_fuel_wire.
Qed.

Lemma failure_cache_check_witness :
  Gateway.makeApiRequest Samples.busyServer "u" 0 Samples.halfAMinuteAfter429
  = (Thrown (SkippedRecentFailure "u"), Samples.halfAMinuteAfter429)
  /\ Gateway.failedRequests
       (Gateway.hasRecentlyFailed "u" Samples.elevenMinutesAfter429).2
     = delete "u" (Gateway.failedRequests Samples.elevenMinutesAfter429).
Proof.
  split.
  - apply (proj1 (proj2 (failure_cache_check Samples.busyServer "u" 0
                           Samples.halfAMinuteAfter429))).
    eexists. split; [vm_compute; reflexivity|].
    split; [vm_compute; discriminate | reflexivity].
  - apply (proj2 (proj2 (failure_cache_check Samples.busyServer "u" 0
                           Samples.elevenMinutesAfter429))).
    intros (failedRequest & Hlookup & Hrecent & _).
    vm_compute in Hlookup. injection Hlookup as <-.
    vm_compute in Hrecent. now apply Hrecent.
Defined.



(** ** Reply-chain fetcher *)

Section SortFacts.

(** On tweets whose dates parse, the sort puts the dates in order. *)
Lemma sort_insert_sorted (x : Tweet) (l : list Tweet) :
  is_Some (created_at x) ->
  Forall (fun t => is_Some (created_at t)) l ->
  StronglySorted notLater l ->
  StronglySorted notLater (sort_insert compareCreatedAt x l).
Proof.
  intros [tx Hx] Hdates Hsorted.
  induction Hsorted as [|y l Hl IH Hy]; simpl.
  - repeat constructor.
  - apply Forall_cons in Hdates as [[ty Hty] Hdates].
    unfold cmp_gt, compareCreatedAt. rewrite Hx, Hty.
    destruct (0 <? tx - ty) eqn:Hcmp;
      [apply Z.ltb_lt in Hcmp | apply Z.ltb_ge in Hcmp].
    + constructor; [now apply IH|].
      rewrite (sort_insert_Permutation compareCreatedAt x l).
      constructor; [|exact Hy].
      unfold notLater. rewrite Hx, Hty. lia.
    + constructor; [now constructor|].
      constructor.
      * unfold notLater. rewrite Hx, Hty. lia.
      * eapply Forall_impl; [exact Hy|].
        intros z. unfold notLater. rewrite Hx, Hty.
        destruct (created_at z); [lia | tauto].
Qed.

Lemma sort_sorted (l : list Tweet) :
  Forall (fun t => is_Some (created_at t)) l ->
  StronglySorted notLater (sort compareCreatedAt l).
Proof.
  induction 1 as [|x l Hx Hl IH]; simpl; [constructor|].
  apply sort_insert_sorted; [exact Hx | | exact IH].
  now rewrite (sort_Permutation compareCreatedAt l).
Qed.

Lemma imap_set_position_sorted (l : list Tweet) (f : nat -> nat) :
  StronglySorted notLater l ->
  StronglySorted notLater (imap (fun i => set_position (f i)) l).
Proof.
  intros Hsorted. revert f.
  induction Hsorted as [|x l Hl IH Hx]; intros f; simpl; [constructor|].
  constructor; [apply (IH (f ∘ S))|].
  apply Forall_forall. intros y Hy.
  apply elem_of_lookup_imap in Hy as (i & z & -> & Hz).
  rewrite Forall_forall in Hx.
  apply (Hx z), list_elem_of_lookup. now exists i.
Qed.

End SortFacts.

Section RepliesFacts.

Import Gateway Replies.

Variable config : TwitterConfig.
Variable server : nat -> string -> Response ApiResponse.
Variable encodeURIComponent : string -> string.

Lemma filterReplies_Forall (P : Tweet -> Prop) username ids page kept :
  Forall P page ->
  (filterReplies username ids page).1 = Returned kept ->
  Forall P kept.
Proof.
  intros Hpage. revert ids kept.
  induction Hpage as [|t page Ht _ IH]; intros ids kept; simpl.
  - intros [= <-]. constructor.
  - destruct (Author.username (author t)); [|discriminate].
    repeat match goal with
           | |- context [if ?b then _ else _] => destruct b; [apply IH|]
           end.
    specialize (IH ({[id t]} ∪ ids)).
    destruct (filterReplies username ({[id t]} ∪ ids) page) as [[rest|] ids'];
      simpl in *; [|discriminate].
    intros [= <-]. constructor; [exact Ht | now apply IH].
Qed.

(** A pass through the loop leaves the replies gathered so far where they
    are and adds normalized replies to them. *)
Lemma fetchPage_allReplies tweetId username l st :
  exists found,
    allReplies (fetchPage config server encodeURIComponent tweetId username l st).1.1
    = allReplies l ++ found
    /\ Forall (fun t => thread_position t = None /\ thread_index t = None) found.
Proof.
  unfold fetchPage, catchPage, pageDone.
  destruct (replyMaxPages config <=? pageCount l)%nat;
    [exists []; now rewrite app_nil_r|].
  destruct (makeApiRequest _ _ _ _) as [[response|] st1];
    [|exists []; now rewrite app_nil_r].
  destruct (replies response) as [[|first others]|];
    try (exists []; now rewrite app_nil_r).
  pose proof (filterReplies_Forall
                (fun t => thread_position t = None /\ thread_index t = None)
                username (uniqueReplyIds l)
                (map processTweet (first :: others))) as Hkept.
  destruct (filterReplies _ _ _) as [[[|t kept]|] ids];
    try (exists []; now rewrite app_nil_r).
  exists (t :: kept). split; [reflexivity|].
  apply Hkept; [|reflexivity].
  apply Forall_forall. intros x Hx.
  apply list_elem_of_In, in_map_iff in Hx as (raw & <- & _). now split.
Qed.

Lemma fetchPages_allReplies fuel tweetId username l st :
  exists found,
    allReplies (fetchPages config server encodeURIComponent fuel tweetId username l st).1
    = allReplies l ++ found
    /\ Forall (fun t => thread_position t = None /\ thread_index t = None) found.
Proof.
  revert l st. induction fuel as [|fuel IH]; intros l st; simpl.
  - exists []. now rewrite app_nil_r.
  - destruct (fetchPage_allReplies tweetId username l st) as (found & Hl & Hfound).
    destruct (fetchPage _ _ _ _ _ _ _) as [[l1 st1] stop]. simpl in Hl.
    destruct stop; [now exists found|].
    destruct (_ && _); [|now exists found].
    destruct (IH l1 st1) as (more & Hmore & Hnone).
    exists (found ++ more). rewrite Hmore, Hl, app_assoc.
    split; [reflexivity | now apply Forall_app].
Qed.

(** The loop is over when the passes run out: a pass either counts a page,
    of which [replyMaxPages] are allowed, or counts an attempt, of which
    there are fewer than three in a row. *)
Lemma fetchPages_fuel fuel extra tweetId username l st :
  (attempts l < REPLY_MAX_ATTEMPTS)%nat ->
  (3 * (replyMaxPages config - pageCount l) + (3 - attempts l) <= fuel)%nat ->
  fetchPages config server encodeURIComponent (fuel + extra) tweetId username l st
  = fetchPages config server encodeURIComponent fuel tweetId username l st.
Proof.
  unfold REPLY_MAX_ATTEMPTS.
  revert l st. induction fuel as [|fuel IH]; intros l st Hatt Hfuel; [lia|].
  simpl.
  assert (Hstep :
    let r := fetchPage config server encodeURIComponent tweetId username l st in
    r.2 = true
    \/ (3 * (replyMaxPages config - pageCount r.1.1) + (3 - attempts r.1.1)
        < 3 * (replyMaxPages config - pageCount l) + (3 - attempts l))%nat).
  { unfold fetchPage, catchPage, pageDone.
    destruct (replyMaxPages config <=? pageCount l)%nat eqn:Hpages;
      [now left|].
    apply Nat.leb_gt in Hpages.
    repeat match goal with
           | |- context [let '(_, _) := ?x in _] => destruct x
           | |- context [match ?x with _ => _ end] => destruct x
           end; simpl; right; lia. }
  destruct (fetchPage _ _ _ _ _ _ _) as [[l1 st1] stop]. simpl in Hstep.
  destruct stop; [reflexivity|].
  destruct Hstep as [|Hless]; [discriminate|].
  destruct (truthy (continuationToken l1)); [|reflexivity]. simpl.
  destruct (attempts l1 <? REPLY_MAX_ATTEMPTS)%nat eqn:Hatt1; [|reflexivity].
  destruct (pageCount l1 <? replyMaxPages config)%nat; [|reflexivity]. simpl.
  apply Nat.ltb_lt in Hatt1. apply IH; [exact Hatt1 | lia].
Qed.

Lemma orderReplies_length l : length (orderReplies l) = length l.
Proof.
  unfold orderReplies. destruct (1 <? length l)%nat; [|reflexivity].
  now rewrite length_imap, sort_length.
Qed.

End RepliesFacts.

(** C8, as the specification words it, fails: when the fetch gathers a
    single reply, the reply is returned without a position. *)
Lemma single_reply_not_numbered :
  exists reply,
    (Replies.fetchAllReplies defaultConfig
       (Samples.repliesServer [Samples.aliceReply]) (fun token => token)
       "1" "alice" Samples.freshGateway).1 = [reply]
    /\ thread_position reply = None
    /\ thread_index reply = None.
Proof. eexists. split; [vm_compute; reflexivity | split; reflexivity]. Qed.

(** C8, amended.  When the fetch has gathered more than one reply, every
    returned reply has [thread_position] and [thread_index] equal to its
    place in the returned list, and the list is in ascending order of
    creation time, equal times allowed, provided every date parses.  A
    single reply is returned as the normalizer made it, without numbers.
    The comparison of ids is never reached: reading the time of an
    unparseable date yields NaN and does not throw. *)
Theorem fetchAllReplies_order (config : TwitterConfig)
    (server : nat -> string -> Gateway.Response ApiResponse)
    (encodeURIComponent : string -> string)
    (tweetId username : string) (st : Gateway.State) :
  let result :=
    (Replies.fetchAllReplies config server encodeURIComponent tweetId
       username st).1 in
  ((1 < length result)%nat ->
   (forall i reply,
       result !! i = Some reply ->
       thread_position reply = Some (Z.of_nat i)
       /\ thread_index reply = Some (Z.of_nat i))
   /\ (Forall (fun reply => is_Some (created_at reply)) result ->
       StronglySorted notLater result))
  /\ ((length result <= 1)%nat ->
      Forall (fun reply => thread_position reply = None
                           /\ thread_index reply = None) result).
Proof.
  unfold Replies.fetchAllReplies. cbv zeta.
  destruct (fetchPages_allReplies config server encodeURIComponent
              (3 * S (replyMaxPages config)) tweetId username
              {| Replies.allReplies := []; Replies.continuationToken := None;
                 Replies.attempts := 0; Replies.uniqueReplyIds := ∅;
                 Replies.pageCount := 0 |} st) as (found & Hfound & Hnone).
  destruct (Replies.fetchPages _ _ _ _ _ _ _ _) as [l st1].
  simpl in Hfound. cbn [fst]. rewrite Hfound. clear Hfound.
  split.
  - intros Hlen. rewrite orderReplies_length in Hlen.
    unfold Replies.orderReplies. apply Nat.ltb_lt in Hlen. rewrite Hlen.
    split.
    + intros i reply Hi. rewrite list_lookup_imap in Hi.
      destruct (sort compareCreatedAt found !! i); [|discriminate].
      injection Hi as <-. now split.
    + intros Hdates.
      apply (imap_set_position_sorted _ (fun i => i)), sort_sorted.
      rewrite <- (sort_Permutation compareCreatedAt found).
      apply Forall_forall. intros x Hx.
      apply list_elem_of_lookup in Hx as [i Hx].
      rewrite Forall_forall in Hdates.
      apply (Hdates (set_position i x)), list_elem_of_lookup.
      exists i. now rewrite list_lookup_imap, Hx.
  - intros Hlen. rewrite orderReplies_length in Hlen.
    unfold Replies.orderReplies.
    replace (1 <? length found)%nat with false
      by (symmetry; apply Nat.ltb_ge; lia).
    exact Hnone.
Qed.

Lemma fetchAllReplies_order_witness :
  let result :=
    (Replies.fetchAllReplies defaultConfig
       (Samples.repliesServer [Samples.aliceLaterReply; Samples.aliceReply])
       (fun token => token) "1" "alice" Samples.freshGateway).1 in
  (forall i reply,
      result !! i = Some reply ->
      thread_position reply = Some (Z.of_nat i)
      /\ thread_index reply = Some (Z.of_nat i))
  /\ StronglySorted notLater result.
Proof.
  intros result.
  destruct (proj1 (fetchAllReplies_order defaultConfig
              (Samples.repliesServer [Samples.aliceLaterReply; Samples.aliceReply])
              (fun token => token) "1" "alice" Samples.freshGateway))
    as [Hnumbers Hsorted].
  - vm_compute. lia.
  - split; [exact Hnumbers|]. apply Hsorted.
    vm_compute. repeat constructor; eexists; reflexivity.
Defined.

(** ** Timeline fetch orchestrator *)

Section TimelineFacts.

Import Gateway Timeline.

Variable config : TwitterConfig.
Variable server : nat -> string -> Response ApiResponse.
Variable encodeURIComponent : string -> string.

Lemma continuationLoop_eq fuel username userId maxTweets continuationToken
    continuationCount allTweets uniqueTweetIds st :
  continuationLoop config server encodeURIComponent fuel username userId
    maxTweets continuationToken continuationCount allTweets uniqueTweetIds st
  = if truthy continuationToken
       && (length allTweets <? maxTweets)%nat
       && (continuationCount <? maxContinuations config)%nat
    then
      match fuel with
      | O => (allTweets, st)
      | S fuel' =>
          match makeApiRequest server
                  (continuationUrl username (the_string continuationToken) userId)
                  0 st with
          | (Thrown _, st) => (allTweets, st)
          | (Returned continuationData, st) =>
              match filterContinuation username uniqueTweetIds
                      (processTweets continuationData) with
              | (Thrown _, _) => (allTweets, st)
              | (Returned additionalTweets, ids) =>
                  let '(allTweets, ids, st) :=
                    fetchThreads config server encodeURIComponent username
                      (firstn 5
                         (sort byReplyCountDescending
                            (List.filter (fun tweet => 2 <? reply_count tweet)
                               additionalTweets)))
                      (allTweets ++ additionalTweets) ids st in
                  continuationLoop config server encodeURIComponent fuel'
                    username userId maxTweets
                    (continuation_token continuationData)
                    (S continuationCount) allTweets ids (sleep 1500 st)
              end
          end
      end
    else (allTweets, st).
Proof. destruct fuel; reflexivity. Qed.

(** The continuation loop is over when its fuel runs out: every pass
    counts a continuation, of which [maxContinuations] are allowed. *)
Lemma continuationLoop_fuel fuel extra username userId maxTweets
    continuationToken continuationCount allTweets uniqueTweetIds st :
  (maxContinuations config - continuationCount <= fuel)%nat ->
  continuationLoop config server encodeURIComponent (fuel + extra) username
    userId maxTweets continuationToken continuationCount allTweets
    uniqueTweetIds st
  = continuationLoop config server encodeURIComponent fuel username userId
      maxTweets continuationToken continuationCount allTweets uniqueTweetIds st.
Proof.
  revert continuationToken continuationCount allTweets uniqueTweetIds st.
  induction fuel as [|fuel IH];
    intros continuationToken continuationCount allTweets uniqueTweetIds st
      Hfuel;
    rewrite !(continuationLoop_eq _ username userId maxTweets
                continuationToken continuationCount);
    destruct (truthy continuationToken); try reflexivity;
    destruct (length allTweets <? maxTweets)%nat; try reflexivity;
    destruct (continuationCount <? maxContinuations config)%nat eqn:Hcount;
    try reflexivity;
    apply Nat.ltb_lt in Hcount; [lia|].
  simpl.
  destruct (makeApiRequest _ _ _ _) as [[continuationData|] st1];
    [|reflexivity].
  destruct (filterContinuation _ _ _) as [[additionalTweets|] ids];
    [|reflexivity].
  destruct (fetchThreads _ _ _ _ _ _ _ _) as [[allTweets' ids'] st2].
  apply IH. lia.
Qed.

End TimelineFacts.

(** ** Thread grouping engine *)

Section MapFacts.

Context {V : Type}.
Implicit Types (m : list (string * V)) (k : string).

Lemma map_get_set_eq k (v : V) m : map_get k (map_set k v m) = Some v.
Proof.
  induction m as [|[k' v'] m IH]; simpl.
  - now rewrite String.eqb_refl.
  - destruct (String.eqb k k') eqn:Hk; simpl.
    + now rewrite String.eqb_refl.
    + now rewrite Hk.
Qed.

Lemma map_get_set_ne k k' (v : V) m :
  k <> k' -> map_get k' (map_set k v m) = map_get k' m.
Proof.
  intros Hne. induction m as [|[k0 v0] m IH]; simpl.
  - apply String.eqb_neq in Hne. rewrite String.eqb_sym in Hne.
    now rewrite Hne.
  - destruct (String.eqb k k0) eqn:Hk; simpl.
    + apply String.eqb_eq in Hk. subst k0.
      assert (Hk' : String.eqb k' k = false)
        by (apply String.eqb_neq; congruence).
      now rewrite Hk'.
    + now rewrite IH.
Qed.

End MapFacts.

Section GroupingFacts.

Import Grouping.

(** A loop returns when its body does, and keeps what its body keeps. *)
Lemma foldM_invariant {A S : Type} (I : S -> Prop)
    (body : S -> A -> Outcome S) (l : list A) (s : S) :
  (forall s x, I s -> exists s', body s x = Returned s' /\ I s') ->
  I s ->
  exists s', foldM body l s = Returned s' /\ I s'.
Proof.
  intros Hbody. revert s. induction l as [|x l IH]; intros s Hs; simpl.
  - now exists s.
  - destruct (Hbody s x Hs) as (s1 & -> & Hs1). simpl. now apply IH.
Qed.

Lemma foldM_returns {A S : Type} (body : S -> A -> Outcome S)
    (l : list A) (s : S) :
  (forall s x, exists s', body s x = Returned s') ->
  exists s', foldM body l s = Returned s'.
Proof.
  intros Hbody.
  destruct (foldM_invariant (fun _ => True) body l s) as (s' & Hs' & _);
    [|exact I|now exists s'].
  intros s0 x _. destruct (Hbody s0 x) as [s1 Hs1]. now exists s1.
Qed.

Lemma ensure_get {V} k (m : list (string * list V)) :
  exists v, map_get k (ensure k m) = Some v.
Proof.
  unfold ensure, map_has.
  destruct (map_get k m) as [v|] eqn:Hget.
  - now exists v.
  - exists []. apply map_get_set_eq.
Qed.

Lemma addToSet_returns k x selfThreads ids :
  map_get k selfThreads = Some ids ->
  addToSet k x selfThreads = Returned (map_set k (set_add x ids) selfThreads).
Proof. intros H. unfold addToSet. now rewrite H. Qed.

Lemma pushTo_returns k x (m : list (string * list Ref)) array :
  map_get k m = Some array ->
  pushTo k x m = Returned (map_set k (array ++ [x]) m).
Proof. intros H. unfold pushTo. now rewrite H. Qed.

Lemma collectSelfThread_returns tweetMap selfThreads tweet :
  exists selfThreads',
    collectSelfThread tweetMap selfThreads tweet = Returned selfThreads'.
Proof.
  assert (Htwice : forall k x y,
            exists r,
              (s ← addToSet k x (ensure k selfThreads); addToSet k y s)
              = Returned r).
  { intros k x y. destruct (ensure_get k selfThreads) as [ids Hids].
    rewrite (addToSet_returns _ _ _ _ Hids). simpl.
    erewrite addToSet_returns by apply map_get_set_eq. eauto. }
  unfold collectSelfThread.
  destruct (is_self_thread tweet && truthy (conversation_id tweet)).
  - destruct (_ && _).
    + apply Htwice.
    + destruct (ensure_get (the_string (conversation_id tweet)) selfThreads)
        as [ids Hids].
      rewrite (addToSet_returns _ _ _ _ Hids). simpl. eauto.
  - destruct (_ && _); [|eauto].
    destruct (tweetMap !! _) as [replyToTweet|]; [|eauto].
    destruct (opt_eqb _ _); [apply Htwice | eauto].
Qed.

Lemma pushStandalone_returns tweet threadMap :
  exists array,
    map_get "standalone" (ensure "standalone" threadMap) = Some array
    /\ pushStandalone tweet threadMap
       = Returned (map_set "standalone" (array ++ [tweet])
                     (ensure "standalone" threadMap)).
Proof.
  destruct (ensure_get "standalone" threadMap) as [array Harray].
  exists array. split; [exact Harray|].
  now apply pushTo_returns.
Qed.

Lemma buildReplyMap_returns threadMembers :
  exists replyMap, buildReplyMap threadMembers = Returned replyMap.
Proof.
  apply foldM_returns. intros replyMap t.
  destruct (truthy (in_reply_to_tweet_id t.2)); [|eauto].
  destruct (ensure_get (the_string (in_reply_to_tweet_id t.2)) replyMap)
    as [array Harray].
  rewrite (pushTo_returns _ _ _ _ Harray). eauto.
Qed.

Lemma findReplies_returns levels replyMap tweetId processedIds :
  exists found, findReplies levels replyMap tweetId processedIds = Returned found.
Proof.
  revert tweetId processedIds.
  induction levels as [|levels IH]; intros tweetId processedIds; simpl;
    [eauto|].
  unfold map_has.
  destruct (map_get tweetId replyMap) as [replies|]; simpl; [|eauto].
  apply foldM_returns. intros acc reply.
  destruct (bool_decide _); [eauto|].
  destruct (IH (id reply.2) ({[id reply.2]} ∪ acc.2)) as [found ->].
  simpl. eauto.
Qed.

Lemma storeThread_returns threadId thread processedIds m :
  exists m', storeThread threadId thread processedIds m = Returned m'.
Proof.
  unfold storeThread. destruct (1 <? length thread)%nat; [eauto|].
  destruct thread as [|single [|]]; [eauto| |eauto].
  destruct (pushStandalone_returns single (threadMap m)) as (array & _ & ->).
  simpl. eauto.
Qed.

Lemma groupRemaining_returns tweetMap objects m tweet :
  exists m', groupRemaining tweetMap objects m tweet = Returned m'.
Proof.
  unfold groupRemaining. destruct (bool_decide _); [eauto|]. cbv zeta.
  destruct (length _ <=? 1)%nat.
  - destruct (pushStandalone_returns tweet (threadMap m)) as (array & _ & ->).
    simpl. eauto.
  - destruct (buildReplyMap_returns
                (List.filter
                   (isThreadMember tweetMap (processedIds m)
                      (the_string
                         (or_else (conversation_id tweet.2)
                            (or_else (thread_id tweet.2) (Some (id tweet.2)))))
                      tweet.2) objects)) as [replyMap ->].
    simpl.
    assert (Hroot : forall rootTweet : Ref,
              exists m',
                (replies ← findReplies 11 replyMap (id rootTweet.2)
                             ({[id rootTweet.2]} ∪ processedIds m);
                 storeThread
                   (the_string
                      (or_else (conversation_id tweet.2)
                         (or_else (thread_id tweet.2) (Some (id tweet.2)))))
                   (rootTweet :: replies.1) replies.2 m) = Returned m').
    { intros rootTweet.
      destruct (findReplies_returns 11 replyMap (id rootTweet.2)
                  ({[id rootTweet.2]} ∪ processedIds m)) as [found ->].
      simpl. apply storeThread_returns. }
    destruct (List.find _ _) as [rootTweet|]; [apply Hroot|].
    destruct (head _) as [rootTweet|]; [apply Hroot|].
    apply storeThread_returns.
Qed.

Lemma sweepUnprocessed_returns m tweet :
  exists m', sweepUnprocessed m tweet = Returned m'.
Proof.
  unfold sweepUnprocessed. destruct (bool_decide _); [eauto|].
  destruct (pushStandalone_returns tweet (threadMap m)) as (array & _ & ->).
  simpl. eauto.
Qed.

Lemma groupMaps_returns tweets : exists m, groupMaps tweets = Returned m.
Proof.
  unfold groupMaps. cbv zeta.
  destruct (foldM_returns (collectSelfThread (buildTweetMap (imap pair tweets)))
              tweets [] (collectSelfThread_returns _)) as [selfThreads ->].
  simpl.
  match goal with
  | |- context [foldM (groupRemaining ?tm ?objs) ?l ?m0] =>
      destruct (foldM_returns (groupRemaining tm objs) l m0
                  (groupRemaining_returns tm objs)) as [m1 ->]
  end.
  simpl. apply foldM_returns, sweepUnprocessed_returns.
Qed.

Lemma emit_threads_have_two positions result entry :
  threads_have_two result ->
  exists result',
    emit positions result entry = Returned result'
    /\ threads_have_two result'.
Proof.
  intros Hresult. destruct entry as [key refs]. unfold emit.
  destruct (String.eqb key "standalone").
  - eexists. split; [reflexivity|]. intros thread Hin.
    apply elem_of_app in Hin as [Hin|Hin]; [now apply Hresult|].
    apply list_elem_of_In, in_map_iff in Hin as (t & [=] & _).
  - destruct (1 <? length (map (read positions) refs))%nat eqn:Hlen;
      [|now exists result].
    apply Nat.ltb_lt in Hlen.
    destruct (map (read positions) refs) as [|first rest] eqn:Htweets;
      [simpl in Hlen; lia|].
    simpl. eexists. split; [reflexivity|]. intros thread Hin.
    apply elem_of_app in Hin as [Hin|Hin]; [now apply Hresult|].
    apply list_elem_of_singleton in Hin. injection Hin as ->. simpl in *. lia.
Qed.

Lemma groupThreads_returns tweets :
  exists items,
    groupThreads tweets = Returned items /\ threads_have_two items.
Proof.
  unfold groupThreads.
  destruct (groupMaps_returns tweets) as [m ->]. simpl.
  destruct (foldM_invariant threads_have_two (emit (positions m))
              (threadMap m) []) as (result & -> & Hresult).
  - intros result entry. apply emit_threads_have_two.
  - intros thread Hin. now apply elem_of_nil in Hin.
  - simpl. eexists. split; [reflexivity|].
    intros thread Hin. apply Hresult. now apply sort_elem_of in Hin.
Qed.

End GroupingFacts.

(** C1 fails on the code.  On a chain of three tweets by one author whose
    conversation ids are the tweets they reply to, the self-thread pass
    builds one thread per conversation id and puts the middle tweet in
    both: the pass marks the tweets it places and never looks at the
    marks. *)
Lemma groupThreads_repeats_a_post :
  exists first second,
    Grouping.groupThreads Samples.replyChain
    = Returned [ThreadItem first; ThreadItem second]
    /\ Thread.id first = "2"
    /\ map id (Thread.tweets first) = ["2"; "3"]
    /\ Thread.id second = "1"
    /\ map id (Thread.tweets second) = ["1"; "2"].
Proof.
  eexists. eexists. split; [vm_compute; reflexivity|].
  repeat split; reflexivity.
Qed.

(** C2 fails on the code.  Three tweets with distinct ids carry the
    conversation id [standalone].  Nothing answers the first: the residual
    pass finds it alone in its group and appends it to the standalone
    tweets, which [threadMap] keeps under the key [standalone].  The other
    two make a thread, and the pass stores it under its conversation id,
    the same key: the entry of the standalone tweets is replaced.  The
    first tweet is in no element of the result, and the other two come
    out as standalone tweets. *)
Lemma groupThreads_drops_demoted_post :
  let objects := imap pair MoreSamples.standaloneClash in
  let start :=
    {| Grouping.threadMap := []; Grouping.processedIds := ∅;
       Grouping.positions := ∅ |} in
  NoDup (map id MoreSamples.standaloneClash)
  /\ (exists first m,
        head objects = Some first
        /\ id first.2 = "1"
        /\ Grouping.groupRemaining (Grouping.buildTweetMap objects) objects
             start first
           = Returned m
        /\ Grouping.threadMap m = [("standalone", [first])])
  /\ exists second third,
       Grouping.groupThreads MoreSamples.standaloneClash
       = Returned [TweetItem third; TweetItem second]
       /\ id third = "3" /\ id second = "2".
Proof.
  intros objects start. split; [|split].
  - apply (bool_decide_unpack _). vm_compute. exact I.
  - eexists. eexists. split; [reflexivity|]. split; [reflexivity|].
    split; [vm_compute; reflexivity | reflexivity].
  - eexists. eexists. split; [vm_compute; reflexivity|]. now split.
Qed.

(** C9.  The promise [fetchUserTweets] returns always resolves with a
    list, the empty one whenever something is thrown inside its [try]
    block, and [groupThreads] returns a result for every list of tweets:
    none of the lookups it relies on comes back undefined. *)
Theorem no_exception_escapes (config : TwitterConfig)
    (server : nat -> string -> Gateway.Response ApiResponse)
    (encodeURIComponent : string -> string)
    (username : string) (options : option Timeline.Options)
    (w : Timeline.World) (tweets : list Tweet) :
  (exists fetched,
      (Timeline.fetchUserTweets config server encodeURIComponent username
         options w).1 = Returned fetched
      /\ forall error,
           (Timeline.fetchUserTweets_try config server encodeURIComponent
              username options w).1 = Thrown error ->
           fetched = [])
  /\ (exists items, Grouping.groupThreads tweets = Returned items).
Proof.
  split.
  - unfold Timeline.fetchUserTweets.
    destruct (Timeline.fetchUserTweets_try _ _ _ _ _ _) as [[fetched|error] w'];
      simpl.
    + exists fetched. split; [reflexivity | discriminate].
    + exists []. split; reflexivity.
  - destruct (groupThreads_returns tweets) as (items & Hitems & _).
    now exists items.
Qed.

Lemma no_exception_escapes_witness :
  (Timeline.fetchUserTweets defaultConfig Samples.downServer
     (fun token => token) "alice" None Samples.freshWorld).1 = Returned [].
Proof.
  destruct (proj1 (no_exception_escapes defaultConfig Samples.downServer
                     (fun token => token) "alice" None Samples.freshWorld []))
    as (fetched & Hfetched & Hempty).
  rewrite Hfetched. f_equal. apply (Hempty (ApiError 500)). reflexivity.
Defined.

(** C10 fails on the code.  Four tweets with distinct ids share one
    conversation id; the residual pass builds the thread of the first two,
    stores it under the conversation id, then builds the thread of the
    last two and stores it under the same key.  The first two tweets are
    in no element of the result. *)
Lemma groupThreads_drops_posts :
  NoDup (map id Samples.twoChains)
  /\ exists thread,
       Grouping.groupThreads Samples.twoChains = Returned [ThreadItem thread]
       /\ map id (Thread.tweets thread) = ["3"; "4"].
Proof.
  split.
  - apply (bool_decide_unpack _). vm_compute. exact I.
  - eexists. split; [vm_compute; reflexivity | reflexivity].
Qed.

(** The scenarios of the specification: the flagged reply and the tweet
    it answers make one thread, in order, under the conversation id; a
    lone tweet stays a standalone tweet, unchanged. *)
Example groupThreads_scenario :
  exists thread,
    Grouping.groupThreads Samples.scenario = Returned [ThreadItem thread]
    /\ Thread.id thread = "c1"
    /\ map id (Thread.tweets thread) = ["1"; "2"]
    /\ map thread_position (Thread.tweets thread) = [Some 0; Some 1].
Proof.
  eexists. split; [vm_compute; reflexivity|]. repeat split; reflexivity.
Qed.

Example groupThreads_lone_tweet :
  Grouping.groupThreads [Samples.post "1" 1000 None None None false]
  = Returned [TweetItem (Samples.post "1" 1000 None None None false)].
Proof. vm_compute. reflexivity. Qed.

(** * Further properties of the code *)

(** ** Request gateway: throttle, failure records, retries *)

Section GatewayMore.

Import Gateway.

Context {JSON : Type}.
Variable server : nat -> string -> Response JSON.

Lemma rateLimit_clock (st : State) : clock st <= clock (rateLimit st).
Proof.
  unfold rateLimit, sleep. simpl.
  destruct (clock st - lastApiCallTime st <? MIN_API_CALL_INTERVAL); simpl; lia.
Qed.

(** The throttle.  A call that comes out of [rateLimit] starts no earlier
    than two seconds after the previous one, the clock never goes back, and
    the call is remembered as the last one; two throttled calls with a
    pause in between start two seconds apart, or the pause apart when that
    is longer. *)
Theorem rateLimit_spacing (st : State) (pause : Z) :
  lastApiCallTime st + MIN_API_CALL_INTERVAL <= clock (rateLimit st)
  /\ clock st <= clock (rateLimit st)
  /\ lastApiCallTime (rateLimit st) = clock (rateLimit st)
  /\ clock (rateLimit (sleep pause (rateLimit st)))
     = clock (rateLimit st) + Z.max MIN_API_CALL_INTERVAL pause.
Proof.
  unfold rateLimit, sleep, MIN_API_CALL_INTERVAL; simpl.
  destruct (clock st - lastApiCallTime st <? 2000) eqn:H1;
    [apply Z.ltb_lt in H1 | apply Z.ltb_ge in H1]; simpl;
    repeat split; try lia;
    match goal with
    | |- context [?a - ?b <? 2000] =>
        destruct (a - b <? 2000) eqn:H2;
        [apply Z.ltb_lt in H2 | apply Z.ltb_ge in H2]; simpl; lia
    end.
Qed.

(** A new failure record sweeps the cache: afterwards no record is older
    than ten minutes, the records of other urls that are not older are
    kept as they were, and the older ones are gone. *)
Theorem recordFailedRequest_sweeps (url : string) (code : Z)
    (retryAfter : option Z) (st : State) :
  (forall k failedRequest,
      failedRequests (recordFailedRequest url code retryAfter st) !! k
      = Some failedRequest ->
      clock st - timestamp failedRequest <= FAILED_REQUEST_EXPIRY)
  /\ (forall k,
        k <> url ->
        failedRequests (recordFailedRequest url code retryAfter st) !! k
        = match failedRequests st !! k with
          | Some failedRequest =>
              if clock st - timestamp failedRequest <=? FAILED_REQUEST_EXPIRY
              then Some failedRequest
              else None
          | None => None
          end).
Proof.
  unfold recordFailedRequest. simpl. split.
  - intros k failedRequest Hk.
    apply map_lookup_filter_Some in Hk as [_ Hfresh]. exact Hfresh.
  - intros k Hne. rewrite map_lookup_filter, lookup_insert_ne by congruence.
    destruct (failedRequests st !! k) as [failedRequest|]; [|reflexivity].
    simpl. destruct (clock st - timestamp failedRequest <=? _) eqn:Hfresh;
      [apply Z.leb_le in Hfresh | apply Z.leb_gt in Hfresh].
    + now rewrite option_guard_True.
    + rewrite option_guard_False; [reflexivity | simpl; lia].
Qed.

(** How long a failure that was given up on keeps the url blocked: a 429
    for sixty seconds, any other status for ten minutes, both ends
    included. *)
Theorem giveUp_blocks_for (url : string) (code : Z) (st : State)
    (elapsed : Z) :
  0 <= clock st ->
  0 <= elapsed ->
  (hasRecentlyFailed url
     (sleep elapsed (giveUp (JSON := JSON) url code st).2)).1
  = (elapsed <=? (if code =? 429 then 60000 else FAILED_REQUEST_EXPIRY)).
Proof.
  intros Hclock Helapsed. unfold giveUp. cbn [snd].
  assert (Hlook : forall retryAfter,
            failedRequests
              (sleep elapsed (recordFailedRequest url code retryAfter st)) !! url
            = failedRequests (recordFailedRequest url code retryAfter st) !! url)
    by reflexivity.
  assert (Hclk : forall retryAfter,
            clock (sleep elapsed (recordFailedRequest url code retryAfter st))
            = clock st + elapsed)
    by (intros; simpl; f_equal; lia).
  unfold FAILED_REQUEST_EXPIRY.
  destruct (code =? 429); unfold hasRecentlyFailed;
    rewrite Hlook, recordFailedRequest_lookup, Hclk; cbn [timestamp retryAfter];
    unfold FAILED_REQUEST_EXPIRY, deadlinePassed.
  - change (60000 =? 0) with false. cbv iota.
    destruct (10 * 60 * 1000 <? clock st + elapsed - clock st) eqn:H1;
      [apply Z.ltb_lt in H1 | apply Z.ltb_ge in H1].
    + simpl. symmetry. apply Z.leb_gt. lia.
    + replace (clock st + 60000 =? 0) with false
        by (symmetry; apply Z.eqb_neq; lia).
      simpl.
      destruct (clock st + 60000 <? clock st + elapsed) eqn:H2;
        [apply Z.ltb_lt in H2 | apply Z.ltb_ge in H2]; simpl; symmetry;
        [apply Z.leb_gt | apply Z.leb_le]; lia.
  - destruct (10 * 60 * 1000 <? clock st + elapsed - clock st) eqn:H1;
      [apply Z.ltb_lt in H1 | apply Z.ltb_ge in H1]; simpl; symmetry;
      [apply Z.leb_gt | apply Z.leb_le]; lia.
Qed.

End GatewayMore.

Lemma giveUp_blocks_for_witness :
  (Gateway.hasRecentlyFailed "u"
     (Gateway.sleep 60000
        (Gateway.giveUp (JSON := unit) "u" 429 Samples.freshGateway).2)).1
  = true
  /\ (Gateway.hasRecentlyFailed "u"
        (Gateway.sleep 60001
           (Gateway.giveUp (JSON := unit) "u" 500 Samples.freshGateway).2)).1
     = true.
Proof.
  split.
  - apply (giveUp_blocks_for (JSON := unit) "u" 429 Samples.freshGateway 60000);
      [vm_compute; discriminate | lia].
  - apply (giveUp_blocks_for (JSON := unit) "u" 500 Samples.freshGateway 60001);
      [vm_compute; discriminate | lia].
Defined.

Section GatewayRetries.

Import Gateway.

Context {JSON : Type}.
Variable server : nat -> string -> Response JSON.

Lemma makeApiRequest_fuel_sends fuel url retryCount st :
  exists n,
    (n <= S fuel)%nat
    /\ sent (makeApiRequest_fuel server fuel url retryCount st).2
       = sent st ++ repeat url n.
Proof.
  revert retryCount st.
  induction fuel as [|fuel IH]; intros retryCount st;
    rewrite makeApiRequest_fuel_eq;
    pose proof (hasRecentlyFailed_sent url st) as Hsent;
    destruct (hasRecentlyFailed url st) as [[] st1]; simpl in Hsent;
    try (exists 0%nat; split; [lia | simpl; now rewrite Hsent, app_nil_r]);
    cbv zeta;
    pose proof (send_sent server url (rateLimit st1)) as Hsend;
    rewrite rateLimit_sent, Hsent in Hsend;
    destruct (send server url (rateLimit st1)) as [xhr st2];
    change (sent st2 = sent st ++ [url]) in Hsend;
    repeat match goal with
           | |- context [if ?b then _ else _] => destruct b
           | |- context [match parsed ?x with _ => _ end] => destruct (parsed x)
           end;
    rewrite ?giveUp_sent;
    try (exists 1%nat; split; [lia | exact Hsend]).
  destruct (IH (S retryCount) (sleep (RETRY_DELAY * 2 ^ Z.of_nat retryCount) st2))
    as (n & Hn & Hsent').
  exists (S n). split; [lia|].
  rewrite Hsent'. change (sent (sleep _ st2)) with (sent st2).
  rewrite Hsend, <- app_assoc. reflexivity.
Qed.

(** One call of [makeApiRequest] puts at most three requests on the wire,
    one more than the retries that are left, and all of them go to the
    url of the call. *)
Theorem makeApiRequest_sends (url : string) (retryCount : nat) (st : State) :
  exists n,
    (n <= S (MAX_RETRIES - retryCount))%nat
    /\ sent (makeApiRequest server url retryCount st).2
       = sent st ++ repeat url n.
Proof. apply makeApiRequest_fuel_sends. Qed.

Lemma hasRecentlyFailed_absent url st :
  failedRequests st !! url = None -> hasRecentlyFailed url st = (false, st).
Proof. intros H. unfold hasRecentlyFailed. now rewrite H. Qed.

(** Against an upstream that answers 429 to everything, a request to a url
    without a failure record is made three times, with waits of three and
    six seconds after the first two, and then fails with the 429.  The url
    is blocked from that moment: the same request made again at once fails
    without a network call. *)
Theorem makeApiRequest_rate_limited (url : string) (st : State) :
  (forall n u, status (server n u) = 429) ->
  failedRequests st !! url = None ->
  0 <= clock st ->
  exists st',
    makeApiRequest server url 0 st = (Thrown (ApiError 429), st')
    /\ sent st' = sent st ++ [url; url; url]
    /\ clock st + 9000 <= clock st'
    /\ makeApiRequest server url 0 st'
       = (Thrown (SkippedRecentFailure url), st').
Proof.
  intros Hbusy Habsent Hclock.
  assert (Hstep : forall fuel retryCount st0,
            failedRequests st0 !! url = None ->
            (retryCount < MAX_RETRIES)%nat ->
            makeApiRequest_fuel server (S fuel) url retryCount st0
            = makeApiRequest_fuel server fuel url (S retryCount)
                (sleep (RETRY_DELAY * 2 ^ Z.of_nat retryCount)
                   (send server url (rateLimit st0)).2)).
  { intros fuel retryCount st0 Hnone Hretry.
    rewrite makeApiRequest_fuel_eq, (hasRecentlyFailed_absent _ _ Hnone).
    cbv zeta.
    destruct (send server url (rateLimit st0)) as [xhr st2] eqn:Hsend.
    assert (Hx : status xhr = 429).
    { unfold send in Hsend. injection Hsend as <- _. apply Hbusy. }
    rewrite Hx. apply Nat.ltb_lt in Hretry. rewrite Hretry. reflexivity. }
  assert (Hkeep : forall st0 delay,
            failedRequests st0 !! url = None ->
            failedRequests
              (sleep delay (send server url (rateLimit st0)).2) !! url = None).
  { intros st0 delay Hnone.
    change (failedRequests (rateLimit st0) !! url = None).
    now rewrite rateLimit_failedRequests. }
  assert (Hwire : forall st0 delay,
            sent (sleep delay (send server url (rateLimit st0)).2)
            = sent st0 ++ [url]).
  { intros st0 delay.
    change (sent (rateLimit st0) ++ [url] = sent st0 ++ [url]).
    now rewrite rateLimit_sent. }
  assert (Htime : forall st0 delay,
            0 <= delay ->
            clock st0 + delay
            <= clock (sleep delay (send server url (rateLimit st0)).2)).
  { intros st0 delay Hdelay.
    pose proof (rateLimit_clock st0) as Hmono.
    change (clock st0 + delay
            <= clock (rateLimit st0)
               + Z.max 0 (latency (server (length (sent (rateLimit st0))) url))
               + Z.max 0 delay).
    lia. }
  unfold makeApiRequest, MAX_RETRIES. cbn [Nat.sub].
  rewrite (Hstep 1%nat 0%nat st Habsent) by (unfold MAX_RETRIES; lia).
  set (st1 := sleep (RETRY_DELAY * 2 ^ Z.of_nat 0)
                (send server url (rateLimit st)).2).
  assert (Hnone1 : failedRequests st1 !! url = None) by now apply Hkeep.
  rewrite (Hstep 0%nat 1%nat st1 Hnone1) by (unfold MAX_RETRIES; lia).
  set (st2 := sleep (RETRY_DELAY * 2 ^ Z.of_nat 1)
                (send server url (rateLimit st1)).2).
  assert (Hnone2 : failedRequests st2 !! url = None) by now apply Hkeep.
  rewrite !makeApiRequest_fuel_eq, (hasRecentlyFailed_absent _ _ Hnone2).
  cbv zeta.
  destruct (send server url (rateLimit st2)) as [xhr st3] eqn:Hsend.
  assert (Hx : status xhr = 429).
  { unfold send in Hsend. injection Hsend as <- _. apply Hbusy. }
  assert (Hsent3 : sent st3 = sent st2 ++ [url]).
  { pose proof (send_sent server url (rateLimit st2)) as H.
    rewrite Hsend, rateLimit_sent in H. exact H. }
  assert (Hclock3 : clock st2 <= clock st3).
  { pose proof (rateLimit_clock st2) as Hmono.
    unfold send in Hsend. injection Hsend as _ <-.
    change (clock st2
            <= clock (rateLimit st2)
               + Z.max 0 (latency (server (length (sent (rateLimit st2))) url))).
    lia. }
  rewrite Hx. change ((200 <=? 429) && (429 <? 300)) with false.
  change ((429 =? 429) && (2 <? MAX_RETRIES)%nat) with false. cbv iota.
  unfold giveUp. change (429 =? 429) with true. cbv iota.
  eexists. split; [reflexivity|].
  assert (Hclock1 : clock st + 3000 <= clock st1)
    by (apply (Htime st (RETRY_DELAY * 2 ^ Z.of_nat 0)); vm_compute; discriminate).
  assert (Hclock2 : clock st1 + 6000 <= clock st2)
    by (apply (Htime st1 (RETRY_DELAY * 2 ^ Z.of_nat 1)); vm_compute; discriminate).
  split; [|split].
  - change (sent (recordFailedRequest url 429 (Some 60000) st3)) with (sent st3).
    rewrite Hsent3. unfold st2. rewrite Hwire. unfold st1. rewrite Hwire.
    now rewrite <- !app_assoc.
  - change (clock (recordFailedRequest url 429 (Some 60000) st3))
      with (clock st3). lia.
  - set (st4 := recordFailedRequest url 429 (Some 60000) st3).
    assert (Hblocked : blocked url st4).
    { eexists. split; [apply recordFailedRequest_lookup|].
      change (clock st4) with (clock st3). cbn [timestamp retryAfter].
      split; [unfold FAILED_REQUEST_EXPIRY; lia|].
      change (60000 =? 0) with false. cbv iota. unfold deadlinePassed.
      replace (clock st3 + 60000 <? clock st3) with false
        by (symmetry; apply Z.ltb_ge; lia).
      now rewrite andb_false_r. }
    apply hasRecentlyFailed_true in Hblocked.
    pose proof (hasRecentlyFailed_true_state url st4 Hblocked) as Hstate.
    rewrite makeApiRequest_fuel_eq.
    destruct (hasRecentlyFailed url st4) as [failed st5].
    simpl in Hblocked, Hstate. now subst.
Qed.

End GatewayRetries.

Lemma makeApiRequest_rate_limited_witness :
  exists st',
    Gateway.makeApiRequest Samples.busyServer "u" 0 Samples.freshGateway
    = (Thrown (ApiError 429), st')
    /\ Gateway.sent st' = ["u"; "u"; "u"]
    /\ Gateway.makeApiRequest Samples.busyServer "u" 0 st'
       = (Thrown (SkippedRecentFailure "u"), st').
Proof.
  destruct (makeApiRequest_rate_limited Samples.busyServer "u"
              Samples.freshGateway)
    as (st' & Hrun & Hsent & _ & Hagain).
  - reflexivity.
  - reflexivity.
  - vm_compute. discriminate.
  - exists st'. split; [exact Hrun|]. split; [exact Hsent | exact Hagain].
Defined.

(** ** Reply-chain fetcher: what a fetch returns *)

Section RepliesMore.

Import Gateway Replies.

Variable config : TwitterConfig.
Variable server : nat -> string -> Response ApiResponse.
Variable encodeURIComponent : string -> string.

(** What the filter of a page keeps: tweets by the user, with ids that
    were not seen before and do not repeat, all of which are seen
    afterwards; nothing seen before is forgotten, throw or not. *)
Lemma filterReplies_spec username ids page :
  let r := filterReplies username ids page in
  ids ⊆ r.2
  /\ forall kept,
       r.1 = Returned kept ->
       NoDup (map id kept)
       /\ Forall (fun t => passesAuthorFilter username t = true
                           /\ (id t ∉ ids) /\ (id t ∈ r.2)) kept.
Proof.
  revert ids. induction page as [|t page IH]; intros ids; simpl.
  - split; [reflexivity|]. intros kept [= <-]. split; constructor.
  - destruct (Author.username (author t)) as [name|] eqn:Hname;
      [|split; [reflexivity | discriminate]].
    destruct (String.eqb (lowerName name) (lowerName username)) eqn:Hauthor;
      simpl; [|apply IH].
    destruct (bool_decide (id t ∈ ids)) eqn:Hseen; [apply IH|].
    destruct (mentionsAnotherUser (tweetText t) username) eqn:Hmention;
      [apply IH|].
    apply bool_decide_eq_false in Hseen.
    specialize (IH ({[id t]} ∪ ids)). cbv zeta in IH.
    destruct (filterReplies username ({[id t]} ∪ ids) page) as [rest ids'].
    simpl in IH |- *. destruct IH as [Hsub IH].
    split; [intros x Hx; apply Hsub, elem_of_union; now right|].
    intros kept Hkept. destruct rest as [rest|]; [|discriminate].
    injection Hkept as <-. destruct (IH rest eq_refl) as [Hnodup Hall].
    split.
    + simpl. constructor; [|exact Hnodup].
      intros Hin. apply list_elem_of_In, in_map_iff in Hin as (x & Hx & Hin).
      rewrite Forall_forall in Hall.
      apply list_elem_of_In, Hall in Hin as (_ & Hfresh & _).
      rewrite Hx in Hfresh. apply Hfresh, elem_of_union. left.
      now apply elem_of_singleton.
    + constructor.
      * unfold passesAuthorFilter. rewrite Hname, Hauthor, Hmention.
        repeat split; [exact Hseen|].
        apply Hsub, elem_of_union. left. now apply elem_of_singleton.
      * eapply Forall_impl; [exact Hall|].
        intros x (Hby & Hfresh & Hnow).
        repeat split; [exact Hby | | exact Hnow].
        intros Hx. apply Hfresh, elem_of_union. now right.
Qed.

Lemma gathered_more username l found ids token n k :
  gathered username l ->
  uniqueReplyIds l ⊆ ids ->
  NoDup (map id found) ->
  Forall (fun t => passesAuthorFilter username t = true
                   /\ (id t ∉ uniqueReplyIds l) /\ (id t ∈ ids)) found ->
  gathered username
    {| allReplies := allReplies l ++ found; continuationToken := token;
       attempts := n; uniqueReplyIds := ids; pageCount := k |}.
Proof.
  intros [Hnodup Hall] Hsub Hfound Hfresh. split; simpl.
  - rewrite map_app. apply NoDup_app. split; [exact Hnodup|].
    split; [|exact Hfound].
    intros x Hx Hx'.
    apply list_elem_of_In, in_map_iff in Hx as (a & <- & Ha).
    apply list_elem_of_In, in_map_iff in Hx' as (b & Hab & Hb).
    rewrite Forall_forall in Hall, Hfresh.
    apply list_elem_of_In, Hall in Ha as [_ Ha].
    apply list_elem_of_In, Hfresh in Hb as (_ & Hb & _).
    rewrite Hab in Hb. contradiction.
  - apply Forall_app. split.
    + eapply Forall_impl; [exact Hall|]. intros x [Hby Hin].
      split; [exact Hby | now apply Hsub].
    + eapply Forall_impl; [exact Hfresh|]. intros x (Hby & _ & Hin). now split.
Qed.

Lemma fetchPage_gathered tweetId username l st :
  gathered username l ->
  gathered username
    (fetchPage config server encodeURIComponent tweetId username l st).1.1.
Proof.
  intros Hl.
  assert (Hsame : forall ids token n k,
            uniqueReplyIds l ⊆ ids ->
            gathered username
              {| allReplies := allReplies l ++ []; continuationToken := token;
                 attempts := n; uniqueReplyIds := ids; pageCount := k |}).
  { intros. apply gathered_more; try assumption; constructor. }
  assert (Hsame' : forall ids token n k,
            uniqueReplyIds l ⊆ ids ->
            gathered username
              {| allReplies := allReplies l; continuationToken := token;
                 attempts := n; uniqueReplyIds := ids; pageCount := k |}).
  { intros ids token n k Hsub. specialize (Hsame ids token n k Hsub).
    now rewrite app_nil_r in Hsame. }
  unfold fetchPage, catchPage, pageDone.
  destruct (replyMaxPages config <=? pageCount l)%nat; [exact Hl|].
  destruct (makeApiRequest _ _ _ _) as [[response|] st1];
    [|now apply Hsame'].
  destruct (replies response) as [[|first others]|];
    try (cbn [fst]; now apply Hsame).
  pose proof (filterReplies_spec username (uniqueReplyIds l)
                (map processTweet (first :: others))) as Hspec.
  cbv zeta in Hspec.
  destruct (filterReplies _ _ _) as [[[|t kept]|] ids];
    cbn [fst snd] in Hspec |- *; destruct Hspec as [Hsub Hkept];
    try (now apply Hsame); try (now apply Hsame').
  destruct (Hkept (t :: kept) eq_refl) as [Hnodup Hall].
  now apply gathered_more.
Qed.

Lemma fetchPages_gathered fuel tweetId username l st :
  gathered username l ->
  gathered username
    (fetchPages config server encodeURIComponent fuel tweetId username l st).1.
Proof.
  revert l st. induction fuel as [|fuel IH]; intros l st Hl; simpl;
    [exact Hl|].
  pose proof (fetchPage_gathered tweetId username l st Hl) as Hstep.
  destruct (fetchPage _ _ _ _ _ _ _) as [[l1 st1] stop]. simpl in Hstep.
  destruct stop; [exact Hstep|].
  destruct (_ && _); [now apply IH | exact Hstep].
Qed.

Lemma mentionsAnotherUser_eq text username :
  mentionsAnotherUser text username
  = opensWithMention text && negb (startsWith text (64 :: utf16 username)).
Proof.
  unfold mentionsAnotherUser, opensWithMention.
  destruct text as [|c0 text]; [reflexivity|].
  destruct c0 as [|q|q]; try reflexivity.
  repeat (destruct q as [q|q|]; try reflexivity).
  destruct text; reflexivity.
Qed.

Lemma passesAuthorFilter_letThrough username t :
  passesAuthorFilter username t = true <-> letThrough username t.
Proof.
  unfold passesAuthorFilter, letThrough. rewrite mentionsAnotherUser_eq.
  destruct (Author.username (author t)) as [name|].
  - rewrite andb_true_iff, String.eqb_eq. split.
    + intros [Hname Htext]. split; [now exists name|]. intros Hopens.
      rewrite Hopens in Htext.
      now destruct (startsWith (tweetText t) (64 :: utf16 username)).
    + intros [(name' & [= <-] & Hname) Htext]. split; [exact Hname|].
      destruct (opensWithMention (tweetText t)); [|reflexivity].
      now rewrite Htext.
  - split; [discriminate|]. now intros [(name & [=] & _) _].
Qed.

Lemma passesAuthorFilter_set_position username i t :
  passesAuthorFilter username (set_position i t) = passesAuthorFilter username t.
Proof. reflexivity. Qed.

Lemma orderReplies_ids l :
  Permutation (map id (orderReplies l)) (map id l).
Proof.
  unfold orderReplies. destruct (1 <? length l)%nat; [|reflexivity].
  rewrite <- (sort_Permutation compareCreatedAt l) at 2.
  generalize (sort compareCreatedAt l). intros sorted.
  assert (H : forall (f : nat -> nat),
             map id (imap (fun i => set_position (f i)) sorted) = map id sorted).
  { induction sorted as [|x sorted IH]; intros f; simpl; [reflexivity|].
    f_equal. apply (IH (f ∘ S)). }
  replace (map id (imap set_position sorted)) with (map id sorted)
    by (symmetry; apply (H (fun i => i))).
  reflexivity.
Qed.

Lemma orderReplies_Forall (P : Tweet -> Prop) l :
  (forall i t, P t -> P (set_position i t)) ->
  Forall P l -> Forall P (orderReplies l).
Proof.
  intros Hset Hl. unfold orderReplies.
  destruct (1 <? length l)%nat; [|exact Hl].
  apply Forall_forall. intros x Hx.
  apply elem_of_lookup_imap in Hx as (i & y & -> & Hy).
  apply Hset. rewrite Forall_forall in Hl. apply Hl.
  apply (sort_elem_of compareCreatedAt), list_elem_of_lookup. now exists i.
Qed.

Lemma fetchAllReplies_spec (tweetId username : string) (st : State) :
  let result :=
    (fetchAllReplies config server encodeURIComponent tweetId username st).1 in
  NoDup (map id result)
  /\ Forall (fun reply => passesAuthorFilter username reply = true) result.
Proof.
  unfold fetchAllReplies. cbv zeta.
  pose proof (fetchPages_gathered (3 * S (replyMaxPages config)) tweetId
                username
                {| allReplies := []; continuationToken := None; attempts := 0;
                   uniqueReplyIds := ∅; pageCount := 0 |} st) as Hl.
  destruct (fetchPages _ _ _ _ _ _ _ _) as [l st1]. cbn [fst] in Hl |- *.
  destruct Hl as [Hnodup Hall]; [split; constructor|].
  split.
  - now rewrite orderReplies_ids.
  - apply orderReplies_Forall; [intros; assumption|].
    eapply Forall_impl; [exact Hall|]. now intros x [Hby _].
Qed.

(** The replies a fetch returns have ids that do not repeat.  The author
    of each carries the name of the user whose thread is fetched, letter
    case aside, and a reply whose text opens with a mention starts with
    [@username]: a test of the first characters, which lets a reply by
    [alice] that opens with [@alice_2] through. *)
Theorem fetchAllReplies_distinct_by_author (tweetId username : string)
    (st : State) :
  let result :=
    (fetchAllReplies config server encodeURIComponent tweetId username st).1 in
  NoDup (map id result)
  /\ Forall (letThrough username) result
  /\ letThrough "alice" MoreSamples.aliceMentioning.
Proof.
  destruct (fetchAllReplies_spec tweetId username st) as [Hnodup Hall].
  cbv zeta in Hnodup, Hall |- *. split; [exact Hnodup|]. split.
  - eapply Forall_impl; [exact Hall|].
    intros reply. apply passesAuthorFilter_letThrough.
  - apply passesAuthorFilter_letThrough. vm_compute. reflexivity.
Qed.

(** A failure on the first page ends the fetch: there is no continuation
    token yet, so the page is not asked for again, and the fetch returns
    the empty list after its two-second pause.  With a page limit of zero
    nothing is asked for at all. *)
Theorem fetchAllReplies_first_page_fails (tweetId username : string)
    (st : State) :
  (replyMaxPages config = 0%nat ->
   fetchAllReplies config server encodeURIComponent tweetId username st
   = ([], st))
  /\ (forall error st1,
        (0 < replyMaxPages config)%nat ->
        makeApiRequest server (repliesUrl encodeURIComponent tweetId None) 0 st
        = (Thrown error, st1) ->
        fetchAllReplies config server encodeURIComponent tweetId username st
        = ([], sleep 2000 st1)).
Proof.
  unfold fetchAllReplies. split.
  - intros Hzero. rewrite Hzero. simpl. unfold fetchPage. rewrite Hzero.
    reflexivity.
  - intros error st1 Hpages Hfail.
    replace (3 * S (replyMaxPages config))%nat
      with (S (2 + 3 * replyMaxPages config)) by lia.
    cbn [fetchPages]. unfold fetchPage. cbn [pageCount continuationToken].
    replace (replyMaxPages config <=? 0)%nat with false
      by (symmetry; apply Nat.leb_gt; lia).
    rewrite Hfail. reflexivity.
Qed.

End RepliesMore.

Lemma fetchAllReplies_first_page_fails_witness :
  Replies.fetchAllReplies defaultConfig Samples.downServer
    (fun token => token) "1" "alice" Samples.freshGateway
  = ([],
     Gateway.sleep 2000
       (Gateway.makeApiRequest Samples.downServer
          "https://twitter154.p.rapidapi.com/tweet/replies?tweet_id=1" 0
          Samples.freshGateway).2).
Proof.
  apply (proj2 (fetchAllReplies_first_page_fails defaultConfig
                  Samples.downServer (fun token => token) "1" "alice"
                  Samples.freshGateway) (ApiError 500)).
  - vm_compute. lia.
  - reflexivity.
Defined.

(** The test of the first characters at work: a reply by [alice] that
    opens with a mention of [alice_2] is returned. *)
Example fetchAllReplies_keeps_longer_mention :
  (Replies.fetchAllReplies defaultConfig
     (Samples.repliesServer [MoreSamples.aliceMentioningRaw])
     (fun token => token) "1" "alice" Samples.freshGateway).1
  = [MoreSamples.aliceMentioning].
Proof. vm_compute. reflexivity. Qed.

(** ** Timeline fetch orchestrator: cache, failures, what is returned *)

Section TimelineMore.

Import Gateway Replies Timeline.

Variable config : TwitterConfig.
Variable server : nat -> string -> Response ApiResponse.
Variable encodeURIComponent : string -> string.

(** A fetch that succeeded is remembered: asking again for the same user,
    in whatever letter case and with whatever options, returns the same
    list and leaves everything as it is, the gateway included, so nothing
    goes on the wire. *)
Theorem fetchUserTweets_cached (username : string)
    (options : option Options) (w w' : World) (tweets : list Tweet) :
  fetchUserTweets_try config server encodeURIComponent username options w
  = (Returned tweets, w') ->
  forall username' options',
    lowerName username' = lowerName username ->
    fetchUserTweets config server encodeURIComponent username' options' w'
    = (Returned tweets, w').
Proof.
  intros Hfirst username' options' Hname.
  assert (Hcached : userTweets w' !! lowerName username = Some tweets).
  { unfold fetchUserTweets_try in Hfirst. cbv zeta in Hfirst.
    destruct (userTweets w !! lowerName username) as [cached|] eqn:Hlook.
    - injection Hfirst as <- <-. exact Hlook.
    - destruct (makeApiRequest _ _ _ _) as [[userData|] st1]; [|discriminate].
      destruct (negb _); [discriminate|].
      destruct (makeApiRequest _ _ _ _) as [[initialData|] st2]; [|discriminate].
      destruct (filterInitial _ _) as [allTweets|]; [|discriminate].
      destruct (fetchThreads _ _ _ _ _ _ _ _) as [[allTweets1 ids1] st3].
      destruct (continuationLoop _ _ _ _ _ _ _ _ _ _ _ _) as [allTweets2 st4].
      injection Hfirst as <- <-. simpl. apply lookup_insert_eq. }
  unfold fetchUserTweets, fetchUserTweets_try. cbv zeta.
  now rewrite Hname, Hcached.
Qed.

(** A fetch that fails returns the empty list, shows one notice and
    remembers nothing, so the next fetch tries the network again.  When the
    upstream knows no id for the user, the lookup of the user is the only
    request the fetch makes. *)
Theorem fetchUserTweets_failure (username : string)
    (options : option Options) (w : World) :
  (forall error,
      (fetchUserTweets_try config server encodeURIComponent username
         options w).1 = Thrown error ->
      let r := fetchUserTweets config server encodeURIComponent username
                 options w in
      r.1 = Returned []
      /\ userTweets r.2 = userTweets w
      /\ toasts r.2 = S (toasts w))
  /\ (forall userData st,
        userTweets w !! lowerName username = None ->
        makeApiRequest server (userDetailsUrl username) 0 (gateway w)
        = (Returned userData, st) ->
        truthy (response_user_id userData) = false ->
        fetchUserTweets config server encodeURIComponent username options w
        = (Returned [],
           {| gateway := st; userTweets := userTweets w;
              toasts := S (toasts w) |})).
Proof.
  split.
  - intros error Hthrown. unfold fetchUserTweets. cbv zeta.
    assert (Hworld : userTweets
                       (fetchUserTweets_try config server encodeURIComponent
                          username options w).2 = userTweets w
                     /\ toasts
                          (fetchUserTweets_try config server
                             encodeURIComponent username options w).2
                        = toasts w).
    { unfold fetchUserTweets_try in Hthrown |- *. cbv zeta in Hthrown |- *.
      destruct (userTweets w !! lowerName username); [discriminate|].
      destruct (makeApiRequest _ _ _ _) as [[userData|] st1];
        [|now split].
      destruct (negb _); [now split|].
      destruct (makeApiRequest _ _ _ _) as [[initialData|] st2];
        [|now split].
      destruct (filterInitial _ _) as [allTweets|]; [|now split].
      destruct (fetchThreads _ _ _ _ _ _ _ _) as [[allTweets1 ids1] st3].
      destruct (continuationLoop _ _ _ _ _ _ _ _ _ _ _ _) as [allTweets2 st4].
      discriminate. }
    destruct (fetchUserTweets_try _ _ _ _ _ _) as [[tweets|e] w1];
      [discriminate|].
    simpl in Hworld |- *. destruct Hworld as [-> ->]. now repeat split.
  - intros userData st Hfresh Huser Hmissing.
    unfold fetchUserTweets, fetchUserTweets_try. cbv zeta.
    now rewrite Hfresh, Huser, Hmissing.
Qed.

End TimelineMore.

Lemma fetchUserTweets_cached_witness :
  let first :=
    Timeline.fetchUserTweets_try defaultConfig MoreSamples.timelineServer
      (fun token => token) "alice" None Samples.freshWorld in
  Timeline.fetchUserTweets defaultConfig MoreSamples.timelineServer
    (fun token => token) "ALICE" (Some {| Timeline.initialFetch := Some 5%nat;
                                          Timeline.maxTweetsOption := None |})
    first.2
  = (Returned [processTweet (Samples.alicePost "1" 1000 None None None)],
     first.2).
Proof.
  intros first.
  apply (fetchUserTweets_cached defaultConfig MoreSamples.timelineServer
           (fun token => token) "alice" None Samples.freshWorld).
  - vm_compute. reflexivity.
  - reflexivity.
Defined.

Lemma fetchUserTweets_failure_witness :
  (Timeline.fetchUserTweets defaultConfig Samples.downServer
     (fun token => token) "alice" None Samples.freshWorld).1 = Returned []
  /\ Gateway.sent
       (Timeline.gateway
          (Timeline.fetchUserTweets defaultConfig (Samples.repliesServer [])
             (fun token => token) "alice" None Samples.freshWorld).2)
     = ["https://twitter154.p.rapidapi.com/user/details?username=alice"].
Proof.
  split.
  - apply (proj1 (fetchUserTweets_failure defaultConfig Samples.downServer
                    (fun token => token) "alice" None Samples.freshWorld)
             (ApiError 500)).
    reflexivity.
  - erewrite (proj2 (fetchUserTweets_failure defaultConfig
                       (Samples.repliesServer []) (fun token => token)
                       "alice" None Samples.freshWorld));
      [| reflexivity | vm_compute; reflexivity | reflexivity].
    reflexivity.
Defined.

Section TimelineContents.

Import Gateway Replies Timeline.

Variable config : TwitterConfig.
Variable server : nat -> string -> Response ApiResponse.
Variable encodeURIComponent : string -> string.

Lemma filterInitial_spec username tweets kept :
  filterInitial username tweets = Returned kept ->
  Forall (fun t => passesAuthorFilter username t = true) kept
  /\ (NoDup (map id tweets) -> NoDup (map id kept))
  /\ Forall (fun t => t ∈ tweets) kept.
Proof.
  revert kept. induction tweets as [|t tweets IH]; intros kept; simpl.
  - intros [= <-]. repeat split; constructor.
  - destruct (Author.username (author t)) as [name|] eqn:Hname;
      [|discriminate].
    destruct (filterInitial username tweets) as [rest|]; [|discriminate].
    destruct (IH rest eq_refl) as (Hby & Hnodup & Hsub).
    assert (Hsub' : Forall (fun x => x ∈ t :: tweets) rest).
    { eapply Forall_impl; [exact Hsub|]. intros x Hx. now right. }
    destruct (_ && _) eqn:Hkeep; intros [= <-].
    + repeat split.
      * constructor; [|exact Hby]. unfold passesAuthorFilter. now rewrite Hname.
      * intros Hd. apply NoDup_cons in Hd as [Hfresh Hd]. simpl.
        constructor; [|now apply Hnodup].
        intros Hin. apply Hfresh.
        apply list_elem_of_In, in_map_iff in Hin as (x & Hx & Hin).
        rewrite Forall_forall in Hsub.
        apply list_elem_of_In, in_map_iff. exists x. split; [exact Hx|].
        now apply list_elem_of_In, Hsub, list_elem_of_In.
      * constructor; [now left | exact Hsub'].
    + repeat split; [exact Hby | | exact Hsub'].
      intros Hd. apply NoDup_cons in Hd as [_ Hd]. now apply Hnodup.
Qed.

Lemma filterNew_spec ids replies :
  let r := filterNew ids replies in
  ids ⊆ r.2
  /\ NoDup (map id r.1)
  /\ Forall (fun t => (id t ∉ ids) /\ (id t ∈ r.2)) r.1
  /\ Forall (fun t => t ∈ replies) r.1.
Proof.
  revert ids. induction replies as [|t replies IH]; intros ids; simpl.
  - split; [reflexivity|]. repeat split; constructor.
  - destruct (bool_decide (id t ∈ ids)) eqn:Hseen.
    + destruct (IH ids) as (Hsub & Hnodup & Hfresh & Hfrom).
      split; [exact Hsub|]. split; [exact Hnodup|]. split; [exact Hfresh|].
      eapply Forall_impl; [exact Hfrom|]. intros x Hx. now right.
    + apply bool_decide_eq_false in Hseen.
      specialize (IH ({[id t]} ∪ ids)). cbv zeta in IH.
      destruct (filterNew ({[id t]} ∪ ids) replies) as [kept ids'].
      simpl in IH |- *. destruct IH as (Hsub & Hnodup & Hfresh & Hfrom).
      assert (Ht : id t ∈ ids').
      { apply Hsub, elem_of_union. left. now apply elem_of_singleton. }
      split; [|split; [|split]].
      * intros x Hx. apply Hsub, elem_of_union. now right.
      * constructor; [|exact Hnodup].
        intros Hin. apply list_elem_of_In, in_map_iff in Hin as (x & Hx & Hin).
        rewrite Forall_forall in Hfresh.
        apply list_elem_of_In, Hfresh in Hin as [Hnew _].
        apply Hnew, elem_of_union. left. now apply elem_of_singleton.
      * constructor; [now split|].
        eapply Forall_impl; [exact Hfresh|]. intros x [Hnew Hin].
        split; [|exact Hin].
        intros Hx. apply Hnew, elem_of_union. now right.
      * constructor; [now left|].
        eapply Forall_impl; [exact Hfrom|]. intros x Hx. now right.
Qed.

Lemma filterContinuation_spec username ids tweets :
  let r := filterContinuation username ids tweets in
  ids ⊆ r.2
  /\ forall kept,
       r.1 = Returned kept ->
       NoDup (map id kept)
       /\ Forall (fun t => passesAuthorFilter username t = true
                           /\ (id t ∉ ids) /\ (id t ∈ r.2)) kept.
Proof.
  revert ids. induction tweets as [|t tweets IH]; intros ids; simpl.
  - split; [reflexivity|]. intros kept [= <-]. split; constructor.
  - destruct (Author.username (author t)) as [name|] eqn:Hname;
      [|split; [reflexivity | discriminate]].
    destruct (String.eqb (lowerName name) (lowerName username)) eqn:Hauthor;
      simpl; [|apply IH].
    destruct (bool_decide (id t ∈ ids)) eqn:Hseen; simpl; [apply IH|].
    destruct (mentionsAnotherUser (tweetText t) username) eqn:Hmention;
      [apply IH|].
    apply bool_decide_eq_false in Hseen.
    specialize (IH ({[id t]} ∪ ids)). cbv zeta in IH.
    destruct (filterContinuation username ({[id t]} ∪ ids) tweets)
      as [rest ids'].
    simpl in IH |- *. destruct IH as [Hsub IH].
    split; [intros x Hx; apply Hsub, elem_of_union; now right|].
    intros kept Hkept. destruct rest as [rest|]; [|discriminate].
    injection Hkept as <-. destruct (IH rest eq_refl) as [Hnodup Hall].
    split.
    + simpl. constructor; [|exact Hnodup].
      intros Hin. apply list_elem_of_In, in_map_iff in Hin as (x & Hx & Hin).
      rewrite Forall_forall in Hall.
      apply list_elem_of_In, Hall in Hin as (_ & Hfresh & _).
      rewrite Hx in Hfresh. apply Hfresh, elem_of_union. left.
      now apply elem_of_singleton.
    + constructor.
      * unfold passesAuthorFilter. rewrite Hname, Hauthor, Hmention.
        repeat split; [exact Hseen|].
        apply Hsub, elem_of_union. left. now apply elem_of_singleton.
      * eapply Forall_impl; [exact Hall|].
        intros x (Hby & Hfresh & Hnow).
        repeat split; [exact Hby | | exact Hnow].
        intros Hx. apply Hfresh, elem_of_union. now right.
Qed.

(** Adding tweets that are new to the recorded ids keeps the accumulated
    tweets free of repeats. *)
Lemma deduplicated_more allTweets ids more ids' :
  deduplicated allTweets ids ->
  ids ⊆ ids' ->
  NoDup (map id more) ->
  Forall (fun t => (id t ∉ ids) /\ (id t ∈ ids')) more ->
  deduplicated (allTweets ++ more) ids'.
Proof.
  intros [Hnodup Hall] Hsub Hmore Hfresh. split.
  - rewrite map_app. apply NoDup_app. split; [exact Hnodup|].
    split; [|exact Hmore].
    intros x Hx Hx'.
    apply list_elem_of_In, in_map_iff in Hx as (a & <- & Ha).
    apply list_elem_of_In, in_map_iff in Hx' as (b & Hab & Hb).
    rewrite Forall_forall in Hall, Hfresh.
    apply list_elem_of_In, Hall in Ha.
    apply list_elem_of_In, Hfresh in Hb as [Hb _].
    rewrite Hab in Hb. contradiction.
  - apply Forall_app. split.
    + eapply Forall_impl; [exact Hall|]. intros x Hx. now apply Hsub.
    + eapply Forall_impl; [exact Hfresh|]. now intros x [_ Hx].
Qed.

(** What a request returns is a body the upstream sent. *)
Lemma makeApiRequest_fuel_returned fuel url retryCount st json st' :
  makeApiRequest_fuel server fuel url retryCount st = (Returned json, st') ->
  exists n u, parsed (server n u) = Some json.
Proof.
  revert retryCount st.
  induction fuel as [|fuel IH]; intros retryCount st;
    rewrite makeApiRequest_fuel_eq;
    destruct (hasRecentlyFailed url st) as [[] st1]; try discriminate;
    cbv zeta; unfold send, giveUp;
    repeat match goal with
           | |- context [if ?b then _ else _] => destruct b
           end;
    try discriminate;
    try (destruct (parsed _) eqn:Hp; [|discriminate];
         intros [= <- _]; eauto).
  apply IH.
Qed.

Lemma makeApiRequest_returned url retryCount st json st' :
  makeApiRequest server url retryCount st = (Returned json, st') ->
  exists n u, parsed (server n u) = Some json.
Proof. apply makeApiRequest_fuel_returned. Qed.

Lemma fetchThreads_spec username threads allTweets ids st :
  let r := fetchThreads config server encodeURIComponent username threads
             allTweets ids st in
  (Forall (fun t => passesAuthorFilter username t = true) allTweets ->
   Forall (fun t => passesAuthorFilter username t = true) r.1.1)
  /\ (deduplicated allTweets ids -> deduplicated r.1.1 r.1.2).
Proof.
  revert allTweets ids st.
  induction threads as [|tweet threads IH]; intros allTweets ids st; simpl.
  - now split.
  - pose proof (fetchAllReplies_spec config server
                  encodeURIComponent (id tweet) username st) as Hreplies.
    cbv zeta in Hreplies.
    destruct (fetchAllReplies _ _ _ _ _ _) as [replies st1].
    cbn [fst] in Hreplies. destruct Hreplies as [_ Hby].
    pose proof (filterNew_spec ids replies) as Hnew. cbv zeta in Hnew.
    destruct (filterNew ids replies) as [newReplies ids1].
    cbn [fst snd] in Hnew. destruct Hnew as (Hsub & Hnodup & Hfresh & Hfrom).
    specialize (IH (allTweets ++ newReplies) ids1 (sleep 1000 st1)).
    cbv zeta in IH. destruct IH as [IHby IHdedup]. split.
    + intros Hall. apply IHby, Forall_app. split; [exact Hall|].
      apply Forall_forall. intros x Hx.
      rewrite Forall_forall in Hfrom, Hby. now apply Hby, Hfrom.
    + intros Hd. apply IHdedup. now apply deduplicated_more with (ids := ids).
Qed.

Lemma continuationLoop_spec fuel username userId maxTweets token count
    allTweets ids st :
  let r := continuationLoop config server encodeURIComponent fuel username
             userId maxTweets token count allTweets ids st in
  (Forall (fun t => passesAuthorFilter username t = true) allTweets ->
   Forall (fun t => passesAuthorFilter username t = true) r.1)
  /\ (deduplicated allTweets ids -> NoDup (map id r.1)).
Proof.
  revert token count allTweets ids st.
  induction fuel as [|fuel IH]; intros token count allTweets ids st;
    cbv zeta; rewrite continuationLoop_eq;
    destruct (_ && _); try (split; [tauto | now intros [Hd _]]).
  destruct (makeApiRequest _ _ _ _) as [[continuationData|] st1];
    [|split; [tauto | now intros [Hd _]]].
  pose proof (filterContinuation_spec username ids
                (processTweets continuationData)) as Hfilter.
  cbv zeta in Hfilter.
  destruct (filterContinuation _ _ _) as [[additionalTweets|] ids1];
    [|split; [tauto | now intros [Hd _]]].
  cbn [fst snd] in Hfilter. destruct Hfilter as [Hsub Hkept].
  destruct (Hkept additionalTweets eq_refl) as [Hnodup Hall].
  match goal with
  | |- context [fetchThreads _ _ _ _ ?threads ?all ?i ?s] =>
      pose proof (fetchThreads_spec username threads all i s) as Hthreads
  end.
  cbv zeta in Hthreads.
  destruct (fetchThreads _ _ _ _ _ _ _ _) as [[allTweets1 ids2] st2].
  cbn [fst snd] in Hthreads. destruct Hthreads as [Hby Hdedup].
  specialize (IH (continuation_token continuationData) (S count) allTweets1
                ids2 (sleep 1500 st2)).
  cbv zeta in IH. destruct IH as [IHby IHdedup]. split.
  - intros Hold. apply IHby, Hby, Forall_app. split; [exact Hold|].
    eapply Forall_impl; [exact Hall|]. now intros x [Hx _].
  - intros Hold. apply IHdedup, Hdedup.
    apply deduplicated_more with (ids := ids); try assumption.
    eapply Forall_impl; [exact Hall|]. now intros x (_ & Hx & Hx').
Qed.

(** What a fetch that goes to the network returns: the author of every
    tweet carries the name of the user that was asked for, letter case
    aside, and a tweet whose text opens with a mention starts with
    [@username], a test of the first characters that a mention of a
    longer name passes.  When no page of tweets the upstream sends repeats
    a tweet id, no id is repeated in what is returned: the replies and the
    continuation pages only add ids that are new. *)
Theorem fetchUserTweets_contents (username : string)
    (options : option Options) (w : World) (tweets : list Tweet) :
  userTweets w !! lowerName username = None ->
  (fetchUserTweets_try config server encodeURIComponent username options w).1
  = Returned tweets ->
  Forall (letThrough username) tweets
  /\ ((forall n url response page,
          parsed (server n url) = Some response ->
          results response = Some page ->
          NoDup (map Raw.tweet_id page)) ->
      NoDup (map id tweets)).
Proof.
  intros Hfresh Hrun. unfold fetchUserTweets_try in Hrun. cbv zeta in Hrun.
  rewrite Hfresh in Hrun.
  destruct (makeApiRequest _ _ _ _) as [[userData|] st1]; [|discriminate].
  destruct (negb _); [discriminate|].
  destruct (makeApiRequest server _ 0 st1) as [[initialData|] st2] eqn:Hinitial;
    [|discriminate].
  destruct (filterInitial _ _) as [allTweets|] eqn:Hfilter; [|discriminate].
  destruct (filterInitial_spec _ _ _ Hfilter) as (Hby & Hnodup & Hfrom).
  match type of Hrun with
  | context [fetchThreads _ _ _ _ ?threads ?all ?i ?s] =>
      pose proof (fetchThreads_spec username threads all i s) as Hthreads
  end.
  cbv zeta in Hthreads.
  destruct (fetchThreads _ _ _ _ _ _ _ _) as [[allTweets1 ids1] st3].
  cbn [fst snd] in Hthreads. destruct Hthreads as [Hby1 Hdedup1].
  match type of Hrun with
  | context [continuationLoop _ _ _ ?f _ ?u ?m ?t ?c ?all ?i ?s] =>
      pose proof (continuationLoop_spec f username u m t c all i s) as Hloop
  end.
  cbv zeta in Hloop.
  destruct (continuationLoop _ _ _ _ _ _ _ _ _ _ _ _) as [allTweets2 st4].
  cbn [fst] in Hloop, Hrun. destruct Hloop as [Hby2 Hdedup2].
  injection Hrun as <-. split.
  { eapply Forall_impl; [apply Hby2, Hby1, Hby|].
    intros t. apply passesAuthorFilter_letThrough. }
  intros Hpages. apply Hdedup2, Hdedup1. split.
  - apply Hnodup. unfold processTweets.
    destruct (results initialData) as [page|] eqn:Hpage; [|constructor].
    rewrite map_map.
    change (map (fun raw => id (processTweet raw)) page)
      with (map Raw.tweet_id page).
    destruct (makeApiRequest_returned _ _ _ _ _ Hinitial)
      as (n & url & Hsource).
    exact (Hpages n url _ _ Hsource Hpage).
  - apply Forall_forall. intros x Hx.
    apply elem_of_list_to_set, list_elem_of_In, in_map_iff.
    exists x. split; [reflexivity | now apply list_elem_of_In].
Qed.

End TimelineContents.

Lemma fetchUserTweets_contents_witness :
  let tweets := [processTweet (Samples.alicePost "1" 1000 None None None)] in
  Forall (letThrough "alice") tweets
  /\ NoDup (map id tweets).
Proof.
  intros tweets.
  destruct (fetchUserTweets_contents defaultConfig MoreSamples.timelineServer
              (fun token => token) "alice" None Samples.freshWorld tweets)
    as [Hby Hnodup].
  - reflexivity.
  - vm_compute. reflexivity.
  - split; [exact Hby|]. apply Hnodup.
    intros n url response page Hresponse Hpage.
    injection Hresponse as <-. injection Hpage as <-.
    repeat constructor. intros Hin. now apply elem_of_nil in Hin.
Defined.

(** ** Post normalizer: cleaning and linkage *)

Section CleaningFacts.

Context {A : Type}.
Implicit Types (p : A -> bool) (l : list A).

Lemma dropWhile_length p l : (length (dropWhile p l) <= length l)%nat.
Proof.
  induction l as [|x l IH]; simpl; [lia|]. destruct (p x); simpl; lia.
Qed.

Lemma takeWhile_app_stop p l x r :
  Forall (fun y => p y = true) l -> p x = false ->
  takeWhile p (l ++ x :: r) = l.
Proof.
  intros Hl Hx. induction Hl as [|y l Hy _ IH]; simpl.
  - now rewrite Hx.
  - now rewrite Hy, IH.
Qed.

Lemma dropWhile_app_word p l x r :
  Forall (fun y => p y = true) l -> p x = false ->
  dropWhile p (l ++ x :: r) = x :: r.
Proof.
  intros Hl Hx. rewrite dropWhile_app_all by exact Hl. simpl. now rewrite Hx.
Qed.

End CleaningFacts.

Lemma startsWith_app (prefix rest : jsstring) :
  startsWith (prefix ++ rest) prefix = true.
Proof.
  induction prefix as [|c prefix IH]; simpl; [reflexivity|].
  now rewrite Z.eqb_refl, IH.
Qed.

Lemma collapseNewlines_length seen s :
  (length (collapseNewlines seen s) <= length s)%nat.
Proof.
  revert seen. induction s as [|c s IH]; intros seen;
    cbn [collapseNewlines length]; [lia|].
  pose proof (IH (S seen)). pose proof (IH 0%nat).
  destruct (c =? 10); [destruct (2 <=? seen)%nat|];
    cbn [collapseNewlines length]; lia.
Qed.

(** After [seen] line feeds, what [collapseNewlines] produces holds no
    three line feeds in a row, does not start with two when one was seen,
    and does not start with one when two were seen. *)
Lemma collapseNewlines_runs seen s :
  includes (collapseNewlines seen s) [10; 10; 10] = false
  /\ ((1 <= seen)%nat -> startsWith (collapseNewlines seen s) [10; 10] = false)
  /\ ((2 <= seen)%nat -> startsWith (collapseNewlines seen s) [10] = false).
Proof.
  revert seen. induction s as [|c s IH]; intros seen.
  - simpl. repeat split; reflexivity.
  - cbn [collapseNewlines].
    destruct (c =? 10) eqn:Hc; [apply Z.eqb_eq in Hc; subst c|].
    + destruct (2 <=? seen)%nat eqn:Hseen;
        [apply Nat.leb_le in Hseen | apply Nat.leb_gt in Hseen].
      * destruct (IH (S seen)) as (Hinc & Htwo & Hone).
        repeat split; [exact Hinc | intros _; apply Htwo; lia
                      | intros _; apply Hone; lia].
      * destruct (IH (S seen)) as (Hinc & Htwo & Hone).
        repeat split.
        -- change (startsWith (collapseNewlines (S seen) s) [10; 10]
                   || includes (collapseNewlines (S seen) s) [10; 10; 10]
                   = false).
           rewrite Hinc, Htwo by lia. reflexivity.
        -- intros Hge.
           change (startsWith (collapseNewlines (S seen) s) [10] = false).
           apply Hone. lia.
        -- intros Hge. lia.
    + destruct (IH 0%nat) as (Hinc & _ & _).
      repeat split; intros;
        cbn [includes startsWith]; rewrite ?Hc; try reflexivity.
      exact Hinc.
Qed.

(** Cleaning never makes a text longer, and never leaves three line feeds
    in a row. *)
Theorem cleanText_shorter_no_blank_run (text : jsstring) :
  (length (cleanText text) <= length text)%nat
  /\ includes (cleanText text) [10; 10; 10] = false.
Proof.
  split; [|apply collapseNewlines_runs].
  unfold cleanText.
  etransitivity; [apply collapseNewlines_length|].
  assert (Hlink : (length (stripTrailingLink text) <= length text)%nat).
  { unfold stripTrailingLink. cbv zeta.
    destruct (_ && _); [|lia].
    rewrite length_rev.
    etransitivity; [apply dropWhile_length|].
    rewrite length_skipn.
    pose proof (dropWhile_length isWordChar (rev text)) as H.
    rewrite length_rev in H. lia. }
  etransitivity; [|exact Hlink].
  unfold stripTrailingDots. cbv zeta.
  destruct (3 <=? _)%nat; [|lia].
  rewrite length_rev.
  etransitivity; [apply dropWhile_length|].
  pose proof (dropWhile_length isDot (rev (stripTrailingLink text))) as H.
  rewrite length_rev in H. lia.
Qed.

(** A short link at the end of a text goes, with the white space before
    it, and nothing else does: when the text before it ends in a character
    that is neither white space nor a full stop or ellipsis, cleaning gives
    that text back, with its line feeds collapsed. *)
Theorem cleanText_trailing_link (body : jsstring) (final : Z)
    (space link : jsstring) :
  isWhiteSpace final = false ->
  isDot final = false ->
  Forall (fun c => isWhiteSpace c = true) space ->
  link <> [] ->
  Forall (fun c => isWordChar c = true) link ->
  cleanText (body ++ [final] ++ space ++ utf16 "https://t.co/" ++ link)
  = collapseNewlines 0 (body ++ [final]).
Proof.
  intros Hvisible Hnodot Hspace Hlink Hword. unfold cleanText. f_equal.
  assert (Hstrip : stripTrailingLink
                     (body ++ [final] ++ space ++ utf16 "https://t.co/" ++ link)
                   = body ++ [final]).
  { unfold stripTrailingLink. cbv zeta.
    rewrite !rev_app_distr, <- !app_assoc.
    change (rev (utf16 "https://t.co/"))
      with (47 :: (rev (utf16 "https://t.co"))).
    rewrite <- app_comm_cons.
    rewrite takeWhile_app_stop, dropWhile_app_word
      by (try apply Forall_rev; try assumption; reflexivity).
    rewrite length_rev.
    replace (length link =? 0)%nat with false
      by (symmetry; apply Nat.eqb_neq; destruct link; simpl; congruence).
    change (47 :: rev (utf16 "https://t.co") ++ rev space ++ rev [final] ++ rev body)
      with ((47 :: rev (utf16 "https://t.co"))
              ++ rev space ++ rev [final] ++ rev body).
    rewrite startsWith_app. cbn [negb andb].
    rewrite skipn_app.
    change (length (47 :: rev (utf16 "https://t.co"))) with 13%nat.
    change (skipn 13 (47 :: rev (utf16 "https://t.co"))) with (@nil Z).
    change (13 - 13)%nat with 0%nat. cbn [skipn app].
    change (rev [final]) with [final].
    change (drop 0 (rev space ++ [final] ++ rev body))
      with (rev space ++ final :: rev body).
    rewrite dropWhile_app_word by (try apply Forall_rev; assumption).
    change (final :: rev body) with (rev [final] ++ rev body).
    now rewrite <- rev_app_distr, rev_involutive. }
  rewrite Hstrip. unfold stripTrailingDots. cbv zeta.
  rewrite rev_app_distr. simpl. now rewrite Hnodot.
Qed.

Lemma cleanText_trailing_link_witness :
  cleanText (utf16 "read thi" ++ [115] ++ [32; 10] ++ utf16 "https://t.co/"
               ++ utf16 "Ab_9")
  = utf16 "read this".
Proof.
  apply (cleanText_trailing_link (utf16 "read thi") 115 [32; 10] (utf16 "Ab_9"));
    [reflexivity | reflexivity | repeat constructor | discriminate
    | repeat constructor].
Defined.

(** A normalized tweet with an id always has a conversation id and a
    thread id. *)
Lemma processTweet_keys (tweet : Raw.Tweet) :
  Raw.tweet_id tweet <> "" ->
  truthy (conversation_id (processTweet tweet)) = true
  /\ truthy (thread_id (processTweet tweet)) = true.
Proof.
  intros Hid. unfold processTweet. cbn [conversation_id thread_id].
  assert (Hconv : truthy
                    (or_else (Raw.conversation_id tweet)
                       (or_else (Raw.in_reply_to_status_id tweet)
                          (Some (Raw.tweet_id tweet)))) = true).
  { unfold or_else.
    destruct (truthy (Raw.conversation_id tweet)) eqn:H1; [exact H1|].
    destruct (truthy (Raw.in_reply_to_status_id tweet)) eqn:H2; [exact H2|].
    simpl. apply negb_true_iff, String.eqb_neq, Hid. }
  split; [exact Hconv|].
  unfold or_else at 1.
  now destruct (truthy (Raw.thread_id tweet)) eqn:H3.
Qed.

(** ** Thread grouping engine: what the result is made of *)

Section GroupingSound.

Import Grouping.

Lemma foldM_preserves {A S : Type} (I : S -> Prop)
    (body : S -> A -> Outcome S) (l : list A) (s s' : S) :
  (forall s x s', x ∈ l -> I s -> body s x = Returned s' -> I s') ->
  I s ->
  foldM body l s = Returned s' ->
  I s'.
Proof.
  revert s. induction l as [|x l IH]; intros s Hbody Hs; simpl.
  - now intros [= <-].
  - destruct (body s x) as [s1|] eqn:Hstep; simpl; [|discriminate].
    apply IH.
    + intros s0 y s0' Hy. apply Hbody. now right.
    + apply (Hbody s x s1); [now left | exact Hs | exact Hstep].
Qed.

Lemma map_get_Forall {V} (P : string * V -> Prop) k v
    (m : list (string * V)) :
  Forall P m -> map_get k m = Some v -> P (k, v).
Proof.
  induction 1 as [|[k' v'] m Hhead _ IH]; simpl; [discriminate|].
  destruct (String.eqb k k') eqn:Hk.
  - apply String.eqb_eq in Hk. subst k'. now intros [= <-].
  - exact IH.
Qed.

Lemma map_set_Forall {V} (P : string * V -> Prop) k v
    (m : list (string * V)) :
  P (k, v) -> Forall P m -> Forall P (map_set k v m).
Proof.
  intros Hnew. induction 1 as [|[k' v'] m Hhead Hm IH]; simpl.
  - now repeat constructor.
  - destruct (String.eqb k k'); constructor; assumption.
Qed.

Lemma ensure_Forall {V} (P : string * list V -> Prop) k
    (m : list (string * list V)) :
  P (k, []) -> Forall P m -> Forall P (ensure k m).
Proof.
  intros Hnew Hm. unfold ensure. destruct (map_has k m); [exact Hm|].
  now apply map_set_Forall.
Qed.

Variable tweets : list Tweet.

Let objects : list Ref := imap pair tweets.
Let tweetMap : gmap string Ref := buildTweetMap objects.

Lemma objects_fromInput r : r ∈ objects <-> fromInput tweets r.
Proof.
  unfold objects, fromInput. rewrite elem_of_lookup_imap. split.
  - intros (i & t & -> & Ht). exact Ht.
  - intros Hr. exists r.1, r.2. split; [now destruct r | exact Hr].
Qed.

Lemma tweetMap_lookup k r :
  tweetMap !! k = Some r -> fromInput tweets r /\ refId r = k.
Proof.
  unfold tweetMap, buildTweetMap.
  assert (H : forall l (m : gmap string Ref),
             (forall k r, m !! k = Some r -> r ∈ objects /\ refId r = k) ->
             Forall (fun r => r ∈ objects) l ->
             forall k r,
               foldl (fun tm o => <[id o.2 := o]> tm) m l !! k = Some r ->
               r ∈ objects /\ refId r = k).
  { induction l as [|o l IH]; intros m Hm Hl k0 r0; simpl; [apply Hm|].
    apply Forall_cons in Hl as [Ho Hl]. apply IH; [|exact Hl].
    intros k1 r1 Hlook. destruct (decide (id o.2 = k1)) as [<-|Hne].
    - rewrite lookup_insert_eq in Hlook. injection Hlook as <-. now split.
    - rewrite lookup_insert_ne in Hlook by exact Hne. now apply Hm. }
  intros Hlook.
  destruct (H objects ∅) with (k := k) (r := r) as [Hin Hid];
    [intros k0 r0 Hempty; now rewrite lookup_empty in Hempty
    | now apply Forall_forall | exact Hlook |].
  split; [now apply objects_fromInput | exact Hid].
Qed.

(** The sets of the self-thread pass hold no id twice. *)
Lemma set_add_NoDup x ids : NoDup ids -> NoDup (set_add x ids).
Proof.
  intros Hids. unfold set_add.
  destruct (existsb (String.eqb x) ids) eqn:Hin; [exact Hids|].
  apply NoDup_app. split; [exact Hids|]. split; [|apply NoDup_singleton].
  intros y Hy Hy'. apply list_elem_of_singleton in Hy'. subst y.
  assert (Hex : existsb (String.eqb x) ids = true).
  { apply existsb_exists. exists x. split; [now apply list_elem_of_In|].
    apply String.eqb_refl. }
  congruence.
Qed.

Lemma addToSet_NoDup k x selfThreads selfThreads' :
  Forall (fun entry => NoDup entry.2) selfThreads ->
  addToSet k x selfThreads = Returned selfThreads' ->
  Forall (fun entry => NoDup entry.2) selfThreads'.
Proof.
  intros Hall. unfold addToSet.
  destruct (map_get k selfThreads) as [ids|] eqn:Hget; [|discriminate].
  intros [= <-]. apply map_set_Forall; [|exact Hall].
  apply set_add_NoDup.
  exact (map_get_Forall (fun entry => NoDup entry.2) _ _ _ Hall Hget).
Qed.

Lemma collectSelfThread_NoDup selfThreads tweet selfThreads' :
  Forall (fun entry => NoDup entry.2) selfThreads ->
  collectSelfThread tweetMap selfThreads tweet = Returned selfThreads' ->
  Forall (fun entry => NoDup entry.2) selfThreads'.
Proof.
  intros Hall.
  assert (Hensure : forall k,
            Forall (fun entry : string * list string => NoDup entry.2)
              (ensure k selfThreads)).
  { intros k. apply ensure_Forall; [constructor | exact Hall]. }
  assert (Htwice : forall k x y,
            (s ← addToSet k x (ensure k selfThreads); addToSet k y s)
            = Returned selfThreads' ->
            Forall (fun entry => NoDup entry.2) selfThreads').
  { intros k x y.
    destruct (addToSet k x (ensure k selfThreads)) as [s1|] eqn:Hfirst;
      simpl; [|discriminate].
    intros Hsecond. apply (addToSet_NoDup k y s1); [|exact Hsecond].
    exact (addToSet_NoDup _ _ _ _ (Hensure k) Hfirst). }
  unfold collectSelfThread.
  destruct (is_self_thread tweet && truthy (conversation_id tweet)).
  - destruct (_ && _); [apply Htwice|].
    destruct (addToSet _ _ _) as [s1|] eqn:Hfirst; simpl; [|discriminate].
    intros [= <-]. exact (addToSet_NoDup _ _ _ _ (Hensure _) Hfirst).
  - destruct (_ && _); [|now intros [= <-]].
    destruct (tweetMap !! _) as [replyToTweet|]; [|now intros [= <-]].
    destruct (opt_eqb _ _); [apply Htwice | now intros [= <-]].
Qed.

(** The objects looked up for a set of ids have ids that do not repeat. *)
Lemma lookups_NoDup ids :
  NoDup ids ->
  Forall (fromInput tweets) (omap (fun tweetId => tweetMap !! tweetId) ids)
  /\ NoDup (map refId (omap (fun tweetId => tweetMap !! tweetId) ids)).
Proof.
  induction 1 as [|k ids Hfresh Hids [IHin IHnodup]]; simpl.
  - split; constructor.
  - destruct (tweetMap !! k) as [r|] eqn:Hlook; [|now split].
    destruct (tweetMap_lookup _ _ Hlook) as [Hin Hid].
    split; [now constructor|]. simpl. constructor; [|exact IHnodup].
    rewrite Hid. intros Hk. apply Hfresh.
    apply list_elem_of_In, in_map_iff in Hk as (r' & Hr' & Hin').
    apply list_elem_of_In, list_elem_of_omap in Hin' as (k' & Hk' & Hlook').
    apply tweetMap_lookup in Hlook' as [_ Hid']. congruence.
Qed.

Lemma buildSelfThread_sound m entry :
  NoDup entry.2 ->
  Forall (soundEntry tweets) (threadMap m) ->
  Forall (soundEntry tweets) (threadMap (buildSelfThread tweetMap m entry)).
Proof.
  intros Hids Hm. destruct entry as [threadId tweetIds]. simpl in Hids.
  unfold buildSelfThread.
  destruct (1 <? length tweetIds)%nat; [|exact Hm].
  destruct (1 <? length _)%nat; [|exact Hm].
  simpl. apply map_set_Forall; [|exact Hm].
  destruct (lookups_NoDup tweetIds Hids) as [Hin Hnodup].
  split; simpl.
  - now rewrite (sort_Permutation _ _).
  - intros _. now rewrite (sort_Permutation _ _).
Qed.

Lemma pushStandalone_sound tweet threadMap threadMap' :
  fromInput tweets tweet ->
  Forall (soundEntry tweets) threadMap ->
  pushStandalone tweet threadMap = Returned threadMap' ->
  Forall (soundEntry tweets) threadMap'.
Proof.
  intros Htweet Hsound. unfold pushStandalone, pushTo.
  assert (Hensure : Forall (soundEntry tweets) (ensure "standalone" threadMap)).
  { apply ensure_Forall; [|exact Hsound]. split; constructor. }
  destruct (map_get "standalone" _) as [array|] eqn:Hget; [|discriminate].
  intros [= <-]. apply map_set_Forall; [|exact Hensure].
  destruct (map_get_Forall _ _ _ _ Hensure Hget) as [Harray _].
  split; simpl; [|congruence].
  apply Forall_app. split; [exact Harray | now repeat constructor].
Qed.

Lemma buildReplyMap_values threadMembers replyMap :
  buildReplyMap threadMembers = Returned replyMap ->
  Forall (fun entry : string * list Ref =>
            Forall (fun r => r ∈ threadMembers) entry.2) replyMap.
Proof.
  unfold buildReplyMap.
  apply (foldM_preserves
           (fun rm : list (string * list Ref) =>
              Forall (fun entry => Forall (fun r => r ∈ threadMembers) entry.2)
                rm)); [|constructor].
  intros rm t rm' Ht Hrm.
  destruct (truthy (in_reply_to_tweet_id t.2)); [|now intros [= <-]].
  set (key := the_string (in_reply_to_tweet_id t.2)).
  assert (Hensure : Forall (fun entry : string * list Ref =>
                              Forall (fun r => r ∈ threadMembers) entry.2)
                      (ensure key rm))
    by (apply ensure_Forall; [constructor | exact Hrm]).
  unfold pushTo.
  destruct (map_get key (ensure key rm)) as [array|] eqn:Hget; [|discriminate].
  intros [= <-]. apply map_set_Forall; [|exact Hensure]. simpl.
  apply Forall_app. split; [|now repeat constructor].
  exact (map_get_Forall
           (fun entry => Forall (fun r => r ∈ threadMembers) entry.2)
           _ _ _ Hensure Hget).
Qed.

(** What the walk over the replies collects: objects of the reply map,
    with ids that do not repeat and were not marked before the walk, all
    of them marked after it; no mark is lost. *)
Lemma findReplies_spec (P : Ref -> Prop) levels replyMap tweetId
    processed found processed' :
  Forall (fun entry : string * list Ref => Forall P entry.2) replyMap ->
  findReplies levels replyMap tweetId processed
  = Returned (found, processed') ->
  Forall P found
  /\ NoDup (map refId found)
  /\ Forall (fun r => (refId r ∉ processed) /\ (refId r ∈ processed')) found
  /\ processed ⊆ processed'.
Proof.
  intros Hvalues. revert tweetId processed found processed'.
  induction levels as [|levels IH]; intros tweetId processed found processed';
    simpl.
  - intros [= <- <-]. repeat split; try constructor. reflexivity.
  - unfold map_has.
    destruct (map_get tweetId replyMap) as [replies|] eqn:Hget; simpl.
    2:{ intros [= <- <-]. repeat split; try constructor. reflexivity. }
    pose proof (map_get_Forall (fun entry => Forall P entry.2) _ _ _
                  Hvalues Hget) as Hreplies.
    simpl in Hreplies.
    intros Hfold.
    apply (foldM_preserves
             (fun acc : list Ref * gset string =>
                Forall P acc.1
                /\ NoDup (map refId acc.1)
                /\ Forall (fun r => (refId r ∉ processed) /\ (refId r ∈ acc.2))
                     acc.1
                /\ processed ⊆ acc.2)) in Hfold; [exact Hfold | |].
    + clear Hfold. intros [result marked] reply acc' Hreply
        (Hp & Hnodup & Hmarks & Hsub).
      simpl in Hp, Hnodup, Hmarks, Hsub. cbn [fst snd].
      destruct (bool_decide (id reply.2 ∈ marked)) eqn:Hseen;
        [intros [= <-]; now repeat split|].
      apply bool_decide_eq_false in Hseen.
      destruct (findReplies levels replyMap (id reply.2)
                  ({[id reply.2]} ∪ marked)) as [[sub marked']|] eqn:Hsub';
        simpl; [|discriminate].
      intros [= <-]. cbn [fst snd].
      destruct (IH _ _ _ _ Hsub') as (Hp' & Hnodup' & Hmarks' & Hsub'').
      assert (Hreply' : id reply.2 ∈ marked').
      { apply Hsub'', elem_of_union. left. now apply elem_of_singleton. }
      assert (Hmarked : marked ⊆ marked').
      { intros x Hx. apply Hsub'', elem_of_union. now right. }
      rewrite Forall_forall in Hmarks, Hmarks'.
      repeat split.
      * apply Forall_app. split; [exact Hp|]. constructor; [|exact Hp'].
        rewrite Forall_forall in Hreplies. apply Hreplies.
        now apply (sort_elem_of compareRefs).
      * rewrite map_app. apply NoDup_app. split; [exact Hnodup|]. split.
        -- intros x Hx Hx'.
           apply list_elem_of_In, in_map_iff in Hx as (a & <- & Ha).
           apply list_elem_of_In, Hmarks in Ha as [_ Ha].
           simpl in Hx'. apply elem_of_cons in Hx' as [Hx'|Hx'].
           ++ apply Hseen. unfold refId in Hx'. now rewrite <- Hx'.
           ++ apply list_elem_of_In, in_map_iff in Hx' as (b & Hb & Hin).
              apply list_elem_of_In, Hmarks' in Hin as [Hin _].
              apply Hin, elem_of_union. right. now rewrite Hb.
        -- simpl. constructor; [|exact Hnodup'].
           intros Hin. apply list_elem_of_In, in_map_iff in Hin as (b & Hb & Hin).
           apply list_elem_of_In, Hmarks' in Hin as [Hin _].
           apply Hin, elem_of_union. left. apply elem_of_singleton. exact Hb.
      * apply Forall_forall. intros x Hx.
        apply elem_of_app in Hx as [Hx|Hx].
        -- destruct (Hmarks x Hx) as [Hnew Hin]. split; [exact Hnew|].
           now apply Hmarked.
        -- apply elem_of_cons in Hx as [->|Hx].
           ++ split; [|exact Hreply']. intros Hin. apply Hseen.
              now apply Hsub.
           ++ destruct (Hmarks' x Hx) as [Hnew Hin]. split; [|exact Hin].
              intros Hold. apply Hnew, elem_of_union. right. now apply Hsub.
      * intros x Hx. now apply Hmarked, Hsub.
    + simpl. repeat split; try constructor. reflexivity.
Qed.

Lemma storeThread_sound threadId thread processedIds m m' :
  Forall (fromInput tweets) thread ->
  NoDup (map refId thread) ->
  Forall (soundEntry tweets) (threadMap m) ->
  storeThread threadId thread processedIds m = Returned m' ->
  Forall (soundEntry tweets) (threadMap m').
Proof.
  intros Hin Hnodup Hsound. unfold storeThread.
  destruct (1 <? length thread)%nat.
  - intros [= <-]. simpl. apply map_set_Forall; [|exact Hsound]. now split.
  - destruct thread as [|single [|]]; try (now intros [= <-]).
    destruct (pushStandalone single (threadMap m)) as [tm|] eqn:Hpush;
      simpl; [|discriminate].
    intros [= <-]. simpl.
    apply (pushStandalone_sound single (threadMap m)); try assumption.
    now apply Forall_cons in Hin as [Hin _].
Qed.

Lemma groupRemaining_sound m tweet m' :
  fromInput tweets tweet ->
  Forall (soundEntry tweets) (threadMap m) ->
  groupRemaining tweetMap objects m tweet = Returned m' ->
  Forall (soundEntry tweets) (threadMap m').
Proof.
  intros Htweet Hsound. unfold groupRemaining.
  destruct (bool_decide _); [now intros [= <-]|]. cbv zeta.
  set (threadId := the_string _).
  set (threadMembers := List.filter _ objects).
  assert (Hmembers : Forall (fromInput tweets) threadMembers).
  { apply Forall_forall. intros r Hr.
    apply list_elem_of_In, filter_In in Hr as [Hr _].
    now apply objects_fromInput, list_elem_of_In. }
  destruct (length threadMembers <=? 1)%nat eqn:Hlen.
  - destruct (pushStandalone tweet (threadMap m)) as [tm|] eqn:Hpush;
      simpl; [|discriminate].
    intros [= <-]. simpl. now apply (pushStandalone_sound tweet (threadMap m)).
  - apply Nat.leb_gt in Hlen.
    destruct (buildReplyMap threadMembers) as [replyMap|] eqn:Hmap;
      simpl; [|discriminate].
    apply buildReplyMap_values in Hmap.
    assert (Hvalues : Forall (fun entry : string * list Ref =>
                                Forall (fromInput tweets) entry.2) replyMap).
    { eapply Forall_impl; [exact Hmap|]. intros entry Hentry.
      eapply Forall_impl; [exact Hentry|]. intros r Hr.
      rewrite Forall_forall in Hmembers. now apply Hmembers. }
    assert (Hroot : forall rootTweet : Ref,
              fromInput tweets rootTweet ->
              (replies ← findReplies 11 replyMap (id rootTweet.2)
                           ({[id rootTweet.2]} ∪ processedIds m);
               storeThread threadId (rootTweet :: replies.1) replies.2 m)
              = Returned m' ->
              Forall (soundEntry tweets) (threadMap m')).
    { intros rootTweet Hroot.
      destruct (findReplies 11 replyMap (id rootTweet.2) _)
        as [[found marked]|] eqn:Hfound; simpl; [|discriminate].
      destruct (findReplies_spec _ _ _ _ _ _ _ Hvalues Hfound)
        as (Hin & Hnodup & Hmarks & _).
      apply storeThread_sound; [now constructor | | exact Hsound].
      simpl. constructor; [|exact Hnodup].
      intros Hx. apply list_elem_of_In, in_map_iff in Hx as (r & Hr & Hx).
      rewrite Forall_forall in Hmarks.
      apply list_elem_of_In, Hmarks in Hx as [Hx _].
      apply Hx, elem_of_union. left. apply elem_of_singleton. exact Hr. }
    destruct (List.find (isRoot threadMembers) threadMembers)
      as [rootTweet|] eqn:Hfind.
    + apply Hroot. apply find_some in Hfind as [Hfind _].
      rewrite Forall_forall in Hmembers. now apply Hmembers, list_elem_of_In.
    + destruct (head (sort compareRefs threadMembers)) as [rootTweet|] eqn:Hhead.
      * apply Hroot. rewrite Forall_forall in Hmembers. apply Hmembers.
        apply (sort_elem_of compareRefs). now apply head_Some_elem_of.
      * apply head_None in Hhead.
        apply (f_equal (@length Ref)) in Hhead.
        rewrite sort_length in Hhead. simpl in Hhead. lia.
Qed.

Lemma sweepUnprocessed_sound m tweet m' :
  fromInput tweets tweet ->
  Forall (soundEntry tweets) (threadMap m) ->
  sweepUnprocessed m tweet = Returned m' ->
  Forall (soundEntry tweets) (threadMap m').
Proof.
  intros Htweet Hsound. unfold sweepUnprocessed.
  destruct (bool_decide _); [now intros [= <-]|].
  destruct (pushStandalone tweet (threadMap m)) as [tm|] eqn:Hpush;
    simpl; [|discriminate].
  intros [= <-]. simpl. now apply (pushStandalone_sound tweet (threadMap m)).
Qed.

Lemma groupMaps_sound m :
  groupMaps tweets = Returned m -> Forall (soundEntry tweets) (threadMap m).
Proof.
  unfold groupMaps. cbv zeta. fold objects. fold tweetMap.
  destruct (foldM (collectSelfThread tweetMap) tweets [])
    as [selfThreads|] eqn:Hself; simpl; [|discriminate].
  apply (foldM_preserves (fun st => Forall (fun entry => NoDup entry.2) st))
    in Hself; [| |constructor].
  2:{ intros st t st' _. apply collectSelfThread_NoDup. }
  assert (Hfirst : forall m0,
            Forall (soundEntry tweets) (threadMap m0) ->
            Forall (soundEntry tweets)
              (threadMap (foldl (buildSelfThread tweetMap) m0 selfThreads))).
  { induction Hself as [|entry rest Hentry _ IH]; intros m0 Hm0; simpl;
      [exact Hm0|].
    apply IH. now apply buildSelfThread_sound. }
  specialize (Hfirst {| threadMap := []; processedIds := ∅; positions := ∅ |}
                (Forall_nil_2 _)).
  destruct (foldM (groupRemaining tweetMap objects) objects _)
    as [m1|] eqn:Hsecond; simpl; [|discriminate].
  apply (foldM_preserves (fun m0 => Forall (soundEntry tweets) (threadMap m0)))
    in Hsecond; [| |exact Hfirst].
  2:{ intros m0 t m0' Ht. apply groupRemaining_sound.
      now apply objects_fromInput. }
  apply (foldM_preserves (fun m0 => Forall (soundEntry tweets) (threadMap m0)));
    [|exact Hsecond].
  intros m0 t m0' Ht. apply sweepUnprocessed_sound.
  now apply objects_fromInput.
Qed.

Lemma read_emitted positions r :
  fromInput tweets r ->
  emitted tweets (read positions r) /\ id (read positions r) = refId r.
Proof.
  intros Hr. unfold read. destruct (positions !! r.1) as [idx|].
  - split; [|reflexivity]. exists r.1, r.2. split; [exact Hr|]. right. eauto.
  - split; [|reflexivity]. exists r.1, r.2. split; [exact Hr|]. now left.
Qed.

Lemma emit_sound positions result entry result' :
  soundEntry tweets entry ->
  Forall (soundItem tweets) result ->
  emit positions result entry = Returned result' ->
  Forall (soundItem tweets) result'.
Proof.
  intros [Hin Hnodup] Hresult. destruct entry as [key refs].
  simpl in Hin, Hnodup. unfold emit.
  assert (Hread : Forall (emitted tweets) (map (read positions) refs)).
  { apply Forall_forall. intros t Ht.
    apply list_elem_of_In, in_map_iff in Ht as (r & <- & Hr).
    rewrite Forall_forall in Hin.
    now apply read_emitted, Hin, list_elem_of_In. }
  assert (Hids : map id (map (read positions) refs) = map refId refs).
  { rewrite map_map. apply map_ext_in. intros r Hr.
    rewrite Forall_forall in Hin.
    now apply read_emitted, Hin, list_elem_of_In. }
  destruct (String.eqb key "standalone") eqn:Hkey.
  - intros [= <-]. apply Forall_app. split; [exact Hresult|].
    apply Forall_forall. intros item Hitem.
    apply list_elem_of_In, in_map_iff in Hitem as (t & <- & Ht).
    rewrite Forall_forall in Hread. now apply Hread, list_elem_of_In.
  - apply String.eqb_neq in Hkey.
    destruct (1 <? length _)%nat; [|now intros [= <-]].
    destruct (head _) as [first|]; simpl; [|discriminate].
    intros [= <-]. apply Forall_app. split; [exact Hresult|].
    repeat constructor; simpl; [exact Hread|].
    rewrite Hids. now apply Hnodup.
Qed.

Lemma groupThreads_sound :
  exists items,
    groupThreads tweets = Returned items /\ Forall (soundItem tweets) items.
Proof.
  destruct (groupThreads_returns tweets) as (items & Hrun & _).
  exists items. split; [exact Hrun|].
  unfold groupThreads in Hrun.
  destruct (groupMaps tweets) as [m|] eqn:Hmaps; simpl in Hrun; [|discriminate].
  apply groupMaps_sound in Hmaps.
  destruct (foldM (emit (positions m)) (threadMap m) []) as [result|] eqn:Hemit;
    simpl in Hrun; [|discriminate].
  injection Hrun as <-.
  rewrite (sort_Permutation newestFirst result).
  apply (foldM_preserves (Forall (soundItem tweets)) _ _ _ _) in Hemit;
    [exact Hemit | | constructor].
  intros res entry res' Hentry Hres. apply emit_sound; [|exact Hres].
  rewrite Forall_forall in Hmaps. now apply Hmaps.
Qed.

End GroupingSound.

(** Everything [groupThreads] returns is made of the tweets it was given:
    each tweet of the result, standalone or in a thread, is the tweet at
    some place of the input, changed at most by the position written into
    it. *)
Theorem groupThreads_only_input (tweets : list Tweet) :
  exists items,
    Grouping.groupThreads tweets = Returned items
    /\ (forall t, TweetItem t ∈ items -> emitted tweets t)
    /\ (forall thread t,
          ThreadItem thread ∈ items ->
          t ∈ Thread.tweets thread ->
          emitted tweets t).
Proof.
  destruct (groupThreads_sound tweets) as (items & Hrun & Hsound).
  exists items. split; [exact Hrun|].
  rewrite Forall_forall in Hsound. split.
  - intros t Ht. exact (Hsound _ Ht).
  - intros thread t Hthread Ht.
    destruct (Hsound _ Hthread) as [Hall _].
    rewrite Forall_forall in Hall. now apply Hall.
Qed.

(** No thread of the result lists a post twice: the ids of the tweets of
    a thread do not repeat. *)
Theorem groupThreads_thread_ids_distinct (tweets : list Tweet) :
  exists items,
    Grouping.groupThreads tweets = Returned items
    /\ forall thread,
         ThreadItem thread ∈ items -> NoDup (map id (Thread.tweets thread)).
Proof.
  destruct (groupThreads_sound tweets) as (items & Hrun & Hsound).
  exists items. split; [exact Hrun|].
  intros thread Hthread. rewrite Forall_forall in Hsound.
  now destruct (Hsound _ Hthread) as [_ Hnodup].
Qed.

(** ** Single-tweet fetchers *)

Section DetailsFacts.

Import Gateway Details.

Variable server : nat -> string -> Response (option Raw.Tweet).

(** Checking the failure cache twice in a row is checking it once. *)
Lemma hasRecentlyFailed_again url st :
  (hasRecentlyFailed url st).1 = false ->
  hasRecentlyFailed url (hasRecentlyFailed url st).2
  = (false, (hasRecentlyFailed url st).2).
Proof.
  intros Hpass. pose proof (hasRecentlyFailed_false url st Hpass) as Hdel.
  unfold hasRecentlyFailed at 1. rewrite Hdel, lookup_delete_eq. reflexivity.
Qed.

Lemma makeApiRequest_checked {JSON : Type}
    (upstream : nat -> string -> Response JSON) url retryCount st :
  (hasRecentlyFailed url st).1 = false ->
  makeApiRequest upstream url retryCount (hasRecentlyFailed url st).2
  = makeApiRequest upstream url retryCount st.
Proof.
  intros Hpass. unfold makeApiRequest.
  rewrite !(makeApiRequest_fuel_eq upstream _ url retryCount).
  rewrite (hasRecentlyFailed_again url st Hpass).
  destruct (hasRecentlyFailed url st) as [failed st1]. simpl in Hpass.
  now subst failed.
Qed.

(** A request that was given up on leaves its record behind. *)
Lemma makeApiRequest_fuel_gave_up {JSON : Type}
    (upstream : nat -> string -> Response JSON) fuel url retryCount st code
    st' :
  makeApiRequest_fuel upstream fuel url retryCount st
  = (Thrown (ApiError code), st') ->
  failedRequests st' !! url
  = Some {| timestamp := clock st'; errorCode := code;
            retryAfter := if code =? 429 then Some (clock st' + 60000)
                          else None |}.
Proof.
  revert retryCount st.
  assert (Hgive : forall status st0,
            giveUp (JSON := JSON) url status st0 = (Thrown (ApiError code), st') ->
            failedRequests st' !! url
            = Some {| timestamp := clock st'; errorCode := code;
                      retryAfter := if code =? 429 then Some (clock st' + 60000)
                                    else None |}).
  { intros status st0. unfold giveUp. intros [= -> <-].
    destruct (code =? 429); rewrite recordFailedRequest_lookup; reflexivity. }
  induction fuel as [|fuel IH]; intros retryCount st;
    rewrite makeApiRequest_fuel_eq;
    destruct (hasRecentlyFailed url st) as [[] st1]; try discriminate;
    cbv zeta;
    destruct (send upstream url (rateLimit st1)) as [xhr st2];
    (destruct ((200 <=? status xhr) && (status xhr <? 300));
     [destruct (parsed xhr); discriminate|]);
    destruct ((status xhr =? 429) && (retryCount <? MAX_RETRIES)%nat);
    try apply Hgive.
  apply IH.
Qed.

(** While the record of a failure blocks a url, the check answers at once
    and changes nothing. *)
Lemma blocked_after_failure url st code elapsed :
  failedRequests st !! url
  = Some {| timestamp := clock st; errorCode := code;
            retryAfter := if code =? 429 then Some (clock st + 60000)
                          else None |} ->
  0 <= clock st ->
  0 <= elapsed <= (if code =? 429 then 60000 else FAILED_REQUEST_EXPIRY) ->
  hasRecentlyFailed url (sleep elapsed st) = (true, sleep elapsed st).
Proof.
  intros Hrecord Hclock Helapsed.
  assert (Hblocked : (hasRecentlyFailed url (sleep elapsed st)).1 = true).
  { apply hasRecentlyFailed_true. eexists. split; [exact Hrecord|].
    cbn [timestamp retryAfter]. unfold FAILED_REQUEST_EXPIRY in *.
    change (clock (sleep elapsed st)) with (clock st + Z.max 0 elapsed).
    destruct (code =? 429); unfold deadlinePassed.
    - split; [lia|].
      apply andb_false_iff. right. apply Z.ltb_ge. lia.
    - split; [lia | reflexivity]. }
  pose proof (hasRecentlyFailed_true_state _ _ Hblocked) as Hstate.
  destruct (hasRecentlyFailed url (sleep elapsed st)) as [failed st1].
  simpl in Hblocked, Hstate. now subst.
Qed.

(** A tweet that was fetched is remembered under its id: asking for it
    again returns the same tweet, whatever the upstream would answer now
    and whatever happened to the gateway since, and nothing goes on the
    wire.  A call that returns nothing stores nothing. *)
Theorem fetchTweetDetails_cached (tweetId : string) (w : World) :
  let r := fetchTweetDetails server tweetId w in
  match r.1 with
  | Some tweet =>
      forall upstream st,
        fetchTweetDetails upstream tweetId (with_gateway r.2 st)
        = (Some tweet, with_gateway r.2 st)
  | None => tweetDetails r.2 = tweetDetails w
  end.
Proof.
  assert (Hhit : forall tweet w0 upstream,
            String.eqb tweetId "" = false ->
            tweetDetails w0 !! tweetId = Some tweet ->
            fetchTweetDetails upstream tweetId w0 = (Some tweet, w0)).
  { intros tweet w0 upstream Hid Hcached. unfold fetchTweetDetails.
    now rewrite Hid, Hcached. }
  intros r. subst r.
  destruct (fetchTweetDetails server tweetId w) as [result w'] eqn:Hrun.
  cbn [fst snd]. unfold fetchTweetDetails in Hrun. cbv zeta in Hrun.
  destruct (String.eqb tweetId "") eqn:Hid; [now injection Hrun as <- <-|].
  destruct (tweetDetails w !! tweetId) as [cached|] eqn:Hcached.
  - injection Hrun as <- <-. intros upstream st. now apply Hhit.
  - destruct (hasRecentlyFailed _ _) as [[] st1];
      [now injection Hrun as <- <-|].
    destruct (makeApiRequest _ _ _ _) as [[[data|]|] st2];
      injection Hrun as <- <-; try reflexivity.
    intros upstream st. apply Hhit; [reflexivity|].
    apply lookup_insert_eq.
Qed.

(** After a request for a continuation was given up on, asking again
    within the time the failure blocks the url, a minute after a 429 and
    ten minutes after any other status, is answered with nothing at once:
    the gateway stays as it is and nothing goes on the wire, whatever the
    upstream would answer now. *)
Theorem fetchTweetContinuation_after_failure (tweetId : string)
    (st st' : State) (code elapsed : Z)
    (upstream : nat -> string -> Response (option Raw.Tweet)) :
  tweetId <> "" ->
  makeApiRequest server (continuationUrl tweetId) 0 st
  = (Thrown (ApiError code), st') ->
  0 <= clock st' ->
  0 <= elapsed <= (if code =? 429 then 60000 else FAILED_REQUEST_EXPIRY) ->
  fetchTweetContinuation server tweetId st = (None, st')
  /\ fetchTweetContinuation upstream tweetId (sleep elapsed st')
     = (None, sleep elapsed st').
Proof.
  intros Hid Hrequest Hclock Helapsed.
  apply String.eqb_neq in Hid. unfold fetchTweetContinuation. cbv zeta.
  rewrite Hid. split.
  - assert (Hpass : (hasRecentlyFailed (continuationUrl tweetId) st).1 = false).
    { unfold makeApiRequest in Hrequest.
      rewrite makeApiRequest_fuel_eq in Hrequest.
      destruct (hasRecentlyFailed _ st) as [[] st1]; [discriminate|reflexivity]. }
    pose proof (makeApiRequest_checked server _ 0 st Hpass) as Hsame.
    destruct (hasRecentlyFailed _ st) as [failed st1]. simpl in Hpass, Hsame.
    subst failed. now rewrite Hsame, Hrequest.
  - apply makeApiRequest_fuel_gave_up in Hrequest.
    now rewrite (blocked_after_failure _ _ _ _ Hrequest Hclock Helapsed).
Qed.

End DetailsFacts.

Lemma fetchTweetContinuation_after_failure_witness :
  let first :=
    Gateway.makeApiRequest MoreSamples.detailsDown
      (Details.continuationUrl "5") 0 Samples.freshGateway in
  Details.fetchTweetContinuation MoreSamples.detailsDown "5"
    Samples.freshGateway = (None, first.2)
  /\ Details.fetchTweetContinuation MoreSamples.detailsServer "5"
       (Gateway.sleep 600000 first.2)
     = (None, Gateway.sleep 600000 first.2).
Proof.
  intros first.
  apply (fetchTweetContinuation_after_failure MoreSamples.detailsDown "5"
           Samples.freshGateway first.2 500 600000 MoreSamples.detailsServer).
  - discriminate.
  - vm_compute. reflexivity.
  - vm_compute. discriminate.
  - vm_compute. split; discriminate.
Defined.

(** ** Saving the selected tweets *)

Section SavingFacts.

Import Saving.

Lemma map_get_None {V} k (m : list (string * V)) :
  map_get k m = None ->
  ~ In k (map fst m) /\ forall v, map_set k v m = m ++ [(k, v)].
Proof.
  induction m as [|[k' v'] m IH]; simpl.
  - intros _. split; [tauto | reflexivity].
  - destruct (String.eqb k k') eqn:Hk; [discriminate|].
    intros Hget. destruct (IH Hget) as [Hnot Hset].
    apply String.eqb_neq in Hk. split.
    + intros [Heq|Hin]; [congruence | tauto].
    + intros v. now rewrite Hset.
Qed.

Lemma map_get_Some {V} k (m : list (string * V)) g :
  map_get k m = Some g ->
  exists m1 m2,
    m = m1 ++ (k, g) :: m2
    /\ ~ In k (map fst m1)
    /\ forall v, map_set k v m = m1 ++ (k, v) :: m2.
Proof.
  induction m as [|[k' v'] m IH]; simpl; [discriminate|].
  destruct (String.eqb k k') eqn:Hk.
  - apply String.eqb_eq in Hk as <-. intros [= ->]. exists [], m.
    split; [reflexivity|]. split; [simpl; tauto | reflexivity].
  - intros Hget. destruct (IH Hget) as (m1 & m2 & -> & Hnot & Hset).
    apply String.eqb_neq in Hk.
    exists ((k', v') :: m1), m2. split; [reflexivity|]. split.
    + simpl. intros [Heq|Hin]; [congruence | tauto].
    + intros v. simpl. now rewrite Hset.
Qed.

Lemma map_has_In {V} k (m : list (string * V)) :
  map_has k m = true <-> In k (map fst m).
Proof.
  unfold map_has. induction m as [|[k' v'] m IH]; simpl.
  - split; [discriminate | tauto].
  - destruct (String.eqb k k') eqn:Hk.
    + apply String.eqb_eq in Hk. split; [now left | reflexivity].
    + apply String.eqb_neq in Hk. rewrite IH. split; [tauto|].
      intros [Heq|Hin]; [congruence | exact Hin].
Qed.

Lemma filter_snoc {A} (f : A -> bool) l x :
  List.filter f (l ++ [x]) = List.filter f l ++ (if f x then [x] else []).
Proof. rewrite List.filter_app. simpl. now destruct (f x). Qed.

Lemma List_filter_Permutation {A} (f : A -> bool) l l' :
  Permutation l l' -> Permutation (List.filter f l) (List.filter f l').
Proof.
  induction 1 as [|x l l' _ IH|x y l|l l' l'' _ IH1 _ IH2]; simpl.
  - constructor.
  - destruct (f x); [now constructor | exact IH].
  - destruct (f x), (f y); try reflexivity. constructor.
  - now transitivity (List.filter f l').
Qed.

Lemma filter_split {A} (f : A -> bool) l :
  Permutation (List.filter (fun x => negb (f x)) l ++ List.filter f l) l.
Proof.
  induction l as [|x l IH]; simpl; [constructor|].
  destruct (f x); simpl.
  - rewrite <- Permutation_middle. now constructor.
  - now constructor.
Qed.

(** The sort puts in order whatever the comparator orders. *)
Lemma sort_StronglySorted {A} (cmp : A -> A -> number) (R : A -> A -> Prop)
    (l : list A) :
  (forall a b, In a l -> In b l -> if cmp_gt cmp a b then R b a else R a b) ->
  (forall a b c, In a l -> In b l -> In c l -> R a b -> R b c -> R a c) ->
  StronglySorted R (sort cmp l).
Proof.
  induction l as [|x l IH]; intros Hcmp Htrans; simpl; [constructor|].
  assert (Hsorted : StronglySorted R (sort cmp l)).
  { apply IH.
    - intros a b Ha Hb. apply Hcmp; now right.
    - intros a b c Ha Hb Hc. apply Htrans; now right. }
  assert (Hin : forall y, In y (sort cmp l) -> In y l).
  { intros y Hy. eapply Permutation_in; [apply sort_Permutation | exact Hy]. }
  clear IH. induction Hsorted as [|y s Hs IH Hy]; simpl.
  - repeat constructor.
  - pose proof (Hcmp x y (or_introl eq_refl) (or_intror (Hin y (or_introl eq_refl))))
      as Hxy.
    destruct (cmp_gt cmp x y).
    + constructor; [apply IH; intros z Hz; apply Hin; now right|].
      apply Forall_forall. intros z Hz.
      apply list_elem_of_In in Hz.
      apply (Permutation_in _ (sort_insert_Permutation cmp x s)) in Hz.
      destruct Hz as [<-|Hz]; [exact Hxy|].
      rewrite Forall_forall in Hy. now apply Hy, list_elem_of_In.
    + constructor; [now constructor|].
      constructor; [exact Hxy|].
      apply Forall_forall. intros z Hz.
      rewrite Forall_forall in Hy. pose proof (Hy z Hz) as Hyz.
      apply list_elem_of_In in Hz.
      apply (Htrans x y z); [now left | right; apply Hin; now left
                            | right; apply Hin; now right | exact Hxy
                            | exact Hyz].
Qed.

Lemma map_get_fresh {V} k (v : V) (m : list (string * V)) :
  map_get k m = None -> map_get k (m ++ [(k, v)]) = Some v.
Proof.
  induction m as [|[k' v'] m IH]; simpl.
  - now rewrite String.eqb_refl.
  - destruct (String.eqb k k'); [discriminate | exact IH].
Qed.

Lemma map_set_fresh {V} k (v v' : V) (m : list (string * V)) :
  map_get k m = None -> map_set k v' (m ++ [(k, v)]) = m ++ [(k, v')].
Proof.
  induction m as [|[k' w] m IH]; simpl.
  - now rewrite String.eqb_refl.
  - destruct (String.eqb k k'); [discriminate|]. intros Hget.
    now rewrite IH.
Qed.

Lemma filter_none {A} (f : A -> bool) l :
  (forall x, In x l -> f x = false) -> List.filter f l = [].
Proof.
  induction l as [|x l IH]; intros Hl; simpl; [reflexivity|].
  rewrite (Hl x) by now left. apply IH. intros y Hy. apply Hl. now right.
Qed.

Lemma others_filed k t seen (l : list (string * list Tweet)) :
  (threaded t = true -> threadIdOf t = k) ->
  ~ In k (map fst l) ->
  Forall (filed seen) l -> Forall (filed (seen ++ [t])) l.
Proof.
  intros Hkey Hnot Hl. apply Forall_forall. intros entry Hentry.
  rewrite Forall_forall in Hl. destruct (Hl entry Hentry) as [Heq Hne].
  split; [|exact Hne]. rewrite filter_snoc.
  assert (Hother : filedUnder entry.1 t = false).
  { unfold filedUnder. destruct (threaded t); [|reflexivity]. simpl.
    apply String.eqb_neq. rewrite Hkey by reflexivity. intros Hk.
    apply Hnot. rewrite Hk. apply in_map. now apply list_elem_of_In. }
  rewrite Hother, app_nil_r. exact Heq.
Qed.

Lemma groupByThread_grouped threadMap seen tweet :
  grouped threadMap seen ->
  exists threadMap',
    groupByThread threadMap tweet = Returned threadMap'
    /\ grouped threadMap' (seen ++ [tweet]).
Proof.
  intros (Hkeys & Hfiled & Hseen & Hperm). unfold groupByThread.
  destruct (threaded tweet) eqn:Hthreaded.
  2:{ exists threadMap. split; [reflexivity|]. repeat split.
      - exact Hkeys.
      - apply Forall_forall. intros entry Hentry.
        rewrite Forall_forall in Hfiled.
        destruct (Hfiled entry Hentry) as [Heq Hne].
        split; [|exact Hne]. rewrite filter_snoc. unfold filedUnder at 2.
        rewrite Hthreaded. simpl. now rewrite app_nil_r.
      - apply Forall_app. split; [exact Hseen|]. constructor; [|constructor].
        congruence.
      - rewrite filter_snoc, Hthreaded, app_nil_r. exact Hperm. }
  cbv zeta. set (k := threadIdOf tweet).
  assert (Hself : filedUnder k tweet = true).
  { unfold filedUnder. rewrite Hthreaded. simpl. apply String.eqb_refl. }
  assert (Hseen' : forall m : list (string * list Tweet),
            (forall key, In key (map fst threadMap) -> In key (map fst m)) ->
            In k (map fst m) ->
            Forall (fun t => threaded t = true ->
                             map_has (threadIdOf t) m = true)
              (seen ++ [tweet])).
  { intros m Hm Hk. apply Forall_app. split.
    - eapply Forall_impl; [exact Hseen|]. intros t Ht Htt.
      apply map_has_In, Hm, map_has_In, Ht, Htt.
    - constructor; [|constructor]. intros _. now apply map_has_In. }
  unfold Grouping.ensure.
  destruct (map_has k threadMap) eqn:Hhas.
  - unfold map_has in Hhas.
    destruct (map_get k threadMap) as [array|] eqn:Hget; [|discriminate].
    simpl.
    destruct (map_get_Some _ _ _ Hget) as (m1 & m2 & Hm & Hnot1 & Hset).
    rewrite Hset. eexists. split; [reflexivity|].
    subst threadMap. rewrite map_app in Hkeys. simpl in Hkeys.
    apply NoDup_app in Hkeys as (Hk1 & Hk12 & Hk2).
    apply NoDup_cons in Hk2 as [Hnot2 Hk2].
    apply Forall_app in Hfiled as [Hf1 Hf2].
    apply Forall_cons in Hf2 as [[Harray _] Hf2]. simpl in Harray.
    repeat split.
    + rewrite map_app. simpl. apply NoDup_app. repeat split; try assumption.
      now apply NoDup_cons.
    + apply Forall_app. split.
      * apply (others_filed k); [now intros _ | exact Hnot1 | exact Hf1].
      * constructor.
        -- split; simpl; [|now destruct array].
           now rewrite filter_snoc, Hself, Harray.
        -- apply (others_filed k); [now intros _ | | exact Hf2].
           intros Hin. now apply Hnot2, list_elem_of_In.
    + apply Hseen'.
      * intros key. rewrite !map_app. simpl. tauto.
      * rewrite map_app. apply in_or_app. right. now left.
    + rewrite filter_snoc, Hthreaded, <- Hperm.
      rewrite !map_app, !concat_app. simpl.
      rewrite <- !app_assoc.
      apply Permutation_app_head.
      apply Permutation_app_head. apply Permutation_app_comm.
  - unfold map_has in Hhas.
    destruct (map_get k threadMap) as [array|] eqn:Hget; [discriminate|].
    destruct (map_get_None _ _ Hget) as [Hnot Hset].
    rewrite Hset, (map_get_fresh _ _ _ Hget). simpl.
    rewrite (map_set_fresh _ _ _ _ Hget).
    eexists. split; [reflexivity|]. repeat split.
    + rewrite map_app. simpl. apply NoDup_app. repeat split.
      * exact Hkeys.
      * intros x Hx Hx'. apply list_elem_of_singleton in Hx'. subst x.
        now apply Hnot, list_elem_of_In.
      * apply NoDup_singleton.
    + apply Forall_app. split.
      * apply (others_filed k); [now intros _ | exact Hnot | exact Hfiled].
      * constructor; [|constructor]. split; simpl; [|discriminate].
        rewrite filter_snoc, Hself.
        rewrite filter_none; [reflexivity|].
        intros t Ht. unfold filedUnder.
        destruct (threaded t) eqn:Htt; [|reflexivity]. simpl.
        apply String.eqb_neq. intros Hk. apply Hnot, map_has_In.
        rewrite Forall_forall in Hseen. rewrite <- Hk.
        now apply Hseen; [apply list_elem_of_In|].
    + apply Hseen'.
      * intros key. rewrite map_app. intros Hin. apply in_or_app. now left.
      * rewrite map_app. apply in_or_app. right. now left.
    + rewrite filter_snoc, Hthreaded, <- Hperm.
      rewrite !map_app, !concat_app. simpl. reflexivity.
Qed.

Lemma orderTweets_spec (tweets : list Tweet) :
  exists threadMap,
    orderTweets tweets
    = Returned
        (List.filter (fun tweet => negb (threaded tweet))
           (sort byDateDescending tweets)
         ++ concat (map snd threadMap))
    /\ NoDup (map fst threadMap)
    /\ Forall (savedThread tweets) threadMap
    /\ Permutation
         (List.filter (fun tweet => negb (threaded tweet))
            (sort byDateDescending tweets)
          ++ concat (map snd threadMap))
         tweets.
Proof.
  unfold orderTweets. cbv zeta.
  set (sortedTweets := sort byDateDescending tweets).
  assert (Hloop : forall l threadMap seen,
            grouped threadMap seen ->
            exists threadMap',
              foldM groupByThread l threadMap = Returned threadMap'
              /\ grouped threadMap' (seen ++ l)).
  { induction l as [|t l IH]; intros threadMap seen Hgrouped; simpl.
    - exists threadMap. now rewrite app_nil_r.
    - destruct (groupByThread_grouped _ _ t Hgrouped) as (m1 & -> & Hm1).
      simpl. destruct (IH _ _ Hm1) as (m2 & Hm2 & Hgrouped2).
      exists m2. split; [exact Hm2|]. now rewrite <- app_assoc in Hgrouped2. }
  destruct (Hloop sortedTweets [] []) as (threadMap & -> & Hgrouped).
  { repeat split; constructor. }
  simpl in Hgrouped. destruct Hgrouped as (Hkeys & Hfiled & _ & Hperm).
  simpl. exists (map sortThread threadMap).
  assert (Hsorted : Permutation sortedTweets tweets)
    by apply sort_Permutation.
  assert (Hentry : forall entry, Permutation (sortThread entry).2 entry.2).
  { intros entry. unfold sortThread. simpl.
    destruct (1 <? length entry.2)%nat; [apply sort_Permutation | reflexivity]. }
  repeat split.
  - f_equal. f_equal. apply filter_ext. intros t. unfold threaded.
    now rewrite negb_orb.
  - rewrite map_map. simpl. exact Hkeys.
  - apply Forall_forall. intros entry' Hentry'.
    apply list_elem_of_In, in_map_iff in Hentry' as (entry & <- & Hin).
    rewrite Forall_forall in Hfiled.
    apply list_elem_of_In, Hfiled in Hin as [Heq Hne].
    split; [|split].
    + intros Hnil. apply Hne. apply Permutation_nil.
      rewrite <- Hnil. apply Hentry.
    + rewrite Hentry. change (sortThread entry).1 with entry.1. rewrite Heq.
      now apply List_filter_Permutation.
    + unfold sortThread. cbn [fst snd].
      destruct (1 <? length entry.2)%nat eqn:Hlen.
      * intros Hpos.
        assert (Hall : forall t, In t entry.2 -> is_Some (thread_position t)).
        { intros t Ht. rewrite Forall_forall in Hpos.
          apply Hpos, list_elem_of_In.
          eapply Permutation_in; [symmetry; apply sort_Permutation | exact Ht]. }
        apply sort_StronglySorted.
        -- intros a b Ha Hb.
           destruct (Hall a Ha) as [pa Hpa], (Hall b Hb) as [pb Hpb].
           unfold cmp_gt, byThreadPosition, positionNotAfter.
           rewrite Hpa, Hpb.
           destruct (0 <? pa - pb) eqn:Hcmp;
             [apply Z.ltb_lt in Hcmp | apply Z.ltb_ge in Hcmp]; lia.
        -- intros a b c Ha Hb Hc. unfold positionNotAfter.
           destruct (Hall a Ha) as [pa ->], (Hall b Hb) as [pb ->],
             (Hall c Hc) as [pc ->]. lia.
      * intros Hpos. apply Nat.ltb_ge in Hlen.
        destruct (entry.2) as [|t [|]]; simpl in Hlen; try lia;
          repeat constructor.
  - etransitivity; [|exact Hsorted].
    etransitivity; [|apply (filter_split threaded sortedTweets)].
    apply Permutation_app_head. rewrite <- Hperm.
    clear. induction threadMap as [|entry m IH]; simpl; [constructor|].
    apply Permutation_app; [|exact IH].
    unfold sortThread. simpl.
    destruct (1 <? length entry.2)%nat; [apply sort_Permutation | reflexivity].
Qed.

End SavingFacts.

Lemma stamped_tweets (now : nat -> Z) (l : list Tweet) :
  map Saving.tweet
    (imap (fun i tweet => {| Saving.tweet := tweet; Saving.savedAt := now i |})
       l)
  = l.
Proof.
  revert now. induction l as [|t l IH]; intros now; simpl; [reflexivity|].
  f_equal. apply (IH (now ∘ S)).
Qed.

Lemma StronglySorted_List_filter {A} (R : A -> A -> Prop) (f : A -> bool) l :
  StronglySorted R l -> StronglySorted R (List.filter f l).
Proof.
  induction 1 as [|x l Hl IH Hx]; simpl; [constructor|].
  destruct (f x); [|exact IH]. constructor; [exact IH|].
  apply Forall_forall. intros y Hy.
  apply list_elem_of_In, filter_In in Hy as [Hy _].
  rewrite Forall_forall in Hx. now apply Hx, list_elem_of_In.
Qed.

Lemma saveSelectedTweets_spec (now : nat -> Z)
    (backend : Saving.Request -> option Saving.Reply) (tweets : list Tweet)
    (username : option string) :
  let r := Saving.saveSelectedTweets now backend tweets username in
  length (Saving.toasts r) = 1%nat
  /\ match tweets with
     | [] => Saving.saved r = false /\ Saving.posted r = []
     | _ :: _ =>
         exists request,
           Saving.posted r = [request]
           /\ Permutation (map Saving.tweet (Saving.tweets request)) tweets
           /\ Saving.username request = default "anonymous" username
           /\ (Saving.saved r = true <->
               exists skipped,
                 backend request
                 = Some {| Saving.ok := true;
                           Saving.body := Saving.JsonValue skipped |})
     end.
Proof.
  intros r. subst r. unfold Saving.saveSelectedTweets. cbv zeta.
  destruct tweets as [|t tweets]; [now repeat split|].
  change (length (t :: tweets) =? 0)%nat with false. cbv iota.
  destruct (orderTweets_spec (t :: tweets)) as (threadMap & -> & _ & _ & Hperm).
  set (ordered := List.filter _ _ ++ _) in *.
  set (request := {| Saving.tweets := _; Saving.username := _ |}).
  assert (Hpayload : Permutation (map Saving.tweet (Saving.tweets request))
                       (t :: tweets))
    by (simpl; now rewrite stamped_tweets).
  destruct (backend request) as [[[] body]|] eqn:Hanswer; simpl.
  - destruct body as [| |skipped]; simpl;
      (split; [reflexivity|]); exists request;
      (split; [reflexivity|]); (split; [exact Hpayload|]);
      (split; [reflexivity|]); rewrite Hanswer.
    + split; [discriminate | now intros [skipped [=]]].
    + split; [discriminate | now intros [skipped [=]]].
    + split; [now exists skipped | reflexivity].
  - split; [reflexivity|]. exists request.
    split; [reflexivity|]. split; [exact Hpayload|]. split; [reflexivity|].
    rewrite Hanswer. split; [discriminate | now intros [skipped [=]]].
  - split; [reflexivity|]. exists request.
    split; [reflexivity|]. split; [exact Hpayload|]. split; [reflexivity|].
    rewrite Hanswer. split; [discriminate | now intros [skipped [=]]].
Qed.

(** What [saveSelectedTweets] sends.  With nothing selected it posts
    nothing and answers [false].  Otherwise it posts one request, which
    carries the selected tweets, each of them once and none else, under
    the given user name or [anonymous]; it answers [true] exactly when the
    backend accepts the request and its answer reads as a value.  Either
    way the call shows one notice. *)
Theorem saveSelectedTweets_payload (now : nat -> Z)
    (backend : Saving.Request -> option Saving.Reply) (tweets : list Tweet)
    (username : option string) :
  let r := Saving.saveSelectedTweets now backend tweets username in
  length (Saving.toasts r) = 1%nat
  /\ match tweets with
     | [] => Saving.saved r = false /\ Saving.posted r = []
     | _ :: _ =>
         exists request,
           Saving.posted r = [request]
           /\ Permutation (map Saving.tweet (Saving.tweets request)) tweets
           /\ Saving.username request = default "anonymous" username
           /\ (Saving.saved r = true <->
               exists skipped,
                 backend request
                 = Some {| Saving.ok := true;
                           Saving.body := Saving.JsonValue skipped |})
     end.
Proof. apply saveSelectedTweets_spec. Qed.

(** How the payload is laid out.  The tweets without a thread id and a
    conversation id come first, newest first when the dates parse; then
    the threads one after the other, each with all the selected tweets of
    its key together, in the order of their positions when every one of
    them has a position.  No two threads share a key. *)
Theorem saveSelectedTweets_threads_together (now : nat -> Z)
    (backend : Saving.Request -> option Saving.Reply) (tweets : list Tweet)
    (username : option string) :
  tweets <> [] ->
  exists request standalone threadMap,
    Saving.posted (Saving.saveSelectedTweets now backend tweets username)
    = [request]
    /\ map Saving.tweet (Saving.tweets request)
       = standalone ++ concat (map snd threadMap)
    /\ Permutation standalone
         (List.filter (fun t => negb (Saving.threaded t)) tweets)
    /\ (Forall (fun t => is_Some (created_at t)) tweets ->
        StronglySorted (fun a b => notLater b a) standalone)
    /\ NoDup (map fst threadMap)
    /\ Forall (savedThread tweets) threadMap.
Proof.
  intros Hsome. unfold Saving.saveSelectedTweets. cbv zeta.
  destruct tweets as [|t tweets]; [congruence|].
  change (length (t :: tweets) =? 0)%nat with false. cbv iota.
  destruct (orderTweets_spec (t :: tweets))
    as (threadMap & -> & Hkeys & Hthreads & _).
  set (request := {| Saving.tweets := _; Saving.username := _ |}).
  exists request,
    (List.filter (fun t => negb (Saving.threaded t))
       (sort Saving.byDateDescending (t :: tweets))),
    threadMap.
  split; [|split; [|split; [|split; [|split]]]].
  - destruct (backend request) as [[[] [| |skipped]]|]; reflexivity.
  - simpl. now rewrite stamped_tweets.
  - apply List_filter_Permutation, sort_Permutation.
  - intros Hdates. apply StronglySorted_List_filter.
    assert (Hall : forall x, In x (t :: tweets) -> is_Some (created_at x)).
    { intros x Hx. rewrite Forall_forall in Hdates.
      now apply Hdates, list_elem_of_In. }
    apply sort_StronglySorted.
    + intros a b Ha Hb.
      destruct (Hall a Ha) as [ta Hta], (Hall b Hb) as [tb Htb].
      unfold cmp_gt, Saving.byDateDescending, compareCreatedAt, notLater.
      rewrite Hta, Htb.
      destruct (0 <? tb - ta) eqn:Hcmp;
        [apply Z.ltb_lt in Hcmp | apply Z.ltb_ge in Hcmp]; lia.
    + intros a b c Ha Hb Hc. unfold notLater.
      destruct (Hall a Ha) as [ta ->], (Hall b Hb) as [tb ->],
        (Hall c Hc) as [tc ->]. lia.
  - exact Hkeys.
  - exact Hthreads.
Qed.

Lemma saveSelectedTweets_threads_together_witness :
  exists request standalone threadMap,
    Saving.posted
      (Saving.saveSelectedTweets (fun i => 5000) (fun request => None)
         Samples.twoChains None)
    = [request]
    /\ map Saving.tweet (Saving.tweets request)
       = standalone ++ concat (map snd threadMap)
    /\ Permutation standalone
         (List.filter (fun t => negb (Saving.threaded t)) Samples.twoChains)
    /\ (Forall (fun t => is_Some (created_at t)) Samples.twoChains ->
        StronglySorted (fun a b => notLater b a) standalone)
    /\ NoDup (map fst threadMap)
    /\ Forall (savedThread Samples.twoChains) threadMap.
Proof.
  apply (saveSelectedTweets_threads_together (fun i => 5000)
           (fun request => None) Samples.twoChains None).
  discriminate.
Defined.

(** The linkage the normalizer gives and what the saver makes of it.  A
    normalized tweet with an id always has a conversation id and a thread
    id, so the saver files it under a thread: the payload of tweets as
    the fetcher makes them has no standalone part, it is the threads one
    after the other, each with all the tweets of its key. *)
Theorem processTweet_never_standalone (now : nat -> Z)
    (backend : Saving.Request -> option Saving.Reply)
    (raws : list Raw.Tweet) (username : option string) :
  Forall (fun raw => Raw.tweet_id raw <> "") raws ->
  raws <> [] ->
  let tweets := map processTweet raws in
  Forall (fun t => truthy (conversation_id t) = true
                   /\ truthy (thread_id t) = true) tweets
  /\ exists request threadMap,
       Saving.posted (Saving.saveSelectedTweets now backend tweets username)
       = [request]
       /\ map Saving.tweet (Saving.tweets request) = concat (map snd threadMap)
       /\ NoDup (map fst threadMap)
       /\ Forall (savedThread tweets) threadMap.
Proof.
  intros Hids Hsome tweets.
  assert (Hkeys : Forall (fun t => truthy (conversation_id t) = true
                                   /\ truthy (thread_id t) = true) tweets).
  { subst tweets. apply Forall_forall. intros t Ht.
    apply list_elem_of_In, in_map_iff in Ht as (raw & <- & Hraw).
    rewrite Forall_forall in Hids.
    now apply processTweet_keys, Hids, list_elem_of_In. }
  split; [exact Hkeys|].
  unfold Saving.saveSelectedTweets. cbv zeta.
  replace (length tweets =? 0)%nat with false
    by (subst tweets; now destruct raws).
  destruct (orderTweets_spec tweets) as (threadMap & -> & Hdistinct & Hthreads & _).
  rewrite (filter_none (fun tweet => negb (Saving.threaded tweet))).
  2:{ intros t Ht.
      apply (Permutation_in _ (sort_Permutation Saving.byDateDescending tweets))
        in Ht.
      rewrite Forall_forall in Hkeys.
      destruct (Hkeys t (proj2 (list_elem_of_In _ _) Ht)) as [_ Hthread].
      unfold Saving.threaded. now rewrite Hthread. }
  set (request := {| Saving.tweets := _; Saving.username := _ |}).
  exists request, threadMap. split; [|split; [|split]].
  - destruct (backend request) as [[[] [| |skipped]]|]; reflexivity.
  - simpl. now rewrite stamped_tweets.
  - exact Hdistinct.
  - exact Hthreads.
Qed.

Lemma processTweet_never_standalone_witness :
  let tweets :=
    map processTweet
      [Samples.alicePost "1" 1000 None None None;
       Samples.alicePost "2" 2000 None (Some "1") (Some "7")] in
  exists request threadMap,
    Saving.posted
      (Saving.saveSelectedTweets (fun i => 5000) (fun request => None) tweets
         None)
    = [request]
    /\ map Saving.tweet (Saving.tweets request) = concat (map snd threadMap)
    /\ NoDup (map fst threadMap)
    /\ Forall (savedThread tweets) threadMap.
Proof.
  intros tweets.
  apply (processTweet_never_standalone (fun i => 5000) (fun request => None)
           [Samples.alicePost "1" 1000 None None None;
            Samples.alicePost "2" 2000 None (Some "1") (Some "7")] None).
  - repeat constructor; discriminate.
  - discriminate.
Defined.

(** ** The page: categories and pages *)

Section IndexFacts.

Import Index.

Lemma categoryTweetCounts_fold (l : list Item) (counts : Counts) :
  let step := fun counts item =>
       if isThread item then
         {| countAll := countAll counts; countNormal := countNormal counts;
            countThread := S (countThread counts);
            countLong := countLong counts |}
       else if isLong item then
         {| countAll := countAll counts; countNormal := countNormal counts;
            countThread := countThread counts;
            countLong := S (countLong counts) |}
       else
         {| countAll := countAll counts;
            countNormal := S (countNormal counts);
            countThread := countThread counts;
            countLong := countLong counts |} in
  let result := foldl step counts l in
  countAll result = countAll counts
  /\ countNormal result
     = (countNormal counts + length (filteredItems l CategoryNormal))%nat
  /\ countThread result
     = (countThread counts + length (filteredItems l CategoryThread))%nat
  /\ countLong result
     = (countLong counts + length (filteredItems l CategoryLong))%nat
  /\ (length (filteredItems l CategoryNormal)
      + length (filteredItems l CategoryThread)
      + length (filteredItems l CategoryLong) = length l)%nat.
Proof.
  intros step result. subst result. revert counts.
  induction l as [|item l IH]; intros counts; simpl.
  - repeat split; lia.
  - destruct (IH (step counts item)) as (Hall & Hnormal & Hthread & Hlong & Hsum).
    rewrite Hall, Hnormal, Hthread, Hlong. clear IH Hall Hnormal Hthread Hlong.
    unfold filteredItems in *. simpl in *. subst step.
    destruct item as [tweet|thread]; simpl.
    + destruct (is_long tweet); simpl; repeat split; lia.
    + repeat split; lia.
Qed.

(** The number each category shows is the number of items its tab lists,
    and the three kinds add up to all the items: every item is regular,
    long or a thread, and only one of them. *)
Theorem categoryTweetCounts_agree (allItems : list Item) :
  (forall category,
      countOf (categoryTweetCounts allItems) category
      = length (filteredItems allItems category))
  /\ (countNormal (categoryTweetCounts allItems)
      + countThread (categoryTweetCounts allItems)
      + countLong (categoryTweetCounts allItems)
      = countAll (categoryTweetCounts allItems))%nat.
Proof.
  pose proof (categoryTweetCounts_fold allItems
                {| countAll := length allItems; countNormal := 0;
                   countThread := 0; countLong := 0 |})
    as (Hall & Hnormal & Hthread & Hlong & Hsum).
  cbv zeta in *. fold (categoryTweetCounts allItems) in *.
  simpl in Hall, Hnormal, Hthread, Hlong. split.
  - intros []; cbn [countOf]; assumption.
  - lia.
Qed.

Lemma slice_page {A} (l : list A) (per page : Z) :
  0 < per -> 1 <= page ->
  slice l ((page - 1) * per) ((page - 1) * per + per)
  = take (Z.to_nat per) (drop (Z.to_nat (page - 1) * Z.to_nat per) l).
Proof.
  intros Hper Hpage. unfold slice. cbv zeta.
  rewrite <- Z2Nat.inj_mul by lia.
  set (len := Z.of_nat (length l)). set (start := (page - 1) * per).
  assert (Hstart : 0 <= start) by (subst start; nia).
  replace (start <? 0) with false by (symmetry; apply Z.ltb_ge; lia).
  replace (start + per <? 0) with false by (symmetry; apply Z.ltb_ge; lia).
  destruct (Z_le_gt_dec start len) as [Hle|Hgt].
  - rewrite (Z.min_l start len) by lia.
    destruct (Z_le_gt_dec (start + per) len) as [Hle'|Hgt'].
    + rewrite Z.min_l by lia. f_equal. lia.
    + rewrite Z.min_r by lia.
      rewrite !take_ge; [reflexivity | rewrite length_drop; lia ..].
  - rewrite !Z.min_r by lia.
    rewrite (drop_ge l (Z.to_nat start)) by lia.
    replace (Z.to_nat (len - len)) with 0%nat by lia.
    now rewrite take_nil.
Qed.

Lemma chunks_concat {A} (l : list A) (p m : nat) :
  concat (map (fun k => take p (drop (k * p) l)) (seq 0 m)) = take (m * p) l.
Proof.
  induction m as [|m IH]; [reflexivity|].
  rewrite seq_S, map_app, concat_app, IH. simpl.
  rewrite app_nil_r, take_take_drop. f_equal. lia.
Qed.

Lemma totalPages_bounds (n per : Z) :
  0 < per ->
  per * (Pager.totalPages n per - 1) < n <= per * Pager.totalPages n per.
Proof.
  intros Hper. unfold Pager.totalPages.
  pose proof (Z.mul_div_le (n + per - 1) per Hper).
  pose proof (Z.mul_succ_div_gt (n + per - 1) per Hper). lia.
Qed.

Lemma displayEffect_page (filtered : list Item) (per page total : Z)
    (old : list Item) :
  0 < per -> 1 <= page ->
  let items :=
    take (Z.to_nat per) (drop (Z.to_nat (page - 1) * Z.to_nat per) filtered) in
  displayEffect filtered
    {| pagination := {| currentPage := page; totalItems := total;
                        itemsPerPage := per |};
       displayedItems := old |}
  = if (length filtered =? 0)%nat then
      {| pagination := {| currentPage := page; totalItems := total;
                          itemsPerPage := per |};
         displayedItems := [] |}
    else if (length items =? 0)%nat && (1 <? page) then
      {| pagination := {| currentPage := 1; totalItems := total;
                          itemsPerPage := per |};
         displayedItems := old |}
    else
      {| pagination := {| currentPage := page;
                          totalItems := Z.of_nat (length filtered);
                          itemsPerPage := per |};
         displayedItems := items |}.
Proof.
  intros Hper Hpage items. unfold displayEffect. cbv zeta.
  cbn [pagination currentPage itemsPerPage totalItems displayedItems].
  rewrite slice_page by assumption. fold items.
  destruct (length filtered) as [|n] eqn:Hlen; [reflexivity|].
  change (S n =? 0)%nat with false. change (0 <? S n)%nat with true. cbv iota.
  now rewrite andb_true_r.
Qed.

(** The pages.  With [perPage] items on a page, the
    pages from the first to the last one the control counts each show
    something and stay current, the numbers the page prints for them are
    those of the items on display, and together they show every item
    once, in order.  Any page beyond the last one sends the reader back to
    the first page. *)
Theorem pages_show_every_item (filteredItems : list Item)
    (perPage : Z) :
  0 < perPage ->
  let pages :=
    Pager.totalPages (Z.of_nat (length filteredItems)) perPage in
  (forall page,
      1 <= page <= pages ->
      let d := shown filteredItems perPage page in
      currentPage (pagination d) = page
      /\ totalItems (pagination d) = Z.of_nat (length filteredItems)
      /\ displayedItems d <> []
      /\ Z.of_nat (length (displayedItems d))
         = showingLast (pagination d) filteredItems
           - showingFirst (pagination d) + 1)
  /\ concat
       (map (fun page => displayedItems (shown filteredItems perPage page))
          (seqZ 1 pages))
     = filteredItems
  /\ (forall page,
        pages < page -> 1 < page -> filteredItems <> [] ->
        currentPage (pagination (shown filteredItems perPage page)) = 1).
Proof.
  intros Hper pages.
  pose proof (totalPages_bounds (Z.of_nat (length filteredItems)) perPage
                Hper) as Hbounds.
  fold pages in Hbounds.
  assert (Hlength : forall page,
            1 <= page ->
            Z.of_nat
              (length
                 (take (Z.to_nat perPage)
                    (drop (Z.to_nat (page - 1) * Z.to_nat perPage)
                       filteredItems)))
            = Z.max 0
                (Z.min perPage
                   (Z.of_nat (length filteredItems)
                    - (page - 1) * perPage))).
  { intros page Hpage. rewrite length_take, length_drop. nia. }
  split; [|split].
  - intros page Hpage d. subst d. unfold shown.
    rewrite displayEffect_page by lia. cbv zeta.
    specialize (Hlength page (proj1 Hpage)).
    destruct (length filteredItems) as [|n] eqn:Hn; [nia|].
    change (S n =? 0)%nat with false. cbv iota.
    set (items := take _ _) in *.
    assert (Hitems : 0 < Z.of_nat (length items)) by nia.
    destruct (length items) as [|k] eqn:Hk; [lia|].
    change (S k =? 0)%nat with false. cbn [andb].
    cbn [pagination currentPage totalItems displayedItems].
    repeat split.
    + intros Hnil. rewrite Hnil in Hk. discriminate.
    + unfold showingLast, showingFirst.
      cbn [currentPage itemsPerPage]. rewrite Hk, Hn. nia.
  - assert (Hshown : forall page,
              1 <= page <= pages ->
              displayedItems (shown filteredItems perPage page)
              = take (Z.to_nat perPage)
                  (drop (Z.to_nat (page - 1) * Z.to_nat perPage)
                     filteredItems)).
    { intros page Hpage. unfold shown.
      rewrite displayEffect_page by lia. cbv zeta.
      specialize (Hlength page (proj1 Hpage)).
      destruct (length filteredItems) as [|n] eqn:Hn; [nia|].
      change (S n =? 0)%nat with false. cbv iota.
      set (items := take _ _) in *.
      destruct (length items) as [|k] eqn:Hk; [nia|]. reflexivity. }
    unfold seqZ. rewrite <- list_fmap_compose.
    transitivity
      (concat
         (map (fun k => take (Z.to_nat perPage)
                          (drop (k * Z.to_nat perPage) filteredItems))
            (seq 0 (Z.to_nat pages)))).
    + f_equal. apply map_ext_in. intros k Hk. apply in_seq in Hk.
      unfold compose. rewrite Hshown by lia. do 3 f_equal. lia.
    + rewrite chunks_concat. apply take_ge. nia.
  - intros page Hbeyond Hpage Hsome. unfold shown.
    rewrite displayEffect_page by lia. cbv zeta.
    specialize (Hlength page ltac:(lia)).
    destruct (length filteredItems) as [|n] eqn:Hn;
      [now destruct filteredItems|].
    change (S n =? 0)%nat with false. cbv iota.
    set (items := take _ _) in *.
    destruct (length items) as [|k] eqn:Hk; [|nia].
    replace (1 <? page) with true by (symmetry; apply Z.ltb_lt; lia).
    reflexivity.
Qed.

End IndexFacts.

Lemma pages_show_every_item_witness :
  concat
    (map (fun page =>
            Index.displayedItems
              (shown (map TweetItem Samples.twoChains) 3 page))
       (seqZ 1 (Pager.totalPages 4 3)))
  = map TweetItem Samples.twoChains.
Proof.
  apply (pages_show_every_item (map TweetItem Samples.twoChains) 3). lia.
Defined.

(** ** Pagination control *)

Section PagerFacts.

Import Pager.

Lemma rowFrom_run (k : nat) (prev : Z) (rest : list PageEntry) :
  rowFrom (prev + Z.of_nat k) rest ->
  rowFrom prev (map Page (seqZ (prev + 1) (Z.of_nat k)) ++ rest).
Proof.
  revert prev. induction k as [|k IH]; intros prev Hrest.
  - rewrite seqZ_nil by lia. simpl. now replace (prev + Z.of_nat 0) with prev in Hrest by lia.
  - rewrite seqZ_cons by lia. simpl. split; [reflexivity|].
    replace (Z.pred (Z.of_nat (S k))) with (Z.of_nat k) by lia.
    replace (Z.succ (prev + 1)) with (prev + 1 + 1) by lia.
    apply (IH (prev + 1)).
    now replace (prev + 1 + Z.of_nat k) with (prev + Z.of_nat (S k)) by lia.
Qed.

Ltac row_facts :=
  split; [reflexivity|];
  split; [cbn [rowFrom]; repeat split; lia|];
  split; [reflexivity|];
  split; [apply list_elem_of_In; cbn [In];
          repeat (first [left; f_equal; lia | right])
         | cbn [length]; lia ].

(** The row of page links.  For a current page among the pages, the row
    starts at the first page and ends at the last one, the numbers go up
    one by one except across an ellipsis, which stands only where pages
    are left out, the current page is in the row, and the row has seven
    entries at most. *)
Theorem getPageNumbers_row (currentPage totalPages : Z) :
  2 <= totalPages ->
  1 <= currentPage <= totalPages ->
  let row := getPageNumbers currentPage totalPages in
  head row = Some (Page 1)
  /\ rowFrom 0 row
  /\ last row = Some (Page totalPages)
  /\ Page currentPage ∈ row
  /\ (length row <= 7)%nat.
Proof.
  intros Htotal Hcurrent row. subst row. unfold getPageNumbers.
  destruct (totalPages <=? 7) eqn:Hfew;
    [apply Z.leb_le in Hfew | apply Z.leb_gt in Hfew].
  - unfold pagesFromTo.
    replace (totalPages - 1 + 1) with (Z.of_nat (Z.to_nat totalPages)) by lia.
    split; [|split; [|split; [|split]]].
    + rewrite seqZ_cons by lia. reflexivity.
    + rewrite <- (app_nil_r (map _ _)). apply (rowFrom_run _ 0). exact I.
    + destruct (Z.to_nat totalPages) as [|k] eqn:Hk; [lia|].
      rewrite seqZ_S, map_app. simpl. rewrite last_snoc. do 2 f_equal. lia.
    + apply (list_elem_of_fmap_2 Page). apply elem_of_seqZ. lia.
    + rewrite length_map, length_seqZ. lia.
  - cbv zeta. unfold pagesFromTo.
    destruct (Z_le_gt_dec currentPage 3) as [Hlow|Hhigh].
    + replace (3 <? currentPage) with false by (symmetry; apply Z.ltb_ge; lia).
      replace (currentPage <? totalPages - 2) with true
        by (symmetry; apply Z.ltb_lt; lia).
      rewrite Z.max_l, Z.min_r by lia.
      assert (Hcases : currentPage = 1 \/ currentPage = 2 \/ currentPage = 3)
        by lia.
      destruct Hcases as [-> | [-> | ->]]; cbn [app Z.add Z.sub Z.opp Pos.add
        Pos.succ Pos.pred_double Z.pos_sub Z.succ_double Z.pred_double
        Z.double];
        repeat (rewrite seqZ_cons by lia; cbn [Z.succ Z.pred Z.add Z.sub Z.opp
          Pos.add Pos.succ Pos.pred_double Z.pos_sub Z.succ_double
          Z.pred_double Z.double]);
        rewrite seqZ_nil by lia; cbn [map app]; row_facts.
    + replace (3 <? currentPage) with true by (symmetry; apply Z.ltb_lt; lia).
      rewrite Z.max_r by lia.
      assert (Hcases : currentPage < totalPages - 2
                       \/ currentPage = totalPages - 2
                       \/ currentPage = totalPages - 1
                       \/ currentPage = totalPages) by lia.
      destruct Hcases as [Hmid|[Hmid|[Hmid|Hmid]]].
      * replace (currentPage <? totalPages - 2) with true
          by (symmetry; apply Z.ltb_lt; lia).
        rewrite Z.min_r by lia.
        replace (currentPage + 1 - (currentPage - 1) + 1) with 3 by lia.
        rewrite !seqZ_cons by lia. rewrite seqZ_nil by lia. cbn [map app].
        row_facts.
      * replace (currentPage <? totalPages - 2) with false
          by (symmetry; apply Z.ltb_ge; lia).
        rewrite Z.min_r by lia.
        replace (currentPage + 1 - (currentPage - 1) + 1) with 3 by lia.
        rewrite !seqZ_cons by lia. rewrite seqZ_nil by lia. cbn [map app].
        row_facts.
      * replace (currentPage <? totalPages - 2) with false
          by (symmetry; apply Z.ltb_ge; lia).
        rewrite Z.min_l by lia.
        replace (totalPages - 1 - (currentPage - 1) + 1) with 2 by lia.
        rewrite !seqZ_cons by lia. rewrite seqZ_nil by lia. cbn [map app].
        row_facts.
      * replace (currentPage <? totalPages - 2) with false
          by (symmetry; apply Z.ltb_ge; lia).
        rewrite Z.min_l by lia.
        replace (totalPages - 1 - (currentPage - 1) + 1) with 1 by lia.
        rewrite !seqZ_cons by lia. rewrite seqZ_nil by lia. cbn [map app].
        row_facts.
Qed.

End PagerFacts.

Lemma getPageNumbers_row_witness :
  head (Pager.getPageNumbers 5 10) = Some (Pager.Page 1)
  /\ rowFrom 0 (Pager.getPageNumbers 5 10)
  /\ last (Pager.getPageNumbers 5 10) = Some (Pager.Page 10)
  /\ Pager.Page 5 ∈ Pager.getPageNumbers 5 10
  /\ (length (Pager.getPageNumbers 5 10) <= 7)%nat.
Proof. apply (getPageNumbers_row 5 10); lia. Defined.

(** ** The page: selection *)

Section SelectionFacts.

Import Index.

Lemma foldl_select (l : list Tweet) (s : gset string) (x : string) :
  x ∈ foldl (fun newSet tweet => {[id tweet]} ∪ newSet) s l
  <-> x ∈ s \/ In x (map id l).
Proof.
  revert s. induction l as [|t l IH]; intros s; simpl; [tauto|].
  rewrite IH, elem_of_union, elem_of_singleton. intuition congruence.
Qed.

Lemma foldl_deselect (l : list Tweet) (s : gset string) (x : string) :
  x ∈ foldl (fun newSet tweet => newSet ∖ {[id tweet]}) s l
  <-> x ∈ s /\ ~ In x (map id l).
Proof.
  revert s. induction l as [|t l IH]; intros s; simpl; [tauto|].
  rewrite IH, elem_of_difference, elem_of_singleton. intuition congruence.
Qed.

Lemma foldl_selectItem (items : list Item) (s : gset string) (x : string) :
  x ∈ foldl selectItem s items <-> x ∈ s \/ In x (itemIds items).
Proof.
  revert s. induction items as [|item items IH]; intros s; simpl; [tauto|].
  rewrite IH, in_app_iff. destruct item as [tweet|thread]; simpl.
  - rewrite elem_of_union, elem_of_singleton. intuition congruence.
  - rewrite foldl_select. tauto.
Qed.

Lemma foldl_deselectItem (items : list Item) (s : gset string) (x : string) :
  x ∈ foldl deselectItem s items <-> x ∈ s /\ ~ In x (itemIds items).
Proof.
  revert s. induction items as [|item items IH]; intros s; simpl; [tauto|].
  rewrite IH, in_app_iff. destruct item as [tweet|thread]; simpl.
  - rewrite elem_of_difference, elem_of_singleton. intuition congruence.
  - rewrite foldl_deselect. tauto.
Qed.

Lemma every_selected (items : list Item) (s : gset string) :
  forallb (itemSelected s) items = true
  <-> forall x, In x (itemIds items) -> x ∈ s.
Proof.
  induction items as [|item items IH]; simpl; [split; [tauto | reflexivity]|].
  rewrite andb_true_iff, IH. clear IH.
  assert (Hitem : itemSelected s item = true
                  <-> forall x, In x (itemIds [item]) -> x ∈ s).
  { destruct item as [tweet|thread]; simpl.
    - rewrite bool_decide_eq_true. split.
      + intros Hin x [<-|[]]. exact Hin.
      + intros Hall. apply Hall. now left.
    - rewrite app_nil_r, forallb_forall. split.
      + intros Hall x Hx. apply in_map_iff in Hx as (t & <- & Ht).
        specialize (Hall t Ht). now apply bool_decide_eq_true in Hall.
      + intros Hall t Ht. apply bool_decide_eq_true_2, Hall, in_map, Ht. }
  rewrite Hitem. simpl. rewrite app_nil_r. split.
  - intros [H1 H2] x Hx. apply in_app_iff in Hx as [Hx|Hx]; auto.
  - intros Hall. split; intros x Hx; apply Hall, in_app_iff; auto.
Qed.

(** The button that selects all does what its label says and stays on
    the page.  Under the label [Deselect All] it takes every tweet on
    display out of the selection; under [Select All], with something on
    display, it puts them all in, so that the label turns.  The tweets
    that are not on display keep their state. *)
Theorem handleSelectAll_label (displayedItems : list Item)
    (selected : gset string) :
  let selected' := handleSelectAll displayedItems selected in
  (forall x, ~ In x (itemIds displayedItems) ->
             (x ∈ selected' <-> x ∈ selected))
  /\ (if allSelected displayedItems selected
      then forall x, In x (itemIds displayedItems) -> x ∉ selected'
      else displayedItems <> [] ->
           allSelected displayedItems selected' = true).
Proof.
  intros selected'. subst selected'. unfold handleSelectAll, allSelected.
  cbv zeta.
  destruct (forallb (itemSelected selected) displayedItems) eqn:Hevery.
  - split.
    + intros x Hx. rewrite foldl_deselectItem. tauto.
    + destruct displayedItems as [|item items]; [intros Hnil; congruence|].
      change (0 <? length (item :: items))%nat with true. cbn [andb].
      intros x Hx. rewrite foldl_deselectItem. tauto.
  - split.
    + intros x Hx. rewrite foldl_selectItem. tauto.
    + rewrite andb_false_r. intros Hsome.
      destruct displayedItems as [|item items]; [congruence|].
      change (0 <? length (item :: items))%nat with true. cbn [andb].
      apply every_selected. intros x Hx. apply foldl_selectItem. now right.
Qed.

(** Selecting one tweet and selecting a thread.  Clicking a tweet twice
    leaves the selection as it was; selecting or deselecting a thread
    changes the state of its tweets and of no other, and afterwards the
    thread counts as selected exactly when it was selected. *)
Theorem handleThreadSelect_marks (thread : Thread.Thread) (choice : bool)
    (tweet : Tweet) (selected : gset string) :
  handleTweetSelect tweet (handleTweetSelect tweet selected) = selected
  /\ (forall x, ~ In x (map id (Thread.tweets thread)) ->
                (x ∈ handleThreadSelect thread choice selected
                 <-> x ∈ selected))
  /\ (Thread.tweets thread <> [] ->
      itemSelected (handleThreadSelect thread choice selected)
        (ThreadItem thread) = choice).
Proof.
  split; [|split].
  - apply set_eq. intros x. unfold handleTweetSelect.
    destruct (bool_decide (id tweet ∈ selected)) eqn:Hin.
    + apply bool_decide_eq_true in Hin.
      rewrite bool_decide_eq_false_2.
      * rewrite elem_of_union, elem_of_difference, elem_of_singleton.
        destruct (decide (x = id tweet)) as [->|Hne]; tauto.
      * rewrite elem_of_difference, elem_of_singleton. tauto.
    + apply bool_decide_eq_false in Hin.
      rewrite bool_decide_eq_true_2.
      * rewrite elem_of_difference, elem_of_union, elem_of_singleton.
        destruct (decide (x = id tweet)) as [->|Hne]; tauto.
      * rewrite elem_of_union, elem_of_singleton. tauto.
  - intros x Hx. unfold handleThreadSelect. destruct choice.
    + rewrite foldl_select. tauto.
    + rewrite foldl_deselect. tauto.
  - intros Hsome. unfold handleThreadSelect, itemSelected. destruct choice.
    + apply forallb_forall. intros t Ht. apply bool_decide_eq_true_2.
      apply foldl_select. right. now apply in_map.
    + destruct (Thread.tweets thread) as [|t l] eqn:Htweets; [congruence|].
      rewrite <- Htweets. apply not_true_is_false. intros Hall.
      rewrite forallb_forall in Hall.
      specialize (Hall t ltac:(rewrite Htweets; now left)).
      apply bool_decide_eq_true, foldl_deselect in Hall as [_ Hall].
      apply Hall, in_map. rewrite Htweets. now left.
Qed.

End SelectionFacts.

(** ** The page: saving the selection *)

Section ConfirmFacts.

Import Index.

Lemma tweetsToSave_filter (allItems : list Item) (selected : gset string) :
  tweetsToSave allItems selected
  = List.filter (fun tweet => bool_decide (id tweet ∈ selected))
      (itemTweets allItems).
Proof.
  unfold tweetsToSave, itemTweets.
  induction allItems as [|item items IH]; simpl; [reflexivity|].
  rewrite List.filter_app, IH. f_equal.
  destruct item as [tweet|thread]; simpl; [|reflexivity].
  now destruct (bool_decide (id tweet ∈ selected)).
Qed.

(** Confirming the dialog.  The tweets that are posted are the tweets of
    the items whose ids are selected, each as often as the items hold it,
    under the name typed into the dialog; nothing is posted when there is
    none.  Whatever the saver reports, the page then empties the
    selection, announces success with the number of tweets and goes to the
    saved tweets of that name. *)
Theorem handleConfirmSave_posts (now : nat -> Z)
    (backend : Saving.Request -> option Saving.Reply) (allItems : list Item)
    (selected : gset string) (saveUsername : string) :
  let c := handleConfirmSave now backend allItems selected saveUsername in
  let chosen :=
    List.filter (fun tweet => bool_decide (id tweet ∈ selected))
      (itemTweets allItems) in
  selectedTweets c = ∅
  /\ navigatedTo c = Some ("/saved/user/" +:+ saveUsername)%string
  /\ (exists toast, notices c = [FromSaver toast; Success (length chosen)])
  /\ match chosen with
     | [] => posted c = []
     | _ :: _ =>
         exists request,
           posted c = [request]
           /\ Permutation (map Saving.tweet (Saving.tweets request)) chosen
           /\ Saving.username request = saveUsername
     end.
Proof.
  intros c chosen. subst c chosen. unfold handleConfirmSave. cbv zeta.
  cbn [selectedTweets navigatedTo notices posted].
  rewrite tweetsToSave_filter.
  set (chosen := List.filter _ _).
  pose proof (saveSelectedTweets_spec now backend chosen (Some saveUsername))
    as [Htoasts Hposted].
  cbv zeta in Htoasts, Hposted.
  split; [reflexivity|]. split; [reflexivity|]. split.
  - destruct (Saving.toasts _) as [|toast [|]]; try discriminate.
    now exists toast.
  - destruct chosen as [|t l]; [apply Hposted|].
    destruct Hposted as (request & Hrequest & Hperm & Hname & _).
    now exists request.
Qed.

End ConfirmFacts.

(** ** Tweet card and thread view: the two heuristics *)

Section CardFacts.

Lemma nonLatin_card_then_fetcher (text : jsstring) :
  Card.hasNonLatinScript text = true -> Text.hasNonLatinScript text = true.
Proof.
  unfold Card.hasNonLatinScript, Text.hasNonLatinScript.
  rewrite !existsb_exists. intros (c & Hc & Hclass). exists c.
  split; [exact Hc|].
  unfold Card.isNonLatinUnit in Hclass. unfold Text.isNonLatinUnit.
  destruct ((2304 <=? c) && (c <=? 2431)), ((1536 <=? c) && (c <=? 1791)),
    ((1424 <=? c) && (c <=? 1535)), ((3584 <=? c) && (c <=? 3711)),
    ((12352 <=? c) && (c <=? 12543)), ((13312 <=? c) && (c <=? 19903)),
    ((19968 <=? c) && (c <=? 40959)); simpl in *; congruence.
Qed.

Lemma nonLatin_fetcher_only (text : jsstring) :
  Text.hasNonLatinScript text = true ->
  Card.hasNonLatinScript text = false ->
  existsb isThaiUnit text = true.
Proof.
  unfold Card.hasNonLatinScript, Text.hasNonLatinScript.
  intros Hfetcher Hcard. apply existsb_exists in Hfetcher as (c & Hc & Hclass).
  apply existsb_exists. exists c. split; [exact Hc|].
  assert (Hnot : Card.isNonLatinUnit c = false).
  { destruct (Card.isNonLatinUnit c) eqn:Hclass'; [|reflexivity].
    rewrite <- Hcard. symmetry. apply existsb_exists. now exists c. }
  unfold Text.isNonLatinUnit in Hclass. unfold Card.isNonLatinUnit in Hnot.
  unfold isThaiUnit.
  destruct ((2304 <=? c) && (c <=? 2431)), ((1536 <=? c) && (c <=? 1791)),
    ((1424 <=? c) && (c <=? 1535)), ((3584 <=? c) && (c <=? 3711)),
    ((12352 <=? c) && (c <=? 12543)), ((13312 <=? c) && (c <=? 19903)),
    ((19968 <=? c) && (c <=? 40959)); simpl in *; congruence.
Qed.

(** Where the heuristic of the components and the heuristic of the
    fetcher part.  A text the components flag and the fetcher does not is
    at least 180 units long and is blank or ends, white space aside, with
    a full stop, an exclamation mark, a question mark or a double quote.
    A text the fetcher flags and the components do not ends with one of
    the function words, or is 180 to 239 units long and has a Thai
    letter. *)
Theorem detectTruncatedText_copies (text : jsstring) :
  (Card.detectTruncatedText text = true ->
   Text.detectTruncatedText text = false ->
   (180 <= length text)%nat
   /\ (trim text = [] \/ Text.endsInTerminalPunctuation (trim text) = true))
  /\ (Text.detectTruncatedText text = true ->
      Card.detectTruncatedText text = false ->
      endsWithFunctionWord text = true
      \/ ((180 <= length text < 240)%nat /\ existsb isThaiUnit text = true)).
Proof.
  assert (Hvisible : forall c, In c text -> isWhiteSpace c = false ->
                               (length (trim text) =? 0)%nat = false).
  { intros c Hc Hvis. apply Nat.eqb_neq. intros Hlen.
    apply (trim_visible text).
    - apply Exists_exists. exists c. split; [now apply list_elem_of_In|].
      exact Hvis.
    - now destruct (trim text). }
  assert (Hends : (endsWith text [ellipsis] || endsWith text (utf16 "..."))
                  = true ->
                  (length (trim text) =? 0)%nat = false).
  { intros H. apply orb_true_iff in H as [H|H]; unfold endsWith in H.
    - apply (Hvisible ellipsis); [|reflexivity].
      apply in_rev. apply (startsWith_In _ _ _ H). now left.
    - apply (Hvisible 46); [|reflexivity].
      apply in_rev. apply (startsWith_In _ _ _ H). now left. }
  assert (Hincludes : (includes text (ellipsis :: utf16 " https://")
                       || includes text (utf16 "... https://")) = true ->
                      (length (trim text) =? 0)%nat = false).
  { intros H. apply orb_true_iff in H as [H|H].
    - apply (Hvisible ellipsis); [|reflexivity].
      apply (includes_In _ _ _ H). now left.
    - apply (Hvisible 46); [|reflexivity].
      apply (includes_In _ _ _ H). now left. }
  unfold Card.detectTruncatedText, Text.detectTruncatedText,
    endsWithFunctionWord.
  cbv zeta.
  destruct (length text =? 0)%nat eqn:Hempty; [split; discriminate|].
  cbn [orb].
  destruct (endsWith text [ellipsis] || endsWith text (utf16 "..."));
    [rewrite Hends by reflexivity; split; discriminate|].
  destruct (includes text (ellipsis :: utf16 " https://")
            || includes text (utf16 "... https://"));
    [rewrite Hincludes by reflexivity; split; discriminate|].
  clear Hvisible Hends Hincludes.
  destruct (length (trim text) =? 0)%nat eqn:Hblank.
  - split; [|discriminate]. intros Hcard _.
    apply Nat.eqb_eq in Hblank. split.
    + destruct (Card.hasNonLatinScript text);
        destruct (_ <=? length text)%nat eqn:Hlen; try discriminate;
        apply Nat.leb_le in Hlen; lia.
    + left. now destruct (trim text).
  - destruct (match Text.lastWord _ with Some _ => _ | None => false end);
      [split; [discriminate | now left]|].
    destruct (Card.hasNonLatinScript text) eqn:Hcard.
    + rewrite (nonLatin_card_then_fetcher _ Hcard).
      destruct (180 <=? length text)%nat eqn:Hlen; [|split; discriminate].
      apply Nat.leb_le in Hlen. cbn [andb]. split; [|discriminate].
      intros _ Hfetcher. split; [exact Hlen|]. right.
      now destruct (Text.endsInTerminalPunctuation (trim text)).
    + destruct (Text.hasNonLatinScript text) eqn:Hfetcher.
      * pose proof (nonLatin_fetcher_only _ Hfetcher Hcard) as Hthai.
        destruct (240 <=? length text)%nat eqn:Hlong;
          [apply Nat.leb_le in Hlong | apply Nat.leb_gt in Hlong].
        -- replace (180 <=? length text)%nat with true
             by (symmetry; apply Nat.leb_le; lia).
           cbn [andb]. split; [|discriminate].
           intros _ Hf. split; [lia|]. right.
           now destruct (Text.endsInTerminalPunctuation (trim text)).
        -- split; [discriminate|]. intros Hf _. right.
           destruct (180 <=? length text)%nat eqn:Hlen; [|discriminate].
           apply Nat.leb_le in Hlen. split; [lia | exact Hthai].
      * destruct (240 <=? length text)%nat eqn:Hlong; [|split; discriminate].
        apply Nat.leb_le in Hlong. cbn [andb]. split; [|discriminate].
        intros _ Hf. split; [lia|]. right.
        now destruct (Text.endsInTerminalPunctuation (trim text)).
Qed.

End CardFacts.

Lemma detectTruncatedText_copies_witness :
  ((180 <= length Samples.longSentence)%nat
   /\ (trim Samples.longSentence = []
       \/ Text.endsInTerminalPunctuation (trim Samples.longSentence) = true))
  /\ (endsWithFunctionWord (utf16 "going to the") = true
      \/ ((180 <= length (utf16 "going to the") < 240)%nat
          /\ existsb isThaiUnit (utf16 "going to the") = true)).
Proof.
  split.
  - apply (proj1 (detectTruncatedText_copies Samples.longSentence));
      vm_compute; reflexivity.
  - apply (proj2 (detectTruncatedText_copies (utf16 "going to the")));
      vm_compute; reflexivity.
Defined.

(** ** The page: fetching more *)

Section FetchMoreFacts.

Import Index.

Variable config : TwitterConfig.
Variable server : nat -> string -> Gateway.Response ApiResponse.
Variable encodeURIComponent : string -> string.

Lemma fetchUserTweets_hit (username : string)
    (options : option Timeline.Options) (w : Timeline.World)
    (cached : list Tweet) :
  Timeline.userTweets w !! lowerName username = Some cached ->
  Timeline.fetchUserTweets config server encodeURIComponent username options w
  = (Returned cached, w).
Proof.
  intros Hcached. unfold Timeline.fetchUserTweets, Timeline.fetchUserTweets_try.
  cbv zeta. now rewrite Hcached.
Qed.

Lemma afterGrouping_ids (tweets : list Tweet) :
  map id (afterGrouping tweets) = map id tweets.
Proof.
  unfold afterGrouping. destruct (Grouping.groupMaps tweets) as [m|];
    [|reflexivity].
  generalize (Grouping.positions m). intros positions.
  change (fun i tweet => Grouping.read positions (i, tweet))
    with (fun i tweet => Grouping.read positions ((fun i => i) i, tweet)).
  generalize (fun i : nat => i). induction tweets as [|t l IH]; intros f;
    [reflexivity|].
  simpl. f_equal.
  - unfold Grouping.read. simpl. now destruct (positions !! f 0%nat).
  - apply (IH (f ∘ S)).
Qed.

Lemma itemTweets_ids (items : list Item) :
  map id (itemTweets items) = itemIds items.
Proof.
  unfold itemTweets, itemIds. induction items as [|item items IH]; simpl;
    [reflexivity|].
  rewrite map_app, IH. now destruct item.
Qed.

(** Fetching more after a search that succeeded.  The search leaves the
    timeline in the cache, so the handler is answered from the cache and
    nothing goes on the wire.  It finds nothing new when the grouping kept
    every tweet; otherwise the tweets it adds before it regroups are
    tweets of the timeline that the items do not hold. *)
Theorem handleFetchMore_from_cache (username : string) (count : nat)
    (page : Page) (tweets : list Tweet) (w1 : Timeline.World) :
  username <> "" ->
  Timeline.fetchUserTweets_try config server encodeURIComponent username None
    (world page) = (Returned tweets, w1) ->
  tweets <> [] ->
  let searched := handleSearch config server encodeURIComponent username page in
  Timeline.gateway (world searched) = Timeline.gateway w1
  /\ match handleFetchMore config server encodeURIComponent count searched with
     | NoNewTweets w =>
         w = world searched
         /\ forall t, In t tweets -> In (id t) (itemIds (allItems searched))
     | Regroup combinedTweets w =>
         w = world searched
         /\ exists newTweets,
              newTweets <> []
              /\ combinedTweets = itemTweets (allItems searched) ++ newTweets
              /\ Forall (fun t => In (id t) (map id tweets)
                                  /\ ~ In (id t) (itemIds (allItems searched)))
                   newTweets
     | _ => False
     end.
Proof.
  intros Hname Hfirst Hsome searched.
  destruct (groupThreads_returns tweets) as (items & Hitems & _).
  assert (Hsearched :
            searched
            = {| allItems := items; currentUser := Some username;
                 fetchedTweetCount := length tweets;
                 pageNotices := pageNotices page ++ [TweetsLoaded (length tweets)];
                 world :=
                   {| Timeline.gateway := Timeline.gateway w1;
                      Timeline.userTweets :=
                        <[lowerName username := afterGrouping tweets]>
                          (Timeline.userTweets w1);
                      Timeline.toasts := Timeline.toasts w1 |} |}).
  { subst searched. unfold handleSearch, Timeline.fetchUserTweets.
    rewrite Hfirst, Hitems.
    destruct tweets as [|t0 tweets0]; [congruence | reflexivity]. }
  rewrite Hsearched. clear Hsearched searched.
  cbn [world allItems]. split; [reflexivity|].
  unfold handleFetchMore. cbn [currentUser allItems world fetchedTweetCount].
  replace (truthy (Some username)) with true
    by (symmetry; simpl; now apply negb_true_iff, String.eqb_neq).
  cbn [negb the_string].
  rewrite (fetchUserTweets_hit _ _ _ (afterGrouping tweets))
    by (simpl; apply lookup_insert_eq).
  cbv zeta.
  set (existingIds := list_to_set (map id (itemTweets items)) : gset string).
  assert (Hexisting : forall x, x ∈ existingIds <-> In x (itemIds items)).
  { intros x. unfold existingIds.
    rewrite elem_of_list_to_set, list_elem_of_In. now rewrite itemTweets_ids. }
  set (newTweets := List.filter _ (afterGrouping tweets)).
  destruct (length newTweets =? 0)%nat eqn:Hnone.
  - split; [reflexivity|]. intros t Ht.
    apply (in_map id) in Ht. rewrite <- afterGrouping_ids in Ht.
    apply in_map_iff in Ht as (t' & Hid & Ht').
    rewrite <- Hid. apply Hexisting.
    destruct (bool_decide (id t' ∈ existingIds)) eqn:Hseen;
      [now apply bool_decide_eq_true in Hseen|].
    assert (Hin : In t' newTweets)
      by (apply filter_In; split; [exact Ht' | now rewrite Hseen]).
    apply Nat.eqb_eq in Hnone. destruct newTweets; [contradiction|discriminate].
  - split; [reflexivity|]. exists newTweets. split; [|split; [reflexivity|]].
    + intros Hnil. rewrite Hnil in Hnone. discriminate.
    + apply Forall_forall. intros t Ht.
      apply list_elem_of_In, filter_In in Ht as [Ht Hnew].
      apply negb_true_iff, bool_decide_eq_false in Hnew. split.
      * rewrite <- afterGrouping_ids. now apply in_map.
      * intros Hin. now apply Hnew, Hexisting.
Qed.

End FetchMoreFacts.

Lemma handleFetchMore_from_cache_witness :
  let tweets := [processTweet (Samples.alicePost "1" 1000 None None None)] in
  let first :=
    Timeline.fetchUserTweets_try defaultConfig MoreSamples.timelineServer
      (fun token => token) "alice" None Samples.freshWorld in
  let searched :=
    Index.handleSearch defaultConfig MoreSamples.timelineServer
      (fun token => token) "alice" MoreSamples.freshPage in
  Timeline.gateway (Index.world searched) = Timeline.gateway first.2
  /\ match Index.handleFetchMore defaultConfig MoreSamples.timelineServer
             (fun token => token) 20 searched with
     | Index.NoNewTweets w =>
         w = Index.world searched
         /\ forall t, In t tweets ->
                      In (id t) (itemIds (Index.allItems searched))
     | Index.Regroup combinedTweets w =>
         w = Index.world searched
         /\ exists newTweets,
              newTweets <> []
              /\ combinedTweets
                 = itemTweets (Index.allItems searched) ++ newTweets
              /\ Forall (fun t => In (id t) (map id tweets)
                                  /\ ~ In (id t)
                                         (itemIds (Index.allItems searched)))
                   newTweets
     | _ => False
     end.
Proof.
  intros tweets first searched.
  apply (handleFetchMore_from_cache defaultConfig MoreSamples.timelineServer
           (fun token => token) "alice" 20 MoreSamples.freshPage tweets
           first.2).
  - discriminate.
  - vm_compute. reflexivity.
  - discriminate.
Defined.

(** ** Thread grouping engine: the order of the result *)

Section GroupingOrder.

Import Grouping.

Lemma emitted_created_at (tweets : list Tweet) (t : Tweet) :
  Forall (fun t => is_Some (created_at t)) tweets ->
  emitted tweets t -> is_Some (created_at t).
Proof.
  intros Hdates (i & original & Hi & Ht). rewrite Forall_forall in Hdates.
  assert (Horiginal : is_Some (created_at original))
    by (apply Hdates; eapply list_elem_of_lookup_2; exact Hi).
  destruct Ht as [->|[index ->]]; exact Horiginal.
Qed.

(** The result is in order, newest first: when the date of every tweet
    parses, no item of the result is older than an item after it, a thread
    counting with the date of its first tweet. *)
Theorem groupThreads_newest_first (tweets : list Tweet) :
  Forall (fun t => is_Some (created_at t)) tweets ->
  exists items,
    groupThreads tweets = Returned items /\ StronglySorted notOlder items.
Proof.
  intros Hdates.
  destruct (groupThreads_sound tweets) as (items & Hrun & Hsound).
  destruct (groupThreads_returns tweets) as (items' & Hrun' & Htwo).
  rewrite Hrun in Hrun'. injection Hrun' as <-.
  exists items. split; [exact Hrun|].
  assert (Hdated : forall item, In item items -> is_Some (itemDate item)).
  { intros item Hitem. apply list_elem_of_In in Hitem.
    rewrite Forall_forall in Hsound. pose proof (Hsound item Hitem) as Hs.
    destruct item as [t|thread]; simpl in Hs |- *.
    - now apply (emitted_created_at tweets).
    - pose proof (Htwo thread Hitem) as Hlen. destruct Hs as [Hall _].
      destruct (Thread.tweets thread) as [|first rest]; [simpl in Hlen; lia|].
      apply Forall_cons in Hall as [Hfirst _].
      now apply (emitted_created_at tweets). }
  unfold groupThreads in Hrun.
  destruct (groupMaps tweets) as [m|]; simpl in Hrun; [|discriminate].
  destruct (foldM (emit (positions m)) (threadMap m) []) as [result|];
    simpl in Hrun; [|discriminate].
  injection Hrun as <-.
  assert (Hresult : forall item, In item result -> is_Some (itemDate item)).
  { intros item Hitem. apply Hdated.
    eapply Permutation_in; [symmetry; apply sort_Permutation | exact Hitem]. }
  apply sort_StronglySorted.
  - intros a b Ha Hb.
    destruct (Hresult a Ha) as [dateA HdateA], (Hresult b Hb) as [dateB HdateB].
    unfold cmp_gt, newestFirst, notOlder. rewrite HdateA, HdateB.
    destruct (0 <? dateB - dateA) eqn:Hcmp;
      [apply Z.ltb_lt in Hcmp | apply Z.ltb_ge in Hcmp]; lia.
  - intros a b c Ha Hb Hc. unfold notOlder.
    destruct (Hresult a Ha) as [dateA ->], (Hresult b Hb) as [dateB ->],
      (Hresult c Hc) as [dateC ->]. lia.
Qed.

End GroupingOrder.

Lemma groupThreads_newest_first_witness :
  exists items,
    Grouping.groupThreads Samples.twoChains = Returned items
    /\ StronglySorted notOlder items.
Proof.
  apply (groupThreads_newest_first Samples.twoChains).
  repeat (constructor; [eexists; reflexivity|]). constructor.
Defined.

(** ** Media of a tweet *)

Section MediaFacts.

Import Media.

Lemma imap_map_proj {A B C} (f : nat -> A -> B) (g : B -> C) (l : list A) :
  map g (imap f l) = imap (fun i x => g (f i x)) l.
Proof.
  revert f. induction l as [|x l IH]; intros f; simpl; [reflexivity|].
  f_equal. apply (IH (f ∘ S)).
Qed.

Lemma imap_ignore_index {A B} (g : A -> B) (l : list A) :
  imap (fun _ x => g x) l = map g l.
Proof. induction l as [|x l IH]; simpl; [reflexivity|]. now f_equal. Qed.

(** The media of a tweet.  Their keys do not repeat; their urls are the
    urls of the three sources that are there and not empty, in the order of
    the sources and without any removed, so that a url two sources list
    comes twice; no medium has an empty url or an empty preview. *)
Theorem processedMedia_keys (tweet : RawFields) :
  NoDup (map media_key (processedMedia tweet))
  /\ map url (processedMedia tweet)
     = omap (fun o => if nonEmpty o then o else None) (gatheredUrls tweet)
  /\ Forall (fun m => url m <> [] /\ preview_image_url m <> [])
       (processedMedia tweet).
Proof.
  unfold processedMedia. split; [|split].
  - rewrite imap_map_proj. cbn [media_key].
    rewrite (imap_seq_0 (mediaUrls tweet)
               (fun i => ("media-" +:+ tweet_id tweet +:+ "-" +:+ pretty i)%string)).
    apply NoDup_fmap_2; [|apply NoDup_seq].
    intros i j Hkey.
    apply String.app_inj, String.app_inj, String.app_inj in Hkey.
    now apply pretty_nat_inj in Hkey.
  - rewrite imap_map_proj. cbn [url]. rewrite imap_ignore_index.
    apply map_id.
  - assert (Hurls : Forall (fun u : jsstring => u <> []) (mediaUrls tweet)).
    { apply Forall_forall. intros u Hu. unfold mediaUrls in Hu.
      apply list_elem_of_omap in Hu as (o & _ & Ho).
      destruct o as [[|c s]|]; simpl in Ho; try discriminate.
      now injection Ho as <-. }
    apply Forall_forall. intros m Hm.
    apply elem_of_lookup_imap in Hm as (i & u & -> & Hu).
    rewrite Forall_forall in Hurls.
    assert (Hne : u <> []) by (eapply Hurls, list_elem_of_lookup_2; exact Hu).
    cbn [url preview_image_url]. split; [exact Hne|].
    unfold previewImageUrl. cbv zeta. unfold text_or.
    destruct (match extended_media tweet with
              | Some (first :: _) => media_url_https first
              | _ => None
              end) as [[|c s]|]; simpl; try exact Hne. discriminate.
Qed.

End MediaFacts.

(** ** Reply-chain fetcher: the requests of a fetch *)

Section RepliesRequests.

Import Gateway Replies.

Variable config : TwitterConfig.
Variable server : nat -> string -> Response ApiResponse.
Variable encodeURIComponent : string -> string.

(** The passes that are left at most: three for each page that is left,
    less the attempts already made at the current one. *)
Let passesLeft (l : Loop) : nat :=
  (3 * (replyMaxPages config - pageCount l) - attempts l)%nat.

Let target (tweetId : string) (u : string) : Prop :=
  exists token, u = repliesUrl encodeURIComponent tweetId token.

Lemma fetchPage_sends tweetId username l st :
  (attempts l < REPLY_MAX_ATTEMPTS)%nat ->
  let r := fetchPage config server encodeURIComponent tweetId username l st in
  exists n,
    sent r.1.2
    = sent st ++ repeat (repliesUrl encodeURIComponent tweetId
                           (continuationToken l)) n
    /\ ((n = 0%nat /\ r.2 = true)
        \/ ((n <= 3)%nat /\ (passesLeft r.1.1 < passesLeft l)%nat)).
Proof.
  unfold REPLY_MAX_ATTEMPTS, passesLeft. intros Hattempts. cbv zeta.
  unfold fetchPage.
  destruct (replyMaxPages config <=? pageCount l)%nat eqn:Hpages.
  { exists 0%nat. simpl. rewrite app_nil_r. split; [reflexivity | now left]. }
  apply Nat.leb_gt in Hpages.
  destruct (makeApiRequest_fuel_sends server (MAX_RETRIES - 0)
              (repliesUrl encodeURIComponent tweetId (continuationToken l)) 0 st)
    as (n & Hn & Hsent).
  change (makeApiRequest_fuel server (MAX_RETRIES - 0)
            (repliesUrl encodeURIComponent tweetId (continuationToken l)) 0 st)
    with (makeApiRequest server
            (repliesUrl encodeURIComponent tweetId (continuationToken l)) 0 st)
    in Hsent.
  change (S (MAX_RETRIES - 0)) with 3%nat in Hn.
  exists n.
  destruct (makeApiRequest server _ 0 st) as [outcome st1].
  cbn [snd] in Hsent.
  assert (Hcatch : forall ids,
            let r := catchPage l ids st1 in
            sent r.1.2
            = sent st ++ repeat (repliesUrl encodeURIComponent tweetId
                                   (continuationToken l)) n
            /\ ((n = 0%nat /\ r.2 = true)
                \/ ((n <= 3)%nat
                    /\ (3 * (replyMaxPages config - pageCount r.1.1)
                        - attempts r.1.1
                        < 3 * (replyMaxPages config - pageCount l)
                          - attempts l)%nat))).
  { intros ids. unfold catchPage. cbn [fst snd attempts pageCount].
    split; [exact Hsent|]. right. split; [exact Hn | lia]. }
  assert (Hdone : forall found token ids,
            let r := pageDone l found token ids st1 in
            sent r.1.2
            = sent st ++ repeat (repliesUrl encodeURIComponent tweetId
                                   (continuationToken l)) n
            /\ ((n = 0%nat /\ r.2 = true)
                \/ ((n <= 3)%nat
                    /\ (3 * (replyMaxPages config - pageCount r.1.1)
                        - attempts r.1.1
                        < 3 * (replyMaxPages config - pageCount l)
                          - attempts l)%nat))).
  { intros found token ids. unfold pageDone. cbn [fst snd attempts pageCount].
    split; [exact Hsent|]. right. split; [exact Hn | lia]. }
  destruct outcome as [response|e]; [|apply Hcatch].
  destruct (replies response) as [[|first others]|]; try apply Hdone.
  destruct (filterReplies _ _ _) as [[[|t kept]|] ids];
    first [apply Hdone | apply Hcatch].
Qed.

Lemma fetchPages_sends fuel tweetId username l st :
  (attempts l < REPLY_MAX_ATTEMPTS)%nat ->
  exists urls,
    sent (fetchPages config server encodeURIComponent fuel tweetId username
            l st).2
    = sent st ++ urls
    /\ (length urls <= 3 * passesLeft l)%nat
    /\ Forall (target tweetId) urls.
Proof.
  revert l st. induction fuel as [|fuel IH]; intros l st Hattempts.
  - exists []. simpl. rewrite app_nil_r. repeat split; [lia | constructor].
  - cbn [fetchPages].
    destruct (fetchPage_sends tweetId username l st Hattempts)
      as (n & Hsent & Hstep).
    cbv zeta in Hsent, Hstep.
    destruct (fetchPage _ _ _ _ _ _ _) as [[l1 st1] stop].
    cbn [fst snd] in Hsent, Hstep.
    assert (Hhere : Forall (target tweetId)
                      (repeat (repliesUrl encodeURIComponent tweetId
                                 (continuationToken l)) n)).
    { apply Forall_forall. intros u Hu.
      apply list_elem_of_In, repeat_spec in Hu. subst u.
      now exists (continuationToken l). }
    assert (Hstop : exists urls,
              sent st1 = sent st ++ urls
              /\ (length urls <= 3 * passesLeft l)%nat
              /\ Forall (target tweetId) urls).
    { eexists. split; [exact Hsent|]. split; [|exact Hhere].
      rewrite repeat_length. destruct Hstep as [[-> _]|[Hn Hless]]; lia. }
    destruct stop; [exact Hstop|].
    destruct Hstep as [[_ Hstop']|[Hn Hless]]; [discriminate|].
    destruct (truthy (continuationToken l1)); [|exact Hstop]. cbn [andb].
    destruct (attempts l1 <? REPLY_MAX_ATTEMPTS)%nat eqn:Hattempts1;
      [|exact Hstop].
    destruct (pageCount l1 <? replyMaxPages config)%nat; [|exact Hstop].
    cbn [andb]. apply Nat.ltb_lt in Hattempts1.
    destruct (IH l1 st1 Hattempts1) as (urls & Hurls & Hlen & Htargets).
    exists (repeat (repliesUrl encodeURIComponent tweetId (continuationToken l))
              n ++ urls).
    split; [|split].
    + rewrite Hurls, Hsent. now rewrite app_assoc.
    + rewrite length_app, repeat_length. lia.
    + now apply Forall_app.
Qed.

(** The requests of a fetch of replies.  Whatever the upstream answers,
    the fetch asks only for replies of the tweet it was given, first page
    or continuation, and puts at most nine requests on the wire for each
    page it is allowed: three attempts at a page, each with its
    retries. *)
Theorem fetchAllReplies_requests (tweetId username : string) (st : State) :
  exists urls,
    sent (fetchAllReplies config server encodeURIComponent tweetId username
            st).2
    = sent st ++ urls
    /\ (length urls <= 9 * replyMaxPages config)%nat
    /\ Forall (fun u => exists token,
                          u = repliesUrl encodeURIComponent tweetId token)
         urls.
Proof.
  unfold fetchAllReplies. cbv zeta.
  pose proof (fetchPages_sends (3 * S (replyMaxPages config)) tweetId username
                {| allReplies := []; continuationToken := None; attempts := 0;
                   uniqueReplyIds := ∅; pageCount := 0 |} st)
    as Hsends.
  destruct (fetchPages _ _ _ _ _ _ _ _) as [l st1].
  destruct Hsends as (urls & Hsent & Hlen & Htargets);
    [unfold REPLY_MAX_ATTEMPTS; simpl; lia|].
  exists urls. cbn [snd] in Hsent |- *. split; [exact Hsent|].
  split; [|exact Htargets].
  unfold passesLeft in Hlen. cbn [pageCount attempts] in Hlen. lia.
Qed.

End RepliesRequests.

